(** * Tolerant edit distance (sopnet, evaluation/TolerantEditDistance.cpp)

    A shallow embedding of the three passes of [TolerantEditDistance]:
    [extractCells], [enumerateCellLabels] and [findBestCellLabels], together
    with the private helpers they call, followed by the properties of the
    passes.

    Conventions of the embedding.
    - Labels are C++ [float]s that hold integer label ids; they are modelled
      as [Z].
    - Distances and the threshold are [float]s as well.  With the hard-wired
      pitch (1, 1, 10) and integer voxel coordinates every squared distance
      is an integer; a [float] is modelled by the integer it holds, and
      [toFloat] is the rounding to 24 significant bits that a store into a
      [float] applies.  Up to 2^24 it changes nothing.
    - The distance array is a buffer of width * height * depth [float]s that
      is addressed by offset, without a check of the coordinates.
    - [unsigned int] loop counters and voxel coordinates are [nat]; ILP
      variable numbers ([unsigned int var]) are non-negative [Z].  No
      wrap-around is modelled: the embedding describes runs that allocate
      fewer than 2^32 variables.
    - [std::set<float>] and [std::map<float, V>] are iterated in ascending key
      order and the variable numbering depends on that order, so they are
      modelled as ordered lists ([OrdSet], [OrdMap]).
    - The members of the object form the record [State]; a member function is
      a computation in the state-and-exception monad [M]. *)

From Stdlib Require Import ZArith List Bool Lia Sorted FinFun Permutation.
Import ListNotations.
Open Scope Z_scope.

(* ================================================================== *)
(** ** Ordered containers *)

(** [std::set<float>]: strictly ascending list of keys. *)
Module OrdSet.

Definition t := list Z.

Definition empty : t := [].

(** [std::set::insert]. *)
Fixpoint insert (x : Z) (s : t) : t :=
  match s with
  | [] => [x]
  | y :: s' =>
      if x <? y then x :: y :: s'
      else if x =? y then y :: s'
      else y :: insert x s'
  end.

(** Iteration order of a range-based loop over the set. *)
Definition elements (s : t) : list Z := s.

Definition size (s : t) : nat := length s.

(** Representation invariant of [std::set]. *)
Definition wf (s : t) : Prop := StronglySorted Z.lt s.

End OrdSet.

(** [std::map<float, V>] (and [std::map<unsigned int, V>]): association list
    with strictly ascending keys. *)
Module OrdMap.

Definition t (V : Type) := list (Z * V).

Definition empty {V} : t V := [].

Fixpoint find {V} (k : Z) (m : t V) : option V :=
  match m with
  | [] => None
  | (k', v) :: m' =>
      if k <? k' then None
      else if k =? k' then Some v
      else find k m'
  end.

(** Reading [m[k]]: the stored value, or the default-constructed value [d]
    when [k] is absent.  (In C++ the read also materialises the entry
    [k -> d]; no read of this development can tell such an entry from an
    absent one, and the maps read this way are never iterated by key
    afterwards.) *)
Definition at_ {V} (d : V) (k : Z) (m : t V) : V :=
  match find k m with Some v => v | None => d end.

(** Writing through [m[k]]: [m[k] = f (m[k])], creating the entry from the
    default-constructed value [d] when [k] is absent. *)
Fixpoint update {V} (d : V) (f : V -> V) (k : Z) (m : t V) : t V :=
  match m with
  | [] => [(k, f d)]
  | (k', v) :: m' =>
      if k <? k' then (k, f d) :: (k', v) :: m'
      else if k =? k' then (k', f v) :: m'
      else (k', v) :: update d f k m'
  end.

(** [boost::adaptors::map_keys] and [map_values]. *)
Definition keys {V} (m : t V) : list Z := map fst m.
Definition values {V} (m : t V) : list V := map snd m.

Definition wf {V} (m : t V) : Prop := StronglySorted Z.lt (keys m).

End OrdMap.

(* ================================================================== *)
(** ** Data model *)

(** [Cell<float>::Location]. *)
Record Location := mkLocation { loc_x : nat; loc_y : nat; loc_z : nat }.

Definition Location_eqb (a b : Location) : bool :=
  Nat.eqb (loc_x a) (loc_x b) && Nat.eqb (loc_y a) (loc_y b)
  && Nat.eqb (loc_z a) (loc_z b).

(** Modelled from the spec: Cell.h is not among the sources.  Section 3 of
    the specification gives a cell a ground-truth label, a reconstruction
    label, its voxel locations (filled by [add], iterated by [foreach]) and
    a set of alternative labels. *)
Record Cell := mkCell {
  getGroundTruthLabel : Z;
  getReconstructionLabel : Z;
  locations : list Location;
  getAlternativeLabels : OrdSet.t
}.

Definition defaultCell : Cell := mkCell 0 0 [] OrdSet.empty.

Definition add (l : Location) (c : Cell) : Cell :=
  mkCell (getGroundTruthLabel c) (getReconstructionLabel c)
         (locations c ++ [l]) (getAlternativeLabels c).

Definition setReconstructionLabel (r : Z) (c : Cell) : Cell :=
  mkCell (getGroundTruthLabel c) r (locations c) (getAlternativeLabels c).

Definition setGroundTruthLabel (g : Z) (c : Cell) : Cell :=
  mkCell g (getReconstructionLabel c) (locations c) (getAlternativeLabels c).

Definition addAlternativeLabel (r : Z) (c : Cell) : Cell :=
  mkCell (getGroundTruthLabel c) (getReconstructionLabel c) (locations c)
         (OrdSet.insert r (getAlternativeLabels c)).

(** Modelled from the spec: ImageStack.h and Image.h are not among the
    sources.  Section 3: a volume is a stack of [size] label images that all
    have the same [width] and [height]; [voxel x y z] is pixel [(x, y)] of
    section [z].  Pixel access is unchecked in the source, so [voxel] is a
    total function: what it holds outside the extent stands for whatever an
    out-of-range read delivers. *)
Record ImageStack := mkImageStack {
  size : nat;
  width : nat;
  height : nat;
  voxel : nat -> nat -> nat -> Z
}.

(** [float] holds 24 significant bits.  [toFloat n] is the [float] that the
    integer [n] becomes when it is stored in one: [n] itself while its
    magnitude has at most 24 bits, otherwise the nearest multiple of the
    spacing [2 ^ (log2 |n| - 23)], a tie going to the even significand.
    (Overflow to infinity, beyond 2^128, is left out.) *)
Definition toFloat (n : Z) : Z :=
  let a := Z.abs n in
  let e := Z.log2 a - 23 in
  if e <=? 0 then n
  else
    let ulp := 2 ^ e in
    let q := a / ulp in
    let r := a mod ulp in
    let q' :=
      if 2 * r <? ulp then q
      else if ulp <? 2 * r then q + 1
      else if Z.even q then q else q + 1 in
    Z.sgn n * (q' * ulp).

(** The members of [TolerantEditDistance] that the three passes use. *)
Record State := mkState {
  _cells : OrdMap.t (OrdMap.t Cell);
  _width : nat;
  _height : nat;
  _depth : nat;
  _maxDistanceThreshold : Z;
  _groundTruthLabels : OrdSet.t;
  _reconstructionLabels : OrdSet.t;
  _possibleGroundTruthMatches : OrdMap.t OrdSet.t;
  _possibleReconstructionMatches : OrdMap.t OrdSet.t;
  _indicatorVarsByRecLabel : OrdMap.t (list Z);
  _indicatorVarsByGtToRecLabel : OrdMap.t (OrdMap.t (list Z));
  _matchVars : OrdMap.t (OrdMap.t Z)
}.

(** The object as the constructor leaves it: every container empty and the
    threshold read from the program option (default 100) into the [float]
    member [_maxDistanceThreshold]. *)
Definition TolerantEditDistance (threshold : Z) : State :=
  mkState OrdMap.empty 0 0 0 (toFloat threshold) OrdSet.empty OrdSet.empty
          OrdMap.empty OrdMap.empty OrdMap.empty OrdMap.empty OrdMap.empty.

Definition optionToleranceDistanceThreshold : Z := 100.

(** Member-wise updates. *)
Definition with_cells (f : OrdMap.t (OrdMap.t Cell) -> OrdMap.t (OrdMap.t Cell))
  (s : State) : State :=
  mkState (f (_cells s)) (_width s) (_height s) (_depth s)
    (_maxDistanceThreshold s) (_groundTruthLabels s) (_reconstructionLabels s)
    (_possibleGroundTruthMatches s) (_possibleReconstructionMatches s)
    (_indicatorVarsByRecLabel s) (_indicatorVarsByGtToRecLabel s) (_matchVars s).

Definition with_extent (w h d : nat) (s : State) : State :=
  mkState (_cells s) w h d
    (_maxDistanceThreshold s) (_groundTruthLabels s) (_reconstructionLabels s)
    (_possibleGroundTruthMatches s) (_possibleReconstructionMatches s)
    (_indicatorVarsByRecLabel s) (_indicatorVarsByGtToRecLabel s) (_matchVars s).

Definition with_matches
  (fg fr : OrdSet.t -> OrdSet.t)
  (fpg fpr : OrdMap.t OrdSet.t -> OrdMap.t OrdSet.t) (s : State) : State :=
  mkState (_cells s) (_width s) (_height s) (_depth s)
    (_maxDistanceThreshold s)
    (fg (_groundTruthLabels s)) (fr (_reconstructionLabels s))
    (fpg (_possibleGroundTruthMatches s))
    (fpr (_possibleReconstructionMatches s))
    (_indicatorVarsByRecLabel s) (_indicatorVarsByGtToRecLabel s) (_matchVars s).

Definition with_indicators
  (fr : OrdMap.t (list Z) -> OrdMap.t (list Z))
  (fgr : OrdMap.t (OrdMap.t (list Z)) -> OrdMap.t (OrdMap.t (list Z)))
  (s : State) : State :=
  mkState (_cells s) (_width s) (_height s) (_depth s)
    (_maxDistanceThreshold s) (_groundTruthLabels s) (_reconstructionLabels s)
    (_possibleGroundTruthMatches s) (_possibleReconstructionMatches s)
    (fr (_indicatorVarsByRecLabel s)) (fgr (_indicatorVarsByGtToRecLabel s))
    (_matchVars s).

Definition with_matchVars
  (f : OrdMap.t (OrdMap.t Z) -> OrdMap.t (OrdMap.t Z)) (s : State) : State :=
  mkState (_cells s) (_width s) (_height s) (_depth s)
    (_maxDistanceThreshold s) (_groundTruthLabels s) (_reconstructionLabels s)
    (_possibleGroundTruthMatches s) (_possibleReconstructionMatches s)
    (_indicatorVarsByRecLabel s) (_indicatorVarsByGtToRecLabel s)
    (f (_matchVars s)).

(* ================================================================== *)
(** ** The state-and-exception monad of the member functions *)

Inductive Exception := SizeMismatchError.

(** A computation returns a value or the exception thrown, and in both cases
    the object as it is at that point. *)
Definition M (A : Type) := State -> (Exception + A) * State.

Definition ret {A} (a : A) : M A := fun s => (inr a, s).

Definition bind {A B} (c : M A) (k : A -> M B) : M B :=
  fun s =>
    match c s with
    | (inl e, s') => (inl e, s')
    | (inr a, s') => k a s'
    end.

Definition throw {A} (e : Exception) : M A := fun s => (inl e, s).

Definition modify (f : State -> State) : M unit := fun s => (inr tt, f s).

Definition when (b : bool) (c : M unit) : M unit := if b then c else ret tt.

Notation "c1 ;; c2" := (bind c1 (fun _ => c2))
  (at level 61, right associativity).

(** [for (unsigned int i = 0; i < n; i++) body(i)]. *)
Definition for_ (n : nat) (body : nat -> M unit) : M unit :=
  fold_right (fun i k => body i ;; k) (ret tt) (seq 0 n).

(* ================================================================== *)
(** ** Cell extraction *)

Definition clearPossibleMatches : State -> State :=
  with_matches (fun _ => OrdSet.empty) (fun _ => OrdSet.empty)
               (fun _ => OrdMap.empty) (fun m => m).

Definition registerPossibleMatch (gtLabel recLabel : Z) : State -> State :=
  with_matches
    (OrdSet.insert gtLabel)
    (OrdSet.insert recLabel)
    (OrdMap.update OrdSet.empty (OrdSet.insert recLabel) gtLabel)
    (OrdMap.update OrdSet.empty (OrdSet.insert gtLabel) recLabel).

(** Body of the innermost loop of [extractCells]. *)
Definition visitVoxel (_groundTruth _reconstruction : ImageStack)
  (x y z : nat) : State -> State :=
  fun s =>
    let gtLabel := voxel _groundTruth x y z in
    let recLabel := voxel _reconstruction x y z in
    let touch (f : Cell -> Cell) :=
      with_cells
        (OrdMap.update OrdMap.empty (OrdMap.update defaultCell f gtLabel)
                       recLabel) in
    let s := touch (add (mkLocation x y z)) s in
    let s := touch (setReconstructionLabel recLabel) s in
    let s := touch (setGroundTruthLabel gtLabel) s in
    registerPossibleMatch gtLabel recLabel s.

Definition extractCells (_groundTruth _reconstruction : ImageStack) : M unit :=
  when (negb (Nat.eqb (size _groundTruth) (size _reconstruction)))
       (throw SizeMismatchError) ;;
  when (negb (Nat.eqb (height _groundTruth) (height _reconstruction))
        || negb (Nat.eqb (width _groundTruth) (width _reconstruction)))
       (throw SizeMismatchError) ;;
  modify (with_cells (fun _ => OrdMap.empty)) ;;
  modify clearPossibleMatches ;;
  modify (with_extent (width _groundTruth) (height _groundTruth)
                      (size _groundTruth)) ;;
  for_ (size _groundTruth) (fun z =>
    (* gt is section z of _groundTruth; every section has the stack's width *)
    for_ (width _groundTruth) (fun x =>
      for_ (width _groundTruth) (fun y =>
        modify (visitVoxel _groundTruth _reconstruction x y z)))).

Definition getReconstructionLabels (s : State) : OrdSet.t :=
  _reconstructionLabels s.

Definition getGroundTruthLabels (s : State) : OrdSet.t :=
  _groundTruthLabels s.

Definition getPossibleMatchesByGt (gtLabel : Z) (s : State) : OrdSet.t :=
  OrdMap.at_ OrdSet.empty gtLabel (_possibleGroundTruthMatches s).

Definition getPossibleMathesByRec (recLabel : Z) (s : State) : OrdSet.t :=
  OrdMap.at_ OrdSet.empty recLabel (_possibleReconstructionMatches s).

(* ================================================================== *)
(** ** Tolerance enumeration *)

(** The hard-wired voxel pitch of [enumerateCellLabels]. *)
Definition pitch : Z * Z * Z := (1, 1, 10).

Definition sq (a : Z) : Z := a * a.

Definition distSquared (p : Z * Z * Z) (a b : Location) : Z :=
  let '(px, py, pz) := p in
  sq (px * (Z.of_nat (loc_x a) - Z.of_nat (loc_x b)))
  + sq (py * (Z.of_nat (loc_y a) - Z.of_nat (loc_y b)))
  + sq (pz * (Z.of_nat (loc_z a) - Z.of_nat (loc_z b))).

(** Modelled from the spec: [vigra::separableMultiDistSquared] is a library
    routine outside the sources.  Section 4.2: for every voxel the squared
    Euclidean distance to the nearest mask-set voxel, axis [k] contributing
    [(pitch_k * delta_k)^2], and 0 at the mask-set voxels themselves.  The
    mask is given by the list [sources] of the voxels the caller set to 1;
    where the mask is empty the value is the routine's starting bound, the
    squared pitch-scaled diagonal of the [shape]. *)
Definition separableMultiDistSquared (shape : nat * nat * nat)
  (p : Z * Z * Z) (sources : list Location) (v : Location) : Z :=
  let '(w, h, d) := shape in
  let '(px, py, pz) := p in
  let dmax :=
    sq (px * Z.of_nat w) + sq (py * Z.of_nat h) + sq (pz * Z.of_nat d) in
  fold_right Z.min dmax (map (distSquared p v) sources).

(** [vigra::MultiArray<3, float> distance(shape)]: a buffer of
    [width * height * depth] floats.  [distance(x, y, z)] addresses the
    element at offset [x + width * y + width * height * z]; the coordinates
    are not checked against the shape, so coordinates outside the shape
    address another element of the buffer, or memory beyond it. *)
Definition bufferSize (shape : nat * nat * nat) : nat :=
  let '(w, h, d) := shape in (w * h * d)%nat.

Definition offset (shape : nat * nat * nat) (l : Location) : nat :=
  let '(w, h, d) := shape in
  (loc_x l + w * loc_y l + w * h * loc_z l)%nat.

(** The voxel whose element lies at offset [o] of the buffer. *)
Definition element (shape : nat * nat * nat) (o : nat) : Location :=
  let '(w, h, d) := shape in
  mkLocation (o mod w) ((o / w) mod h) (o / (w * h)).

(** What [distance(l.x, l.y, l.z)] reads after the array was set to 0, the
    voxels [written] were set to 1 and [separableMultiDistSquared] ran in
    place: the mask that the library sees is made of the elements of the
    buffer that a write reached, and its result is held as [float]s.
    An access beyond the buffer is undefined behaviour in the source: such
    a write does not reach the mask, and the 0 of such a read stands for
    whatever the read returns.  The properties that depend on distances are
    stated for cells that lie inside the shape, where no access leaves the
    buffer. *)
Definition distanceArray (shape : nat * nat * nat) (written : list Location)
  (l : Location) : Z :=
  let mask :=
    map (element shape)
        (filter (fun o => (o <? bufferSize shape)%nat)
                (map (offset shape) written)) in
  if (offset shape l <? bufferSize shape)%nat then
    toFloat (separableMultiDistSquared shape pitch mask
               (element shape (offset shape l)))
  else 0.

(** The key pairs [(k, j)] of the cells, in the order in which the nested
    [foreach] loops over [_cells] reach them. *)
Definition cellKeys (cells : OrdMap.t (OrdMap.t Cell)) : list (Z * Z) :=
  flat_map (fun km => map (fun j => (fst km, j)) (OrdMap.keys (snd km))) cells.

Definition cellAt (k j : Z) (s : State) : Cell :=
  OrdMap.at_ defaultCell j (OrdMap.at_ OrdMap.empty k (_cells s)).

(** [maxDistance] of a cell under the distance array.  The values compared
    are [float]s; the comparison of the integers they hold is the comparison
    of the [float]s. *)
Definition maxDistanceOf (distance : Location -> Z) (cell : Cell) : Z :=
  fold_left (fun maxDistance l =>
               if distance l >? maxDistance then distance l else maxDistance)
            (locations cell) 0.

(** Body of the loop over the cells for one reconstruction label: the cell
    stored under [(k, j)] is updated in place.  [maxDistance] is the largest
    [float] read from the array and [_maxDistanceThreshold] is a [float]
    member, so the test is the comparison of two [float] values. *)
Definition considerCell (recLabel : Z) (distance : Location -> Z)
  (kj : Z * Z) (s : State) : State :=
  let '(k, j) := kj in
  let cell := cellAt k j s in
  if negb (getReconstructionLabel cell =? recLabel) then
    let maxDistance := maxDistanceOf distance cell in
    if maxDistance <? _maxDistanceThreshold s then
      let s :=
        with_cells
          (OrdMap.update OrdMap.empty
             (OrdMap.update defaultCell (addAlternativeLabel recLabel) j) k)
          s in
      registerPossibleMatch (getGroundTruthLabel (cellAt k j s)) recLabel s
    else s
  else s.

(** Body of the loop over the reconstruction labels. *)
Definition enumerateForLabel (recLabel : Z) (s : State) : State :=
  let written :=
    flat_map locations
             (OrdMap.values (OrdMap.at_ OrdMap.empty recLabel (_cells s))) in
  let distance :=
    distanceArray (_width s, _height s, _depth s) written in
  fold_left (fun s kj => considerCell recLabel distance kj s)
            (cellKeys (_cells s)) s.

Definition enumerateCellLabels (s : State) : State :=
  fold_left (fun s recLabel => enumerateForLabel recLabel s)
            (OrdMap.keys (_cells s)) s.

(* ================================================================== *)
(** ** The integer linear program *)

Inductive Relation := LessEqual | Equal | GreaterEqual.

(** Modelled from the spec: inference/LinearConstraint.h is not among the
    sources.  A constraint is a map from variable numbers to coefficients, a
    relation and a right-hand side; [setCoefficient] overwrites the entry of
    its variable. *)
Record LinearConstraint := mkLinearConstraint {
  getCoefficients : OrdMap.t Z;
  getRelation : Relation;
  getValue : Z
}.

Definition newLinearConstraint : LinearConstraint :=
  mkLinearConstraint OrdMap.empty LessEqual 0.

Definition setCoefficient (v : Z) (coef : Z) (c : LinearConstraint)
  : LinearConstraint :=
  mkLinearConstraint (OrdMap.update 0 (fun _ => coef) v (getCoefficients c))
                     (getRelation c) (getValue c).

Definition setRelation (r : Relation) (c : LinearConstraint)
  : LinearConstraint :=
  mkLinearConstraint (getCoefficients c) r (getValue c).

Definition setValue (b : Z) (c : LinearConstraint) : LinearConstraint :=
  mkLinearConstraint (getCoefficients c) (getRelation c) b.

(** Coefficient of variable [v] in a constraint (0 when it has no entry). *)
Definition coefficient (c : LinearConstraint) (v : Z) : Z :=
  OrdMap.at_ 0 v (getCoefficients c).

Inductive VariableType := Continuous | Integer | Binary.

(** Modelled from the spec: inference/LinearSolverParameters.h is not among
    the sources.  A default variable type and the types set for single
    variables. *)
Record LinearSolverParameters := mkLinearSolverParameters {
  getDefaultVariableType : VariableType;
  getSpecialVariableTypes : OrdMap.t VariableType
}.

Definition newLinearSolverParameters : LinearSolverParameters :=
  mkLinearSolverParameters Continuous OrdMap.empty.

Definition setDefaultVariableType (t : VariableType)
  (p : LinearSolverParameters) : LinearSolverParameters :=
  mkLinearSolverParameters t (getSpecialVariableTypes p).

Definition setVariableType (v : Z) (t : VariableType)
  (p : LinearSolverParameters) : LinearSolverParameters :=
  mkLinearSolverParameters
    (getDefaultVariableType p)
    (OrdMap.update t (fun _ => t) v (getSpecialVariableTypes p)).

Definition getVariableType (p : LinearSolverParameters) (v : Z)
  : VariableType :=
  OrdMap.at_ (getDefaultVariableType p) v (getSpecialVariableTypes p).

Inductive Sense := Minimize | Maximize.

(** Modelled from the spec: inference/LinearObjective.h is not among the
    sources.  A vector of [size] coefficients, all 0 on construction, and a
    sense. *)
Record LinearObjective := mkLinearObjective {
  objectiveCoefficients : list Z;
  getSense : Sense
}.

Definition newLinearObjective (n : Z) : LinearObjective :=
  mkLinearObjective (repeat 0 (Z.to_nat n)) Minimize.

Fixpoint writeAt (i : nat) (x : Z) (l : list Z) : list Z :=
  match l, i with
  | [], _ => []
  | _ :: l', O => x :: l'
  | y :: l', S i' => y :: writeAt i' x l'
  end.

Definition setObjectiveCoefficient (v : Z) (coef : Z) (o : LinearObjective)
  : LinearObjective :=
  mkLinearObjective (writeAt (Z.to_nat v) coef (objectiveCoefficients o))
                    (getSense o).

Definition setSense (s : Sense) (o : LinearObjective) : LinearObjective :=
  mkLinearObjective (objectiveCoefficients o) s.

Definition objectiveCoefficient (o : LinearObjective) (v : Z) : Z :=
  nth (Z.to_nat v) (objectiveCoefficients o) 0.

(** The object together with the locals of [findBestCellLabels] that live
    across its loops. *)
Record Frame := mkFrame {
  self : State;
  constraints : list LinearConstraint;
  parameters : LinearSolverParameters;
  var : Z
}.

Definition on_self (f : State -> State) (fr : Frame) : Frame :=
  mkFrame (f (self fr)) (constraints fr) (parameters fr) (var fr).

(** [constraints->add(c)]. *)
Definition addConstraint (c : LinearConstraint) (fr : Frame) : Frame :=
  mkFrame (self fr) (constraints fr ++ [c]) (parameters fr) (var fr).

(** The increment of [var++]. *)
Definition nextVar (fr : Frame) : Frame :=
  mkFrame (self fr) (constraints fr) (parameters fr) (var fr + 1).

Definition markInteger (v : Z) (fr : Frame) : Frame :=
  mkFrame (self fr) (constraints fr)
          (setVariableType v Integer (parameters fr)) (var fr).

Definition assignIndicatorVariable (v gtLabel recLabel : Z) : State -> State :=
  with_indicators
    (OrdMap.update [] (fun l => l ++ [v]) recLabel)
    (OrdMap.update OrdMap.empty
       (OrdMap.update [] (fun l => l ++ [v]) recLabel) gtLabel).

Definition getIndicatorsByRec (recLabel : Z) (s : State) : list Z :=
  OrdMap.at_ [] recLabel (_indicatorVarsByRecLabel s).

Definition getIndicatorsGtToRec (gtLabel recLabel : Z) (s : State) : list Z :=
  OrdMap.at_ [] recLabel
    (OrdMap.at_ OrdMap.empty gtLabel (_indicatorVarsByGtToRecLabel s)).

Definition assignMatchVariable (v gtLabel recLabel : Z) : State -> State :=
  with_matchVars
    (OrdMap.update OrdMap.empty (OrdMap.update 0 (fun _ => v) recLabel)
                   gtLabel).

Definition getMatchVariable (gtLabel recLabel : Z) (s : State) : Z :=
  OrdMap.at_ 0 recLabel (OrdMap.at_ OrdMap.empty gtLabel (_matchVars s)).

(** The values [i] of [for (unsigned int i = b; i < e; i++)]. *)
Definition range (b e : Z) : list Z :=
  map (fun i => b + Z.of_nat i) (seq 0 (Z.to_nat (e - b))).

(** [assignIndicatorVariable(var++, gtLabel, l)]. *)
Definition newIndicator (gtLabel l : Z) (fr : Frame) : Frame :=
  nextVar (on_self (assignIndicatorVariable (var fr) gtLabel l) fr).

(** Body of the loop that introduces the indicators of one cell. *)
Definition cellIndicators (cell : Cell) (fr : Frame) : Frame :=
  let begin := var fr in
  let fr :=
    newIndicator (getGroundTruthLabel cell) (getReconstructionLabel cell) fr in
  let fr :=
    fold_left (fun fr l => newIndicator (getGroundTruthLabel cell) l fr)
              (OrdSet.elements (getAlternativeLabels cell)) fr in
  let end_ := var fr in
  let constraint :=
    fold_left (fun c i => setCoefficient i 1 c) (range begin end_)
              newLinearConstraint in
  addConstraint (setValue 1 (setRelation Equal constraint)) fr.

Definition introduceIndicators (fr : Frame) : Frame :=
  fold_left
    (fun fr recLabel =>
       fold_left (fun fr cell => cellIndicators cell fr)
         (OrdMap.values
            (OrdMap.at_ OrdMap.empty recLabel (_cells (self fr))))
         fr)
    (OrdSet.elements (getReconstructionLabels (self fr))) fr.

(** "labels can not disappear". *)
Definition keepLabels (fr : Frame) : Frame :=
  fold_left
    (fun fr recLabel =>
       let constraint :=
         fold_left (fun c v => setCoefficient v 1 c)
                   (getIndicatorsByRec recLabel (self fr))
                   newLinearConstraint in
       addConstraint (setValue 1 (setRelation GreaterEqual constraint)) fr)
    (OrdSet.elements (getReconstructionLabels (self fr))) fr.

Definition introduceMatches (fr : Frame) : Frame :=
  fold_left
    (fun fr gtLabel =>
       fold_left
         (fun fr recLabel =>
            nextVar (on_self (assignMatchVariable (var fr) gtLabel recLabel)
                             fr))
         (OrdSet.elements (getPossibleMatchesByGt gtLabel (self fr))) fr)
    (OrdSet.elements (getGroundTruthLabels (self fr))) fr.

(** Body of the loop "cell label selection activates match" for one pair. *)
Definition activateMatch (gtLabel recLabel : Z) (fr : Frame) : Frame :=
  let matchVar := getMatchVariable gtLabel recLabel (self fr) in
  let '(noMatchConstraint, fr) :=
    fold_left
      (fun acc v =>
         let '(noMatchConstraint, fr) := acc in
         let noMatchConstraint := setCoefficient v 1 noMatchConstraint in
         let matchConstraint :=
           setValue 0
             (setRelation GreaterEqual
                (setCoefficient v (-1)
                   (setCoefficient matchVar 1 newLinearConstraint))) in
         (noMatchConstraint, addConstraint matchConstraint fr))
      (getIndicatorsGtToRec gtLabel recLabel (self fr))
      (newLinearConstraint, fr) in
  addConstraint
    (setValue 0
       (setRelation GreaterEqual
          (setCoefficient matchVar (-1) noMatchConstraint)))
    fr.

Definition activateMatches (fr : Frame) : Frame :=
  fold_left
    (fun fr gtLabel =>
       fold_left (fun fr recLabel => activateMatch gtLabel recLabel fr)
         (OrdSet.elements (getPossibleMatchesByGt gtLabel (self fr))) fr)
    (OrdSet.elements (getGroundTruthLabels (self fr))) fr.

(** The constraint [counter >= 0]. *)
Definition positive (counter : Z) : LinearConstraint :=
  setValue 0
    (setRelation GreaterEqual (setCoefficient counter 1 newLinearConstraint)).

(** The constraint [counter - sum of the match variables = -1]. *)
Definition countMatches (counter : Z) (matchVars : list Z)
  : LinearConstraint :=
  setValue (-1)
    (setRelation Equal
       (fold_left (fun c m => setCoefficient m (-1) c) matchVars
          (setCoefficient counter 1 newLinearConstraint))).

(** The constraint [total - sum of the counters b .. e-1 = 0]. *)
Definition sumOf (total b e : Z) : LinearConstraint :=
  setValue 0
    (setRelation Equal
       (fold_left (fun c i => setCoefficient i (-1) c) (range b e)
          (setCoefficient total 1 newLinearConstraint))).

Definition introduceSplits (fr : Frame) : Frame :=
  fold_left
    (fun fr gtLabel =>
       let splitVar := var fr in
       let fr := nextVar fr in
       let fr := markInteger splitVar fr in
       let fr := addConstraint (positive splitVar) fr in
       let numSplits :=
         countMatches splitVar
           (map (fun recLabel => getMatchVariable gtLabel recLabel (self fr))
              (OrdSet.elements (getPossibleMatchesByGt gtLabel (self fr)))) in
       addConstraint numSplits fr)
    (OrdSet.elements (getGroundTruthLabels (self fr))) fr.

Definition introduceMerges (fr : Frame) : Frame :=
  fold_left
    (fun fr recLabel =>
       let mergeVar := var fr in
       let fr := nextVar fr in
       let fr := markInteger mergeVar fr in
       let fr := addConstraint (positive mergeVar) fr in
       let numMerges :=
         countMatches mergeVar
           (map (fun gtLabel => getMatchVariable gtLabel recLabel (self fr))
              (OrdSet.elements (getPossibleMathesByRec recLabel (self fr)))) in
       addConstraint numMerges fr)
    (OrdSet.elements (getReconstructionLabels (self fr))) fr.

(** [unsigned int total = var++], made an integer variable, with the
    constraint that it sums the counters [b .. var-1]. *)
Definition introduceTotal (b : Z) (fr : Frame) : Frame :=
  let e := var fr in
  let total := var fr in
  let fr := nextVar fr in
  let fr := markInteger total fr in
  addConstraint (sumOf total b e) fr.

(** What [findBestCellLabels] hands to the solver, and the object after it. *)
Record Program := mkProgram {
  objective : LinearObjective;
  linearConstraints : list LinearConstraint;
  solverParameters : LinearSolverParameters;
  numVariables : Z;
  splits : Z;
  merges : Z;
  after : State
}.

Definition findBestCellLabels (s : State) : Program :=
  let fr :=
    mkFrame s []
      (setDefaultVariableType Binary newLinearSolverParameters) 0 in
  let fr := introduceIndicators fr in
  let fr := keepLabels fr in
  let fr := introduceMatches fr in
  let fr := activateMatches fr in
  let splitBegin := var fr in
  let fr := introduceSplits fr in
  let splits := var fr in
  let fr := introduceTotal splitBegin fr in
  let mergeBegin := var fr in
  let fr := introduceMerges fr in
  let merges := var fr in
  let fr := introduceTotal mergeBegin fr in
  let objective :=
    setSense Minimize
      (setObjectiveCoefficient merges 1
         (setObjectiveCoefficient splits 1 (newLinearObjective (var fr)))) in
  mkProgram objective (constraints fr) (parameters fr) (var fr)
            splits merges (self fr).

(** [updateOutputs], up to the call of the solver. *)
Definition updateOutputs (_groundTruth _reconstruction : ImageStack)
  : M Program :=
  extractCells _groundTruth _reconstruction ;;
  modify enumerateCellLabels ;;
  fun s => let p := findBestCellLabels s in (inr p, after p).

(* ================================================================== *)
(** ** Auxiliary definitions used in the statements *)

(** The three nested loops of [extractCells] as one update of the object. *)
Definition extractLoop (gt rec : ImageStack) (s : State) : State :=
  fold_left (fun s z =>
    fold_left (fun s x =>
      fold_left (fun s y => visitVoxel gt rec x y z s)
                (seq 0 (width gt)) s)
              (seq 0 (width gt)) s)
            (seq 0 (size gt)) s.

Definition sameExtent (gt rec : ImageStack) : bool :=
  Nat.eqb (size gt) (size rec) && Nat.eqb (height gt) (height rec)
  && Nat.eqb (width gt) (width rec).


(** All cells of the object, in iteration order. *)
Definition allCells (s : State) : list Cell :=
  flat_map (fun km => OrdMap.values (snd km)) (_cells s).

(** The squared distance of a voxel to the nearest voxel of reconstruction
    label [recLabel]: what the distance array of [enumerateCellLabels] holds
    for [recLabel] while the cells lie inside the shape and the values fit a
    [float] exactly. *)
Definition distanceMap (recLabel : Z) (s : State) : Location -> Z :=
  separableMultiDistSquared (_width s, _height s, _depth s) pitch
    (flat_map locations
       (OrdMap.values (OrdMap.at_ OrdMap.empty recLabel (_cells s)))).

(** Sample volumes. *)

(** A stack whose voxels all carry label [l]. *)
Definition uniformStack (d w h : nat) (l : Z) : ImageStack :=
  mkImageStack d w h (fun _ _ _ => l).

(** A 1 x 1 x 2 stack: label 1 in section 0, label 2 in section 1. *)
Definition twoSections : ImageStack :=
  mkImageStack 2 1 1 (fun _ _ z => Z.of_nat z + 1).

(** The state in which the first two passes leave a fresh object. *)
Definition afterEnumeration (threshold : Z) (gt rec : ImageStack) : State :=
  enumerateCellLabels (snd (extractCells gt rec (TolerantEditDistance threshold))).

(** The object after the first two passes on the two-section stack with a
    threshold just above the squared section distance: each of the two cells
    has the other label as an alternative. *)
Definition relabelledSections : State :=
  afterEnumeration 101 twoSections twoSections.

(** ** Reading the linear program *)

(** The cells in the order in which [introduceIndicators] reaches them. *)
Definition cellsInOrder (s : State) : list Cell :=
  flat_map (fun recLabel =>
              OrdMap.values (OrdMap.at_ OrdMap.empty recLabel (_cells s)))
           (OrdSet.elements (getReconstructionLabels s)).

(** The labels a cell may be assigned: its own, then its alternatives. *)
Definition cellLabels (c : Cell) : list Z :=
  getReconstructionLabel c :: OrdSet.elements (getAlternativeLabels c).

(** [numbered b l] pairs the elements of [l] with [b], [b+1], ... *)
Fixpoint numbered {A} (b : Z) (l : list A) : list (Z * A) :=
  match l with
  | [] => []
  | a :: l' => (b, a) :: numbered (b + 1) l'
  end.

(** The (ground-truth label, assigned label) pairs of all indicator
    variables, in the order of their allocation. *)
Definition indicatorLabels (cells : list Cell) : list (Z * Z) :=
  flat_map (fun c => map (pair (getGroundTruthLabel c)) (cellLabels c)) cells.

(** Indicator variable [v] assigns label [snd gl] to a cell of ground-truth
    label [fst gl]. *)
Definition indicatorTable (s : State) : list (Z * (Z * Z)) :=
  numbered 0 (indicatorLabels (cellsInOrder s)).

Definition numIndicators (s : State) : Z :=
  Z.of_nat (length (indicatorLabels (cellsInOrder s))).

(** First indicator variable of the [i]-th cell. *)
Definition blockBegin (s : State) (i : nat) : Z :=
  Z.of_nat (length (indicatorLabels (firstn i (cellsInOrder s)))).

(** The indicator variables whose assigned label is [r]. *)
Definition indicatorsWithLabel (s : State) (r : Z) : list Z :=
  map fst (filter (fun e => snd (snd e) =? r) (indicatorTable s)).

(** The indicator variables that assign label [r] to a cell of ground-truth
    label [g]. *)
Definition indicatorsGtToRec (s : State) (g r : Z) : list Z :=
  map fst (filter (fun e => (fst (snd e) =? g) && (snd (snd e) =? r))
                  (indicatorTable s)).

(** The possible matches [(g, r)] in the order of [introduceMatches]. *)
Definition possibleMatches (s : State) : list (Z * Z) :=
  flat_map (fun g => map (pair g) (OrdSet.elements (getPossibleMatchesByGt g s)))
           (OrdSet.elements (getGroundTruthLabels s)).

Definition pair_eqb (a b : Z * Z) : bool :=
  (fst a =? fst b) && (snd a =? snd b).

(** Position of the first element of [l] that satisfies [p]. *)
Fixpoint position {A} (p : A -> bool) (l : list A) : nat :=
  match l with
  | [] => O
  | a :: l' => if p a then O else S (position p l')
  end.

(** The layout of the variables behind the indicators. *)
Definition matchVariable (s : State) (g r : Z) : Z :=
  numIndicators s + Z.of_nat (position (pair_eqb (g, r)) (possibleMatches s)).

Definition splitBegin (s : State) : Z :=
  numIndicators s + Z.of_nat (length (possibleMatches s)).

Definition splitVariable (s : State) (g : Z) : Z :=
  splitBegin s
  + Z.of_nat (position (Z.eqb g) (OrdSet.elements (getGroundTruthLabels s))).

Definition totalSplits (s : State) : Z :=
  splitBegin s + Z.of_nat (length (OrdSet.elements (getGroundTruthLabels s))).

Definition mergeBegin (s : State) : Z := totalSplits s + 1.

Definition mergeVariable (s : State) (r : Z) : Z :=
  mergeBegin s
  + Z.of_nat (position (Z.eqb r) (OrdSet.elements (getReconstructionLabels s))).

Definition totalMerges (s : State) : Z :=
  mergeBegin s
  + Z.of_nat (length (OrdSet.elements (getReconstructionLabels s))).

(** A linear expression as a formal sum of terms (coefficient, variable);
    [termSum terms v] is the coefficient it gives variable [v]. *)
Definition termSum (terms : list (Z * Z)) (v : Z) : Z :=
  fold_right (fun t acc => if snd t =? v then fst t + acc else acc) 0 terms.

(** [states c terms rel rhs]: constraint [c] reads
    [sum of coefficient * variable over terms  rel  rhs]. *)
Definition states (c : LinearConstraint) (terms : list (Z * Z))
  (rel : Relation) (rhs : Z) : Prop :=
  getRelation c = rel /\ getValue c = rhs
  /\ forall v, coefficient c v = termSum terms v.

Definition Relation_eqb (a b : Relation) : bool :=
  match a, b with
  | LessEqual, LessEqual | Equal, Equal | GreaterEqual, GreaterEqual => true
  | _, _ => false
  end.

(** The constraints the loops emit, as the code builds them. *)

(** "every cell needs to have a label", for the indicators [b .. e-1]. *)
Definition coverageConstraint (b e : Z) : LinearConstraint :=
  setValue 1
    (setRelation Equal
       (fold_left (fun c i => setCoefficient i 1 c) (range b e)
                  newLinearConstraint)).

Fixpoint coverageConstraints (b : Z) (cells : list Cell)
  : list LinearConstraint :=
  match cells with
  | [] => []
  | c :: cells' =>
      let e := b + Z.of_nat (length (cellLabels c)) in
      coverageConstraint b e :: coverageConstraints e cells'
  end.

(** "labels can not disappear", for the indicators [vs]. *)
Definition survivalConstraint (vs : list Z) : LinearConstraint :=
  setValue 1
    (setRelation GreaterEqual
       (fold_left (fun c v => setCoefficient v 1 c) vs newLinearConstraint)).

Definition matchConstraint (matchVar v : Z) : LinearConstraint :=
  setValue 0
    (setRelation GreaterEqual
       (setCoefficient v (-1)
          (setCoefficient matchVar 1 newLinearConstraint))).

Definition noMatchConstraint (matchVar : Z) (vs : list Z)
  : LinearConstraint :=
  setValue 0
    (setRelation GreaterEqual
       (setCoefficient matchVar (-1)
          (fold_left (fun c v => setCoefficient v 1 c) vs
                     newLinearConstraint))).

Definition activationConstraints (matchVar : Z) (vs : list Z)
  : list LinearConstraint :=
  map (matchConstraint matchVar) vs ++ [noMatchConstraint matchVar vs].

(** The effect of the allocation loops on the object: [assignIndicatorVariable]
    (resp. [assignMatchVariable]) for every entry of a numbered table. *)
Definition registerIndicators (table : list (Z * (Z * Z))) (s : State)
  : State :=
  fold_left (fun s e =>
               assignIndicatorVariable (fst e) (fst (snd e)) (snd (snd e)) s)
            table s.

Definition registerMatches (table : list (Z * (Z * Z))) (s : State) : State :=
  fold_left (fun s e =>
               assignMatchVariable (fst e) (fst (snd e)) (snd (snd e)) s)
            table s.

Definition markIntegers (vs : list Z) (p : LinearSolverParameters)
  : LinearSolverParameters :=
  fold_left (fun p v => setVariableType v Integer p) vs p.

(** The object after [introduceIndicators], and after [introduceMatches]. *)
Definition afterIndicators (s : State) : State :=
  registerIndicators (indicatorTable s) s.

Definition afterMatches (s : State) : State :=
  registerMatches (numbered (numIndicators s) (possibleMatches s))
                  (afterIndicators s).

(** The two constraints of one counter. *)
Definition counterConstraints (matchVars : State -> Z -> list Z) (s : State)
  (e : Z * Z) : list LinearConstraint :=
  [positive (fst e); countMatches (fst e) (matchVars s (snd e))].

Definition splitMatchVars (s : State) (gtLabel : Z) : list Z :=
  map (fun recLabel => getMatchVariable gtLabel recLabel s)
      (OrdSet.elements (getPossibleMatchesByGt gtLabel s)).

Definition mergeMatchVars (s : State) (recLabel : Z) : list Z :=
  map (fun gtLabel => getMatchVariable gtLabel recLabel s)
      (OrdSet.elements (getPossibleMathesByRec recLabel s)).

(** The sections of the constraint list, in the order of emission. *)
Definition coverageSection (s : State) : list LinearConstraint :=
  coverageConstraints 0 (cellsInOrder s).

Definition survivalSection (s : State) : list LinearConstraint :=
  map (fun r => survivalConstraint (getIndicatorsByRec r (afterIndicators s)))
      (OrdSet.elements (getReconstructionLabels s)).

Definition activationSection (s : State) : list LinearConstraint :=
  flat_map
    (fun gr =>
       activationConstraints
         (getMatchVariable (fst gr) (snd gr) (afterMatches s))
         (getIndicatorsGtToRec (fst gr) (snd gr) (afterMatches s)))
    (possibleMatches s).

Definition splitSection (s : State) : list LinearConstraint :=
  flat_map (counterConstraints splitMatchVars (afterMatches s))
           (numbered (splitBegin s)
                     (OrdSet.elements (getGroundTruthLabels s)))
  ++ [sumOf (totalSplits s) (splitBegin s) (totalSplits s)].

Definition mergeSection (s : State) : list LinearConstraint :=
  flat_map (counterConstraints mergeMatchVars (afterMatches s))
           (numbered (mergeBegin s)
                     (OrdSet.elements (getReconstructionLabels s)))
  ++ [sumOf (totalMerges s) (mergeBegin s) (totalMerges s)].

Definition binaryByDefault : LinearSolverParameters :=
  setDefaultVariableType Binary newLinearSolverParameters.

(** The counters and totals, in the order in which they are made integer. *)
Definition integerVariables (s : State) : list Z :=
  range (splitBegin s) (totalSplits s) ++ [totalSplits s]
  ++ range (mergeBegin s) (totalMerges s) ++ [totalMerges s].

(** The frame of [findBestCellLabels] after each of its loops. *)
Definition frame1 (s : State) : Frame :=
  mkFrame (afterIndicators s) (coverageSection s) binaryByDefault
          (numIndicators s).

Definition frame2 (s : State) : Frame :=
  mkFrame (afterIndicators s) (coverageSection s ++ survivalSection s)
          binaryByDefault (numIndicators s).

Definition frame3 (s : State) : Frame :=
  mkFrame (afterMatches s) (coverageSection s ++ survivalSection s)
          binaryByDefault (splitBegin s).

Definition frame4 (s : State) : Frame :=
  mkFrame (afterMatches s)
          (coverageSection s ++ survivalSection s ++ activationSection s)
          binaryByDefault (splitBegin s).

Definition frame6 (s : State) : Frame :=
  mkFrame (afterMatches s)
          (coverageSection s ++ survivalSection s ++ activationSection s
           ++ splitSection s)
          (markIntegers (range (splitBegin s) (totalSplits s) ++ [totalSplits s])
                        binaryByDefault)
          (mergeBegin s).

Definition frame8 (s : State) : Frame :=
  mkFrame (afterMatches s)
          (coverageSection s ++ survivalSection s ++ activationSection s
           ++ splitSection s ++ mergeSection s)
          (markIntegers (integerVariables s) binaryByDefault)
          (totalMerges s + 1).

(** The members read by the loops do not change while indicators and match
    variables are registered. *)
Definition sameInput (s s' : State) : Prop :=
  _cells s' = _cells s
  /\ _groundTruthLabels s' = _groundTruthLabels s
  /\ _reconstructionLabels s' = _reconstructionLabels s
  /\ _possibleGroundTruthMatches s' = _possibleGroundTruthMatches s
  /\ _possibleReconstructionMatches s' = _possibleReconstructionMatches s.


(** The representation invariant of the sets that [introduceMatches]
    iterates. *)
Definition matchSetsWf (s : State) : Prop :=
  OrdSet.wf (getGroundTruthLabels s)
  /\ forall g, OrdSet.wf (getPossibleMatchesByGt g s).


(** Relation and right-hand side of a constraint. *)
Definition kind (c : LinearConstraint) : Relation * Z :=
  (getRelation c, getValue c).

(** [c] is a constraint [... >= 0] in which variable [m] occurs. *)
Definition activates (m : Z) (c : LinearConstraint) : bool :=
  Relation_eqb (getRelation c) GreaterEqual && (getValue c =? 0)
  && negb (coefficient c m =? 0).

(** The representation invariant of the sets that [introduceMerges]
    iterates. *)
Definition mergeSetsWf (s : State) : Prop :=
  OrdSet.wf (getReconstructionLabels s)
  /\ forall r, OrdSet.wf (getPossibleMathesByRec r s).

(** Every pair recorded on the reconstruction side is also recorded on the
    ground-truth side (as [registerPossibleMatch] leaves the two maps when
    both start empty). *)
Definition matchesWithinPairs (s : State) : Prop :=
  forall r g,
    In r (OrdSet.elements (getReconstructionLabels s)) ->
    In g (OrdSet.elements (getPossibleMathesByRec r s)) ->
    In g (OrdSet.elements (getGroundTruthLabels s))
    /\ In r (OrdSet.elements (getPossibleMatchesByGt g s)).

(** What holds of the object between the passes of a first run: the label
    sets and the sets of possible matches are well-formed, the two maps of
    possible matches mirror each other and mention registered labels only,
    and no indicator has been registered yet. *)
Definition readyForProgram (s : State) : Prop :=
  OrdSet.wf (getGroundTruthLabels s)
  /\ OrdSet.wf (getReconstructionLabels s)
  /\ (forall g, OrdSet.wf (getPossibleMatchesByGt g s))
  /\ (forall r, OrdSet.wf (getPossibleMathesByRec r s))
  /\ (forall r g,
        In g (getPossibleMathesByRec r s) <-> In r (getPossibleMatchesByGt g s))
  /\ (forall g r,
        In r (getPossibleMatchesByGt g s) ->
        In g (getGroundTruthLabels s) /\ In r (getReconstructionLabels s))
  /\ _indicatorVarsByRecLabel s = OrdMap.empty
  /\ _indicatorVarsByGtToRecLabel s = OrdMap.empty.

(** The reconstruction labels are exactly the keys of the cell map. *)
Definition cellsIndexed (s : State) : Prop :=
  OrdMap.keys (_cells s) = _reconstructionLabels s
  /\ OrdSet.wf (_reconstructionLabels s).

(** ** Further notions used in the statements *)

(** The voxels that the three loops of [extractCells] visit, in the order of
    the visits: [z] below the depth, [x] and [y] both below the width. *)
Definition visitedVoxels (gt : ImageStack) : list Location :=
  flat_map (fun z =>
    flat_map (fun x =>
      map (fun y => mkLocation x y z) (seq 0 (width gt)))
      (seq 0 (width gt)))
    (seq 0 (size gt)).

(** Ground-truth label [g] and reconstruction label [r] meet at a visited
    voxel. *)
Definition observed (gt rec : ImageStack) (g r : Z) : Prop :=
  exists v, In v (visitedVoxels gt)
            /\ voxel gt (loc_x v) (loc_y v) (loc_z v) = g
            /\ voxel rec (loc_x v) (loc_y v) (loc_z v) = r.

(** [everyCell P s]: every cell of the object, stored under reconstruction
    label [k] and ground-truth label [j], satisfies [P k j]. *)
Definition everyCell (P : Z -> Z -> Cell -> Prop) (s : State) : Prop :=
  forall k m j c, In (k, m) (_cells s) -> In (j, c) m -> P k j c.

(** What extraction guarantees of a cell stored under [(k, j)]. *)
Definition extracted (gt rec : ImageStack) (k j : Z) (c : Cell) : Prop :=
  getReconstructionLabel c = k
  /\ getGroundTruthLabel c = j
  /\ getAlternativeLabels c = OrdSet.empty
  /\ locations c <> []
  /\ forall l, In l (locations c) ->
       In l (visitedVoxels gt)
       /\ voxel gt (loc_x l) (loc_y l) (loc_z l) = j
       /\ voxel rec (loc_x l) (loc_y l) (loc_z l) = k.

(** The voxels that carry reconstruction label [r]: the sources of the
    distance map that [enumerateCellLabels] builds for [r]. *)
Definition sources (r : Z) (s : State) : list Location :=
  flat_map locations (OrdMap.values (OrdMap.at_ OrdMap.empty r (_cells s))).

(** The distance array as [enumerateCellLabels] reads it in the pass for
    label [r]. *)
Definition storedDistance (r : Z) (s : State) : Location -> Z :=
  distanceArray (_width s, _height s, _depth s) (sources r s).

(** The test of [enumerateCellLabels] for giving the cell under [(k, j)] the
    alternative label [r]: the cell has another label, and the largest value
    that the distance array of [r] holds over its voxels is below the
    threshold itself. *)
Definition admits (s : State) (k j r : Z) : bool :=
  negb (getReconstructionLabel (cellAt k j s) =? r)
  && (maxDistanceOf (storedDistance r s) (cellAt k j s)
      <? _maxDistanceThreshold s).

(** Voxel [l] lies inside the shape of the distance array. *)
Definition inShape (shape : nat * nat * nat) (l : Location) : bool :=
  let '(w, h, d) := shape in
  (loc_x l <? w)%nat && (loc_y l <? h)%nat && (loc_z l <? d)%nat.

(** Every voxel of every cell lies inside the extent that the object
    stores: no access of [enumerateCellLabels] leaves the distance array. *)
Definition cellsInShape (s : State) : Prop :=
  forallb (fun c => forallb (inShape (_width s, _height s, _depth s))
                            (locations c))
          (allCells s) = true.

(** The largest value that a squared distance can take in a volume of the
    given shape, which is also the bound from which the distance transform
    starts. *)
Definition diagonalSquared (shape : nat * nat * nat) : Z :=
  let '(w, h, d) := shape in
  sq (Z.of_nat w) + sq (Z.of_nat h) + sq (10 * Z.of_nat d).

(** Squared distances in the volume are within the 24 bits that a [float]
    holds exactly, and the threshold is a [float]. *)
Definition exactFloats (shape : nat * nat * nat) (threshold : Z) : Prop :=
  diagonalSquared shape <= 2 ^ 24 /\ toFloat threshold = threshold.

(** [s] differs from [s0] at most in alternative labels and possible
    matches. *)
Definition sameVoxels (s0 s : State) : Prop :=
  _width s = _width s0 /\ _height s = _height s0 /\ _depth s = _depth s0
  /\ _maxDistanceThreshold s = _maxDistanceThreshold s0
  /\ (forall r, sources r s = sources r s0)
  /\ (forall kj, In kj (cellKeys (_cells s)) <-> In kj (cellKeys (_cells s0)))
  /\ (forall k j,
        getReconstructionLabel (cellAt k j s)
        = getReconstructionLabel (cellAt k j s0)
        /\ getGroundTruthLabel (cellAt k j s)
           = getGroundTruthLabel (cellAt k j s0)
        /\ locations (cellAt k j s) = locations (cellAt k j s0)).

(** Some cell among the keys [keys], of ground-truth label [g], admits
    label [r]. *)
Definition admitted (s : State) (keys : list (Z * Z)) (g r : Z) : Prop :=
  exists k j, In (k, j) keys /\ admits s k j r = true
              /\ getGroundTruthLabel (cellAt k j s) = g.

(** The representation invariant of the cell map and of its inner maps. *)
Definition cellsWf (s : State) : Prop :=
  OrdMap.wf (_cells s)
  /\ forall k m, In (k, m) (_cells s) -> OrdMap.wf m.

(** [s'] has the possible matches and labels of [s] and, in addition, the
    pairs [extra]. *)
Definition matchesGrow (s s' : State) (extra : Z -> Z -> Prop) : Prop :=
  forall g r,
    (In r (getPossibleMatchesByGt g s')
     <-> In r (getPossibleMatchesByGt g s) \/ extra g r)
    /\ (In g (getPossibleMathesByRec r s')
        <-> In g (getPossibleMathesByRec r s) \/ extra g r)
    /\ (In g (getGroundTruthLabels s')
        <-> In g (getGroundTruthLabels s) \/ exists r', extra g r')
    /\ (In r (getReconstructionLabels s')
        <-> In r (getReconstructionLabels s) \/ exists g', extra g' r).

(** The object after extraction from the two-section stack, before the
    enumeration. *)
Definition extractedSections : State :=
  snd (extractCells twoSections twoSections (TolerantEditDistance 101)).

(** A 2 x 2 section whose left column carries label 1 and whose right column
    carries label 2. *)
Definition twoColumns : ImageStack :=
  mkImageStack 1 2 2 (fun x _ _ => Z.of_nat x + 1).

(** An object that has run [updateOutputs] once, on the two-column section,
    with the default threshold. *)
Definition usedObject : State :=
  snd (updateOutputs twoColumns twoColumns
         (TolerantEditDistance optionToleranceDistanceThreshold)).

(** The state in which the builder starts when [updateOutputs] runs on the
    used object a second time, now on [gt] and [rec]. *)
Definition secondRun (gt rec : ImageStack) : State :=
  enumerateCellLabels (snd (extractCells gt rec usedObject)).

(** [c] has the form [... >= 1]. *)
Definition atLeastOne (c : LinearConstraint) : bool :=
  Relation_eqb (getRelation c) GreaterEqual && (getValue c =? 1).

(** [c] has the form [... = -1] and variable [v] occurs in it. *)
Definition countsFor (v : Z) (c : LinearConstraint) : bool :=
  Relation_eqb (getRelation c) Equal && (getValue c =? -1)
  && negb (coefficient c v =? 0).

(* ================================================================== *)
(** * Properties *)

(** ** Cell extraction *)

(** A loop whose body only updates the object never throws; it is the
    iteration of the update. *)
Lemma for_modify (n : nat) (body : nat -> M unit) (g : nat -> State -> State) :
  (forall i s, body i s = (inr tt, g i s)) ->
  forall s, for_ n body s = (inr tt, fold_left (fun s i => g i s) (seq 0 n) s).
Proof.
  intros Hbody. unfold for_. generalize (seq 0 n) as l.
  induction l as [|i l IH]; intros s; simpl.
  - reflexivity.
  - unfold bind. rewrite Hbody. apply IH.
Qed.

Lemma extractCells_unfold (gt rec : ImageStack) (s : State) :
  extractCells gt rec s =
  if sameExtent gt rec then
    (inr tt,
     extractLoop gt rec
       (with_extent (width gt) (height gt) (size gt)
          (clearPossibleMatches (with_cells (fun _ => OrdMap.empty) s))))
  else (inl SizeMismatchError, s).
Proof.
  unfold extractCells, sameExtent, when, bind, throw, ret.
  destruct (Nat.eqb (size gt) (size rec)); simpl; [|reflexivity].
  destruct (Nat.eqb (height gt) (height rec)); simpl; [|reflexivity].
  destruct (Nat.eqb (width gt) (width rec)); simpl; [|reflexivity].
  unfold extractLoop.
  apply for_modify. intros z s1.
  apply for_modify. intros x s2.
  apply for_modify. intros y s3. reflexivity.
Qed.

Lemma sameExtent_true (gt rec : ImageStack) :
  sameExtent gt rec = true <->
  size gt = size rec /\ width gt = width rec /\ height gt = height rec.
Proof.
  unfold sameExtent. rewrite !andb_true_iff, !Nat.eqb_eq. tauto.
Qed.

Lemma sameExtent_false (gt rec : ImageStack) :
  sameExtent gt rec = false <->
  size gt <> size rec \/ width gt <> width rec \/ height gt <> height rec.
Proof.
  unfold sameExtent. rewrite !andb_false_iff, !Nat.eqb_neq. tauto.
Qed.

(** C10.  When [extractCells] throws, the object is exactly as it was on
    entry: cells, possible matches, label sets and extent are untouched. *)
Theorem extractCells_throw_keeps_state
  (gt rec : ImageStack) (s s' : State) (e : Exception) :
  extractCells gt rec s = (inl e, s') -> s' = s.
Proof.
  rewrite extractCells_unfold.
  destruct (sameExtent gt rec); intros H.
  - discriminate H.
  - inversion H. reflexivity.
Qed.

Lemma extractCells_throw_keeps_state_witness :
  extractCells (uniformStack 1 2 2 7) (uniformStack 1 2 3 7)
               (TolerantEditDistance 100)
  = (inl SizeMismatchError, TolerantEditDistance 100)
  /\ TolerantEditDistance 100 = TolerantEditDistance 100.
Proof.
  split.
  - reflexivity.
  - apply (extractCells_throw_keeps_state
             (uniformStack 1 2 2 7) (uniformStack 1 2 3 7)
             (TolerantEditDistance 100) (TolerantEditDistance 100)
             SizeMismatchError).
    reflexivity.
Defined.

(** C2.  On a stack of width 1, height 2 and depth 1 whose two voxels carry
    label 1, [extractCells] returns normally but its inner loop runs [y] up
    to the width, not the height: the only cell holds voxel (0,0,0) alone and
    voxel (0,1,0), which lies inside the volume, is in no cell. *)
Theorem extractCells_misses_rows_beyond_width :
  let gt := uniformStack 1 1 2 1 in
  let r := extractCells gt gt (TolerantEditDistance 100) in
  fst r = inr tt
  /\ (0 < width gt /\ 1 < height gt /\ 0 < size gt)%nat
  /\ allCells (snd r) = [mkCell 1 1 [mkLocation 0 0 0] OrdSet.empty]
  /\ ~ In (mkLocation 0 1 0) (flat_map locations (allCells (snd r))).
Proof.
  vm_compute. repeat split; try lia.
  intros [H | []]. discriminate H.
Qed.

(** C3.  A second extraction on the same object keeps the reconstruction-side
    matches of the first one: after extracting (gt 1, rec 2) and then
    (gt 5, rec 6), ground-truth label 1 is still among the possible matches
    of reconstruction label 2, although the pair (1, 2) does not occur in
    the current input and 2 is not among the possible matches of 1. *)
Theorem extractCells_keeps_stale_reconstruction_matches :
  let first := extractCells (uniformStack 1 1 1 1) (uniformStack 1 1 1 2)
                            (TolerantEditDistance 100) in
  let second := extractCells (uniformStack 1 1 1 5) (uniformStack 1 1 1 6)
                             (snd first) in
  fst first = inr tt /\ fst second = inr tt
  /\ _possibleGroundTruthMatches (snd second) = [(5, [6])]
  /\ _possibleReconstructionMatches (snd second) = [(2, [1]); (6, [5])]
  /\ In 1 (getPossibleMathesByRec 2 (snd second))
  /\ ~ In 2 (getPossibleMatchesByGt 1 (snd second)).
Proof.
  vm_compute. repeat split; auto.
Qed.

(** ** Tolerance enumeration *)

(** C1.  With the default threshold of 100 on the 1 x 1 x 2 stack whose two
    sections carry labels 1 and 2 (ground truth and reconstruction alike),
    the cell of label 1 lies at squared distance 100 from label 2, which is
    below 100 squared; [enumerateCellLabels] compares the squared distance
    with the threshold itself, so label 2 does not become an alternative of
    that cell and the pair (1, 2) is not registered. *)
Theorem enumerateCellLabels_compares_with_unsquared_threshold :
  let T := optionToleranceDistanceThreshold in
  let extracted :=
    snd (extractCells twoSections twoSections (TolerantEditDistance T)) in
  let s := enumerateCellLabels extracted in
  let c := cellAt 1 1 extracted in
  getReconstructionLabel c = 1
  /\ maxDistanceOf (distanceMap 2 extracted) c = 100
  /\ 100 < T * T
  /\ getAlternativeLabels (cellAt 1 1 s) = OrdSet.empty
  /\ ~ In 2 (getPossibleMatchesByGt 1 s)
  /\ ~ In 1 (getPossibleMathesByRec 2 s).
Proof.
  vm_compute. repeat split; try reflexivity.
  - intros [H | []]. discriminate H.
  - intros [H | []]. discriminate H.
Qed.

(** ** The integer linear program *)

(** A loop over an empty label set does not run. *)
Lemma introduceIndicators_no_labels (fr : Frame) :
  getReconstructionLabels (self fr) = OrdSet.empty -> introduceIndicators fr = fr.
Proof. intros H. unfold introduceIndicators. rewrite H. reflexivity. Qed.

Lemma keepLabels_no_labels (fr : Frame) :
  getReconstructionLabels (self fr) = OrdSet.empty -> keepLabels fr = fr.
Proof. intros H. unfold keepLabels. rewrite H. reflexivity. Qed.

Lemma introduceMatches_no_labels (fr : Frame) :
  getGroundTruthLabels (self fr) = OrdSet.empty -> introduceMatches fr = fr.
Proof. intros H. unfold introduceMatches. rewrite H. reflexivity. Qed.

Lemma activateMatches_no_labels (fr : Frame) :
  getGroundTruthLabels (self fr) = OrdSet.empty -> activateMatches fr = fr.
Proof. intros H. unfold activateMatches. rewrite H. reflexivity. Qed.

Lemma introduceSplits_no_labels (fr : Frame) :
  getGroundTruthLabels (self fr) = OrdSet.empty -> introduceSplits fr = fr.
Proof. intros H. unfold introduceSplits. rewrite H. reflexivity. Qed.

Lemma introduceMerges_no_labels (fr : Frame) :
  getReconstructionLabels (self fr) = OrdSet.empty -> introduceMerges fr = fr.
Proof. intros H. unfold introduceMerges. rewrite H. reflexivity. Qed.

(** C9 as stated fails: for the empty volume pair the builder still
    introduces two variables and two constraints. *)
Lemma findBestCellLabels_empty_input_not_empty :
  let p := findBestCellLabels
             (afterEnumeration 100 (uniformStack 0 0 0 0) (uniformStack 0 0 0 0)) in
  ~ (numVariables p = 0 /\ linearConstraints p = []).
Proof.
  vm_compute. intros [H _]. discriminate H.
Qed.

(** C9, amended.  When the object holds no labels (as after an empty volume
    pair), the builder introduces exactly two variables, the total number of
    splits (variable 0) and of merges (variable 1), both integer, and exactly
    two constraints, [splits = 0] and [merges = 0]; the objective is
    [splits + merges], minimised. *)
Theorem findBestCellLabels_without_labels (s : State) :
  getGroundTruthLabels s = OrdSet.empty ->
  getReconstructionLabels s = OrdSet.empty ->
  let p := findBestCellLabels s in
  numVariables p = 2 /\ splits p = 0 /\ merges p = 1
  /\ linearConstraints p =
       [mkLinearConstraint [(0, 1)] Equal 0; mkLinearConstraint [(1, 1)] Equal 0]
  /\ getVariableType (solverParameters p) 0 = Integer
  /\ getVariableType (solverParameters p) 1 = Integer
  /\ objective p = mkLinearObjective [1; 1] Minimize.
Proof.
  intros Hg Hr. unfold findBestCellLabels.
  set (fr := mkFrame s [] _ 0).
  assert (Hg' : getGroundTruthLabels (self fr) = OrdSet.empty) by exact Hg.
  assert (Hr' : getReconstructionLabels (self fr) = OrdSet.empty) by exact Hr.
  rewrite (introduceIndicators_no_labels fr Hr').
  rewrite (keepLabels_no_labels fr Hr').
  rewrite (introduceMatches_no_labels fr Hg').
  rewrite (activateMatches_no_labels fr Hg').
  rewrite (introduceSplits_no_labels fr Hg').
  rewrite (introduceMerges_no_labels (introduceTotal (var fr) fr) Hr').
  repeat split; reflexivity.
Qed.

Lemma findBestCellLabels_without_labels_witness :
  let s := afterEnumeration 100 (uniformStack 0 0 0 0) (uniformStack 0 0 0 0) in
  numVariables (findBestCellLabels s) = 2
  /\ length (linearConstraints (findBestCellLabels s)) = 2%nat.
Proof.
  pose proof (findBestCellLabels_without_labels
                (afterEnumeration 100 (uniformStack 0 0 0 0) (uniformStack 0 0 0 0))
                eq_refl eq_refl) as H.
  cbv zeta in H. destruct H as (Hn & _ & _ & Hc & _).
  split.
  - exact Hn.
  - rewrite Hc. reflexivity.
Defined.

(** ** Laws of the ordered containers *)

Lemma find_update_eq {V} (d : V) (f : V -> V) (k : Z) (m : OrdMap.t V) :
  OrdMap.find k (OrdMap.update d f k m) = Some (f (OrdMap.at_ d k m)).
Proof.
  unfold OrdMap.at_. induction m as [|[k' v] m IH]; simpl.
  - rewrite Z.ltb_irrefl, Z.eqb_refl. reflexivity.
  - destruct (k <? k') eqn:Hlt; simpl.
    + rewrite Z.ltb_irrefl, Z.eqb_refl. reflexivity.
    + destruct (k =? k') eqn:Heq; simpl.
      * rewrite Hlt, Heq. reflexivity.
      * rewrite Hlt, Heq. exact IH.
Qed.

Lemma find_update_ne {V} (d : V) (f : V -> V) (k j : Z) (m : OrdMap.t V) :
  j <> k -> OrdMap.find j (OrdMap.update d f k m) = OrdMap.find j m.
Proof.
  intros Hne. induction m as [|[k' v] m IH]; simpl.
  - destruct (j <? k) eqn:Hlt; [reflexivity|].
    destruct (j =? k) eqn:Heq; [|reflexivity].
    apply Z.eqb_eq in Heq. contradiction.
  - destruct (k <? k') eqn:Hlt; simpl.
    + destruct (j <? k) eqn:Hjk.
      * apply Z.ltb_lt in Hlt, Hjk.
        assert (H : (j <? k') = true) by (apply Z.ltb_lt; lia).
        rewrite H. reflexivity.
      * destruct (j =? k) eqn:Heq; [|reflexivity].
        apply Z.eqb_eq in Heq. contradiction.
    + destruct (k =? k') eqn:Heq; simpl.
      * apply Z.eqb_eq in Heq. subst k'.
        destruct (j <? k); [reflexivity|].
        destruct (j =? k) eqn:Hjk; [|reflexivity].
        apply Z.eqb_eq in Hjk. contradiction.
      * rewrite IH. reflexivity.
Qed.

Lemma at_update_eq {V} (d : V) (f : V -> V) (k : Z) (m : OrdMap.t V) :
  OrdMap.at_ d k (OrdMap.update d f k m) = f (OrdMap.at_ d k m).
Proof.
  unfold OrdMap.at_ at 1. rewrite find_update_eq. reflexivity.
Qed.

Lemma at_update_ne {V} (d d' : V) (f : V -> V) (k j : Z) (m : OrdMap.t V) :
  j <> k -> OrdMap.at_ d j (OrdMap.update d' f k m) = OrdMap.at_ d j m.
Proof.
  intros Hne. unfold OrdMap.at_. rewrite find_update_ne by exact Hne.
  reflexivity.
Qed.

Lemma find_Some_In {V} (k : Z) (v : V) (m : OrdMap.t V) :
  OrdMap.find k m = Some v -> In (k, v) m.
Proof.
  induction m as [|[k' v'] m IH]; simpl; [discriminate|].
  destruct (k <? k'); [discriminate|].
  destruct (k =? k') eqn:Heq.
  - intros H. injection H as ->. apply Z.eqb_eq in Heq. subst. now left.
  - intros H. right. now apply IH.
Qed.

Lemma In_insert (x y : Z) (s : OrdSet.t) :
  In y (OrdSet.insert x s) <-> y = x \/ In y s.
Proof.
  induction s as [|z s IH]; simpl.
  - intuition.
  - destruct (x <? z); simpl; [intuition|].
    destruct (x =? z) eqn:Heq; simpl.
    + apply Z.eqb_eq in Heq. subst. intuition.
    + rewrite IH. intuition.
Qed.

Lemma wf_insert (x : Z) (s : OrdSet.t) :
  OrdSet.wf s -> OrdSet.wf (OrdSet.insert x s).
Proof.
  unfold OrdSet.wf. induction s as [|z s IH]; simpl; intros Hs.
  - constructor; constructor.
  - inversion Hs as [|? ? Hs' Hz]; subst.
    destruct (x <? z) eqn:Hlt.
    + apply Z.ltb_lt in Hlt. constructor; [exact Hs|].
      constructor; [exact Hlt|].
      eapply Forall_impl; [|exact Hz]. simpl. intros; lia.
    + destruct (x =? z) eqn:Heq; [exact Hs|].
      apply Z.ltb_ge in Hlt. apply Z.eqb_neq in Heq.
      constructor; [now apply IH|].
      apply Forall_forall. intros y Hy. apply In_insert in Hy.
      destruct Hy as [->|Hy]; [lia|].
      rewrite Forall_forall in Hz. now apply Hz.
Qed.

Lemma wf_NoDup (s : OrdSet.t) : OrdSet.wf s -> NoDup s.
Proof.
  unfold OrdSet.wf. induction 1 as [|z s Hs IH Hz]; constructor.
  - intros Hin. rewrite Forall_forall in Hz. specialize (Hz z Hin). lia.
  - exact IH.
Qed.

(** ** Coefficients of the constraints *)

Lemma coefficient_new (v : Z) : coefficient newLinearConstraint v = 0.
Proof. reflexivity. Qed.

Lemma coefficient_setCoefficient (x a : Z) (c : LinearConstraint) (v : Z) :
  coefficient (setCoefficient x a c) v
  = if v =? x then a else coefficient c v.
Proof.
  unfold coefficient, setCoefficient; simpl.
  destruct (v =? x) eqn:Heq.
  - apply Z.eqb_eq in Heq. subst. now rewrite at_update_eq.
  - apply Z.eqb_neq in Heq. now rewrite at_update_ne.
Qed.

Lemma coefficient_setRelation (r : Relation) (c : LinearConstraint) (v : Z) :
  coefficient (setRelation r c) v = coefficient c v.
Proof. reflexivity. Qed.

Lemma coefficient_setValue (b : Z) (c : LinearConstraint) (v : Z) :
  coefficient (setValue b c) v = coefficient c v.
Proof. reflexivity. Qed.

Lemma termSum_cons (t : Z * Z) (terms : list (Z * Z)) (v : Z) :
  termSum (t :: terms) v
  = (if snd t =? v then fst t else 0) + termSum terms v.
Proof. unfold termSum; simpl. destruct (snd t =? v); lia. Qed.

Lemma termSum_nil (v : Z) : termSum [] v = 0.
Proof. reflexivity. Qed.

Lemma termSum_notin (terms : list (Z * Z)) (v : Z) :
  ~ In v (map snd terms) -> termSum terms v = 0.
Proof.
  induction terms as [|t terms IH]; simpl; intros Hn; [reflexivity|].
  destruct (snd t =? v) eqn:Heq.
  - apply Z.eqb_eq in Heq. exfalso. apply Hn. now left.
  - apply IH. intros H. apply Hn. now right.
Qed.

Lemma termSum_app (t1 t2 : list (Z * Z)) (v : Z) :
  termSum (t1 ++ t2) v = termSum t1 v + termSum t2 v.
Proof.
  induction t1 as [|t t1 IH]; simpl; [reflexivity|].
  rewrite IH. destruct (snd t =? v); lia.
Qed.

(** Setting the coefficients of pairwise different variables one after the
    other yields the formal sum of the terms. *)
Lemma coefficient_fold (terms : list (Z * Z)) (c0 : LinearConstraint) (v : Z) :
  NoDup (map snd terms) ->
  (forall x, In x (map snd terms) -> coefficient c0 x = 0) ->
  coefficient
    (fold_left (fun c t => setCoefficient (snd t) (fst t) c) terms c0) v
  = termSum terms v + coefficient c0 v.
Proof.
  revert c0. induction terms as [|t terms IH]; intros c0 Hnd H0; simpl.
  - reflexivity.
  - inversion Hnd as [|? ? Hnotin Hnd']; subst.
    rewrite IH.
    + rewrite coefficient_setCoefficient.
      destruct (snd t =? v) eqn:Heq.
      * apply Z.eqb_eq in Heq. subst v. rewrite Z.eqb_refl.
        rewrite (termSum_notin terms (snd t) Hnotin).
        rewrite (H0 (snd t)) by now left. lia.
      * rewrite Z.eqb_sym, Heq. reflexivity.
    + exact Hnd'.
    + intros x Hx. rewrite coefficient_setCoefficient.
      destruct (x =? snd t) eqn:Heq.
      * apply Z.eqb_eq in Heq. subst x. contradiction.
      * apply H0. now right.
Qed.

Lemma fold_setCoefficient_const (a : Z) (vs : list Z) (c0 : LinearConstraint) :
  fold_left (fun c v => setCoefficient v a c) vs c0
  = fold_left (fun c t => setCoefficient (snd t) (fst t) c)
              (map (pair a) vs) c0.
Proof.
  revert c0. induction vs as [|x vs IH]; intros c0; simpl;
    [reflexivity | apply IH].
Qed.

Lemma map_snd_pair (a : Z) (vs : list Z) : map snd (map (pair a) vs) = vs.
Proof.
  induction vs as [|x vs IH]; simpl; [reflexivity | now rewrite IH].
Qed.

(** [terms a vs]: the formal sum [a * v1 + a * v2 + ...]. *)
Lemma coefficient_fold_const (a : Z) (vs : list Z) (c0 : LinearConstraint)
  (v : Z) :
  NoDup vs ->
  (forall x, In x vs -> coefficient c0 x = 0) ->
  coefficient (fold_left (fun c v => setCoefficient v a c) vs c0) v
  = termSum (map (pair a) vs) v + coefficient c0 v.
Proof.
  intros Hnd H0. rewrite fold_setCoefficient_const.
  apply coefficient_fold; rewrite map_snd_pair; assumption.
Qed.

Lemma NoDup_range (b e : Z) : NoDup (range b e).
Proof.
  unfold range. generalize (Z.to_nat (e - b)) as n. intros n.
  generalize 0%nat as k.
  induction n as [|n IH]; intros k; simpl; constructor.
  - rewrite in_map_iff. intros [i [Hi Hin]]. apply in_seq in Hin. lia.
  - apply IH.
Qed.

Lemma In_range (b e v : Z) : In v (range b e) <-> b <= v < e.
Proof.
  unfold range. rewrite in_map_iff. split.
  - intros [i [<- Hin]]. apply in_seq in Hin. lia.
  - intros H. exists (Z.to_nat (v - b)). split; [lia|].
    apply in_seq. lia.
Qed.

(** What each constraint built by the loops states. *)

Lemma coverageConstraint_states (b e : Z) :
  states (coverageConstraint b e) (map (pair 1) (range b e)) Equal 1.
Proof.
  repeat split. intros v. unfold coverageConstraint.
  rewrite coefficient_setValue, coefficient_setRelation.
  rewrite coefficient_fold_const.
  - rewrite coefficient_new. lia.
  - apply NoDup_range.
  - intros; apply coefficient_new.
Qed.

Lemma survivalConstraint_states (vs : list Z) :
  NoDup vs ->
  states (survivalConstraint vs) (map (pair 1) vs) GreaterEqual 1.
Proof.
  intros Hnd. repeat split. intros v. unfold survivalConstraint.
  rewrite coefficient_setValue, coefficient_setRelation.
  rewrite coefficient_fold_const.
  - rewrite coefficient_new. lia.
  - exact Hnd.
  - intros; apply coefficient_new.
Qed.

Lemma matchConstraint_states (m v : Z) :
  v <> m ->
  states (matchConstraint m v) [(1, m); (-1, v)] GreaterEqual 0.
Proof.
  intros Hne. repeat split. intros x. unfold matchConstraint.
  rewrite coefficient_setValue, coefficient_setRelation.
  rewrite !coefficient_setCoefficient, coefficient_new.
  rewrite !termSum_cons, termSum_nil; cbn [fst snd].
  rewrite (Z.eqb_sym m x), (Z.eqb_sym v x).
  destruct (x =? v) eqn:Hv; destruct (x =? m) eqn:Hm; lia.
Qed.

Lemma noMatchConstraint_states (m : Z) (vs : list Z) :
  NoDup vs -> ~ In m vs ->
  states (noMatchConstraint m vs) (map (pair 1) vs ++ [(-1, m)])
         GreaterEqual 0.
Proof.
  intros Hnd Hm. repeat split. intros x. unfold noMatchConstraint.
  rewrite coefficient_setValue, coefficient_setRelation.
  rewrite coefficient_setCoefficient, termSum_app.
  rewrite !termSum_cons, termSum_nil; cbn [fst snd].
  rewrite (Z.eqb_sym m x).
  rewrite coefficient_fold_const, coefficient_new;
    [|exact Hnd|intros; apply coefficient_new].
  destruct (x =? m) eqn:Hx; [|lia].
  apply Z.eqb_eq in Hx. subst x.
  rewrite termSum_notin; [lia|]. now rewrite map_snd_pair.
Qed.

Lemma positive_states (x : Z) : states (positive x) [(1, x)] GreaterEqual 0.
Proof.
  repeat split. intros v. unfold positive.
  rewrite coefficient_setValue, coefficient_setRelation.
  rewrite coefficient_setCoefficient, coefficient_new.
  rewrite ?termSum_cons, ?termSum_nil; cbn [fst snd].
  rewrite (Z.eqb_sym x v). destruct (v =? x); lia.
Qed.

Lemma countMatches_states (x : Z) (ms : list Z) :
  NoDup ms -> ~ In x ms ->
  states (countMatches x ms) ((1, x) :: map (pair (-1)) ms) Equal (-1).
Proof.
  intros Hnd Hx. repeat split. intros v. unfold countMatches.
  rewrite coefficient_setValue, coefficient_setRelation.
  rewrite coefficient_fold_const.
  - rewrite coefficient_setCoefficient, coefficient_new.
    rewrite termSum_cons; cbn [fst snd].
    rewrite (Z.eqb_sym x v). destruct (v =? x); lia.
  - exact Hnd.
  - intros y Hy. rewrite coefficient_setCoefficient, coefficient_new.
    destruct (y =? x) eqn:Hyx; [|reflexivity].
    apply Z.eqb_eq in Hyx. subst. contradiction.
Qed.

Lemma sumOf_states (total b e : Z) :
  e <= total ->
  states (sumOf total b e) ((1, total) :: map (pair (-1)) (range b e)) Equal 0.
Proof.
  intros Hle. repeat split. intros v. unfold sumOf.
  rewrite coefficient_setValue, coefficient_setRelation.
  rewrite coefficient_fold_const.
  - rewrite coefficient_setCoefficient, coefficient_new.
    rewrite termSum_cons; cbn [fst snd].
    rewrite (Z.eqb_sym total v). destruct (v =? total); lia.
  - apply NoDup_range.
  - intros y Hy. apply In_range in Hy.
    rewrite coefficient_setCoefficient, coefficient_new.
    destruct (y =? total) eqn:Hyx; [|reflexivity].
    apply Z.eqb_eq in Hyx. lia.
Qed.

(** ** The loops of [findBestCellLabels], one by one *)

Lemma numbered_app {A} (b : Z) (l1 l2 : list A) :
  numbered b (l1 ++ l2)
  = numbered b l1 ++ numbered (b + Z.of_nat (length l1)) l2.
Proof.
  revert b. induction l1 as [|a l1 IH]; intros b; simpl.
  - now rewrite Z.add_0_r.
  - rewrite IH. do 3 f_equal. lia.
Qed.

Lemma numbered_length {A} (b : Z) (l : list A) :
  length (numbered b l) = length l.
Proof.
  revert b. induction l as [|a l IH]; intros b; simpl; [|rewrite IH];
    reflexivity.
Qed.

Lemma map_snd_numbered {A} (b : Z) (l : list A) :
  map snd (numbered b l) = l.
Proof.
  revert b. induction l as [|a l IH]; intros b; simpl; [|rewrite IH];
    reflexivity.
Qed.

Lemma map_fst_numbered {A} (b : Z) (l : list A) :
  map fst (numbered b l) = range b (b + Z.of_nat (length l)).
Proof.
  unfold range. replace (b + Z.of_nat (length l) - b) with (Z.of_nat (length l))
    by lia.
  rewrite Nat2Z.id. revert b.
  induction l as [|a l IH]; intros b; simpl; [reflexivity|].
  f_equal; [lia|]. rewrite IH, <- seq_shift, map_map.
  apply map_ext. intros i. lia.
Qed.

Lemma In_numbered {A} (b : Z) (l : list A) (v : Z) (a : A) :
  In (v, a) (numbered b l) ->
  b <= v < b + Z.of_nat (length l) /\ In a l.
Proof.
  revert b. induction l as [|x l IH]; intros b; simpl; [tauto|].
  intros [H | H].
  - injection H as <- <-. split; [lia | now left].
  - apply IH in H. split; [lia | tauto].
Qed.

Lemma sameInput_refl (s : State) : sameInput s s.
Proof. repeat split. Qed.

Lemma sameInput_trans (s1 s2 s3 : State) :
  sameInput s1 s2 -> sameInput s2 s3 -> sameInput s1 s3.
Proof.
  unfold sameInput. intros (A1 & A2 & A3 & A4 & A5) (B1 & B2 & B3 & B4 & B5).
  repeat split; congruence.
Qed.

Lemma registerIndicators_sameInput (table : list (Z * (Z * Z))) (s : State) :
  sameInput s (registerIndicators table s).
Proof.
  unfold registerIndicators. revert s.
  induction table as [|e table IH]; intros s; simpl.
  - apply sameInput_refl.
  - eapply sameInput_trans; [|apply IH]. repeat split.
Qed.

Lemma registerMatches_sameInput (table : list (Z * (Z * Z))) (s : State) :
  sameInput s (registerMatches table s).
Proof.
  unfold registerMatches. revert s.
  induction table as [|e table IH]; intros s; simpl.
  - apply sameInput_refl.
  - eapply sameInput_trans; [|apply IH]. repeat split.
Qed.

Lemma sameInput_cellsInOrder (s s' : State) :
  sameInput s s' -> cellsInOrder s' = cellsInOrder s.
Proof.
  intros (H1 & _ & H3 & _). unfold cellsInOrder, getReconstructionLabels.
  now rewrite H1, H3.
Qed.

Lemma sameInput_possibleMatches (s s' : State) :
  sameInput s s' -> possibleMatches s' = possibleMatches s.
Proof.
  intros (_ & H2 & _ & H4 & _).
  unfold possibleMatches, getGroundTruthLabels, getPossibleMatchesByGt.
  now rewrite H2, H4.
Qed.

Lemma registerIndicators_app (t1 t2 : list (Z * (Z * Z))) (s : State) :
  registerIndicators (t1 ++ t2) s
  = registerIndicators t2 (registerIndicators t1 s).
Proof. unfold registerIndicators. apply fold_left_app. Qed.

Lemma registerMatches_app (t1 t2 : list (Z * (Z * Z))) (s : State) :
  registerMatches (t1 ++ t2) s = registerMatches t2 (registerMatches t1 s).
Proof. unfold registerMatches. apply fold_left_app. Qed.

(** Indicators of one cell. *)
Lemma fold_newIndicator (g : Z) (ls : list Z) (fr : Frame) :
  fold_left (fun fr l => newIndicator g l fr) ls fr
  = mkFrame (registerIndicators (numbered (var fr) (map (pair g) ls)) (self fr))
            (constraints fr) (parameters fr)
            (var fr + Z.of_nat (length ls)).
Proof.
  revert fr. induction ls as [|l ls IH]; intros fr.
  - destruct fr; simpl. now rewrite Z.add_0_r.
  - cbn [fold_left]. rewrite IH. destruct fr; simpl. f_equal. lia.
Qed.

Lemma cellIndicators_eq (cell : Cell) (fr : Frame) :
  cellIndicators cell fr
  = mkFrame
      (registerIndicators
         (numbered (var fr)
            (map (pair (getGroundTruthLabel cell)) (cellLabels cell)))
         (self fr))
      (constraints fr
       ++ [coverageConstraint
             (var fr) (var fr + Z.of_nat (length (cellLabels cell)))])
      (parameters fr)
      (var fr + Z.of_nat (length (cellLabels cell))).
Proof.
  unfold cellIndicators.
  pose proof (fold_newIndicator (getGroundTruthLabel cell) (cellLabels cell) fr)
    as H.
  unfold cellLabels in H at 1. cbn [fold_left] in H.
  unfold OrdSet.elements in *. rewrite H.
  reflexivity.
Qed.

Lemma indicatorLabels_cons (c : Cell) (cells : list Cell) :
  indicatorLabels (c :: cells)
  = map (pair (getGroundTruthLabel c)) (cellLabels c) ++ indicatorLabels cells.
Proof. reflexivity. Qed.

Lemma indicatorLabels_app (c1 c2 : list Cell) :
  indicatorLabels (c1 ++ c2) = indicatorLabels c1 ++ indicatorLabels c2.
Proof. unfold indicatorLabels. apply flat_map_app. Qed.

Lemma fold_cellIndicators (cells : list Cell) (fr : Frame) :
  fold_left (fun fr cell => cellIndicators cell fr) cells fr
  = mkFrame
      (registerIndicators (numbered (var fr) (indicatorLabels cells)) (self fr))
      (constraints fr ++ coverageConstraints (var fr) cells)
      (parameters fr)
      (var fr + Z.of_nat (length (indicatorLabels cells))).
Proof.
  revert fr. induction cells as [|c cells IH]; intros fr.
  - destruct fr; simpl. now rewrite app_nil_r, Z.add_0_r.
  - cbn [fold_left]. rewrite IH, cellIndicators_eq.
    cbn [self constraints parameters var].
    rewrite (indicatorLabels_cons c cells), numbered_app.
    rewrite registerIndicators_app, length_app, !length_map.
    cbn [coverageConstraints].
    f_equal.
    + now rewrite <- app_assoc.
    + lia.
Qed.

Lemma introduceIndicators_loop (cells : OrdMap.t (OrdMap.t Cell))
  (labels : list Z) (fr : Frame) :
  _cells (self fr) = cells ->
  fold_left
    (fun fr recLabel =>
       fold_left (fun fr cell => cellIndicators cell fr)
         (OrdMap.values
            (OrdMap.at_ OrdMap.empty recLabel (_cells (self fr))))
         fr)
    labels fr
  = fold_left (fun fr cell => cellIndicators cell fr)
      (flat_map (fun recLabel =>
                   OrdMap.values (OrdMap.at_ OrdMap.empty recLabel cells))
                labels)
      fr.
Proof.
  revert fr. induction labels as [|r labels IH]; intros fr Hc.
  - reflexivity.
  - cbn [fold_left flat_map]. rewrite fold_left_app, Hc.
    apply IH. rewrite fold_cellIndicators. cbn [self].
    destruct (registerIndicators_sameInput
                (numbered (var fr)
                   (indicatorLabels
                      (OrdMap.values (OrdMap.at_ OrdMap.empty r cells))))
                (self fr)) as (H & _).
    now rewrite H.
Qed.

Lemma introduceIndicators_eq (fr : Frame) :
  introduceIndicators fr
  = mkFrame
      (registerIndicators
         (numbered (var fr) (indicatorLabels (cellsInOrder (self fr))))
         (self fr))
      (constraints fr ++ coverageConstraints (var fr) (cellsInOrder (self fr)))
      (parameters fr)
      (var fr
       + Z.of_nat (length (indicatorLabels (cellsInOrder (self fr))))).
Proof.
  rewrite <- fold_cellIndicators.
  unfold introduceIndicators, cellsInOrder.
  now apply introduceIndicators_loop.
Qed.

Lemma fold_addConstraint {A} (h : A -> State -> list LinearConstraint)
  (l : list A) (fr : Frame) :
  fold_left
    (fun fr x =>
       mkFrame (self fr) (constraints fr ++ h x (self fr)) (parameters fr)
               (var fr))
    l fr
  = mkFrame (self fr)
            (constraints fr ++ flat_map (fun x => h x (self fr)) l)
            (parameters fr) (var fr).
Proof.
  revert fr. induction l as [|x l IH]; intros fr.
  - destruct fr; simpl. now rewrite app_nil_r.
  - cbn [fold_left]. rewrite IH. cbn [self constraints parameters var flat_map].
    now rewrite <- app_assoc.
Qed.

Lemma flat_map_single {A B} (f : A -> B) (l : list A) :
  flat_map (fun x => [f x]) l = map f l.
Proof.
  induction l as [|x l IH]; simpl; [reflexivity | now rewrite IH].
Qed.

Lemma keepLabels_eq (fr : Frame) :
  keepLabels fr
  = mkFrame (self fr)
      (constraints fr
       ++ map (fun r => survivalConstraint (getIndicatorsByRec r (self fr)))
              (OrdSet.elements (getReconstructionLabels (self fr))))
      (parameters fr) (var fr).
Proof.
  unfold keepLabels. rewrite <- flat_map_single.
  exact (fold_addConstraint
           (fun r s => [survivalConstraint (getIndicatorsByRec r s)])
           (OrdSet.elements (getReconstructionLabels (self fr))) fr).
Qed.

(** Match variables. *)
Lemma fold_newMatch (g : Z) (rs : list Z) (fr : Frame) :
  fold_left
    (fun fr r => nextVar (on_self (assignMatchVariable (var fr) g r) fr)) rs fr
  = mkFrame (registerMatches (numbered (var fr) (map (pair g) rs)) (self fr))
            (constraints fr) (parameters fr)
            (var fr + Z.of_nat (length rs)).
Proof.
  revert fr. induction rs as [|r rs IH]; intros fr.
  - destruct fr; simpl. now rewrite Z.add_0_r.
  - cbn [fold_left]. rewrite IH. destruct fr; simpl. f_equal. lia.
Qed.

Lemma introduceMatches_loop (s0 : State) (labels : list Z) (fr : Frame) :
  sameInput s0 (self fr) ->
  fold_left
    (fun fr gtLabel =>
       fold_left
         (fun fr recLabel =>
            nextVar (on_self (assignMatchVariable (var fr) gtLabel recLabel)
                             fr))
         (OrdSet.elements (getPossibleMatchesByGt gtLabel (self fr))) fr)
    labels fr
  = let pairs :=
      flat_map (fun g => map (pair g)
                           (OrdSet.elements (getPossibleMatchesByGt g s0)))
               labels in
    mkFrame (registerMatches (numbered (var fr) pairs) (self fr))
            (constraints fr) (parameters fr)
            (var fr + Z.of_nat (length pairs)).
Proof.
  revert fr. induction labels as [|g labels IH]; intros fr Hs.
  - destruct fr; simpl. now rewrite Z.add_0_r.
  - cbn [fold_left flat_map]. rewrite fold_newMatch.
    assert (Hpm : getPossibleMatchesByGt g (self fr)
                  = getPossibleMatchesByGt g s0).
    { destruct Hs as (_ & _ & _ & H4 & _).
      unfold getPossibleMatchesByGt. now rewrite H4. }
    rewrite Hpm. rewrite IH.
    + cbn [self constraints parameters var]. cbv zeta.
      rewrite numbered_app, registerMatches_app, length_app, !length_map.
      f_equal. lia.
    + cbn [self]. eapply sameInput_trans; [exact Hs|].
      apply registerMatches_sameInput.
Qed.

Lemma introduceMatches_eq (fr : Frame) :
  introduceMatches fr
  = mkFrame
      (registerMatches (numbered (var fr) (possibleMatches (self fr)))
                       (self fr))
      (constraints fr) (parameters fr)
      (var fr + Z.of_nat (length (possibleMatches (self fr)))).
Proof.
  unfold introduceMatches, possibleMatches.
  apply (introduceMatches_loop (self fr)). apply sameInput_refl.
Qed.

Lemma fold_left_ext_frame {A B} (f g : A -> B -> A) (l : list B) (a : A) :
  (forall a b, f a b = g a b) -> fold_left f l a = fold_left g l a.
Proof.
  intros H. revert a. induction l as [|b l IH]; intros a; simpl;
    [reflexivity | now rewrite H, IH].
Qed.

Lemma flat_map_pairs {B} (F : Z * Z -> list B) (h : Z -> list Z)
  (labels : list Z) :
  flat_map F (flat_map (fun g => map (pair g) (h g)) labels)
  = flat_map (fun g => flat_map (fun r => F (g, r)) (h g)) labels.
Proof.
  induction labels as [|g labels IH]; simpl; [reflexivity|].
  rewrite flat_map_app, IH. f_equal.
  induction (h g) as [|r rs IHr]; simpl; [reflexivity | now rewrite IHr].
Qed.

(** Match activation. *)
Lemma activateMatch_inner (m : Z) (vs : list Z) (c0 : LinearConstraint)
  (fr : Frame) :
  fold_left
    (fun acc v =>
       let '(noMatchConstraint, fr) := acc in
       let noMatchConstraint := setCoefficient v 1 noMatchConstraint in
       let matchConstraint :=
         setValue 0
           (setRelation GreaterEqual
              (setCoefficient v (-1)
                 (setCoefficient m 1 newLinearConstraint))) in
       (noMatchConstraint, addConstraint matchConstraint fr))
    vs (c0, fr)
  = (fold_left (fun c v => setCoefficient v 1 c) vs c0,
     mkFrame (self fr) (constraints fr ++ map (matchConstraint m) vs)
             (parameters fr) (var fr)).
Proof.
  revert c0 fr. induction vs as [|v vs IH]; intros c0 fr.
  - destruct fr; simpl. now rewrite app_nil_r.
  - cbn [fold_left]. rewrite IH. cbn [map fold_left].
    unfold addConstraint; cbn [self constraints parameters var].
    now rewrite <- app_assoc.
Qed.

Lemma activateMatch_eq (g r : Z) (fr : Frame) :
  activateMatch g r fr
  = mkFrame (self fr)
      (constraints fr
       ++ activationConstraints (getMatchVariable g r (self fr))
                                (getIndicatorsGtToRec g r (self fr)))
      (parameters fr) (var fr).
Proof.
  unfold activateMatch. rewrite activateMatch_inner.
  unfold addConstraint, activationConstraints, noMatchConstraint.
  cbn [self constraints parameters var].
  now rewrite <- app_assoc.
Qed.

Lemma activateMatches_eq (fr : Frame) :
  activateMatches fr
  = mkFrame (self fr)
      (constraints fr
       ++ flat_map
            (fun gr =>
               activationConstraints
                 (getMatchVariable (fst gr) (snd gr) (self fr))
                 (getIndicatorsGtToRec (fst gr) (snd gr) (self fr)))
            (possibleMatches (self fr)))
      (parameters fr) (var fr).
Proof.
  unfold activateMatches, possibleMatches.
  rewrite flat_map_pairs. cbn [fst snd].
  etransitivity;
    [|apply (fold_addConstraint
               (fun g s =>
                  flat_map
                    (fun r =>
                       activationConstraints (getMatchVariable g r s)
                                             (getIndicatorsGtToRec g r s))
                    (OrdSet.elements (getPossibleMatchesByGt g s))))].
  apply fold_left_ext_frame. intros fr' g.
  etransitivity;
    [|apply (fold_addConstraint
               (fun r s =>
                  activationConstraints (getMatchVariable g r s)
                                        (getIndicatorsGtToRec g r s)))].
  apply fold_left_ext_frame. intros fr'' r. apply activateMatch_eq.
Qed.

(** Split and merge counters. *)
Lemma fold_counters (h : State -> Z -> list Z) (l : list Z) (fr : Frame) :
  fold_left
    (fun fr x =>
       let v := var fr in
       let fr := nextVar fr in
       let fr := markInteger v fr in
       let fr := addConstraint (positive v) fr in
       addConstraint (countMatches v (h (self fr) x)) fr)
    l fr
  = mkFrame (self fr)
      (constraints fr
       ++ flat_map (counterConstraints h (self fr)) (numbered (var fr) l))
      (markIntegers (map fst (numbered (var fr) l)) (parameters fr))
      (var fr + Z.of_nat (length l)).
Proof.
  revert fr. induction l as [|x l IH]; intros fr.
  - destruct fr; simpl. now rewrite app_nil_r, Z.add_0_r.
  - cbn [fold_left]. rewrite IH.
    unfold addConstraint, markInteger, nextVar.
    cbn [self constraints parameters var numbered flat_map map fst snd].
    unfold counterConstraints at 2. cbn [fst snd].
    unfold markIntegers. cbn [fold_left].
    f_equal.
    + rewrite <- !app_assoc. reflexivity.
    + cbn [length]. lia.
Qed.

Lemma introduceSplits_eq (fr : Frame) :
  introduceSplits fr
  = mkFrame (self fr)
      (constraints fr
       ++ flat_map (counterConstraints splitMatchVars (self fr))
            (numbered (var fr)
               (OrdSet.elements (getGroundTruthLabels (self fr)))))
      (markIntegers
         (map fst (numbered (var fr)
                     (OrdSet.elements (getGroundTruthLabels (self fr)))))
         (parameters fr))
      (var fr
       + Z.of_nat (length (OrdSet.elements (getGroundTruthLabels (self fr))))).
Proof. exact (fold_counters splitMatchVars _ fr). Qed.

Lemma introduceMerges_eq (fr : Frame) :
  introduceMerges fr
  = mkFrame (self fr)
      (constraints fr
       ++ flat_map (counterConstraints mergeMatchVars (self fr))
            (numbered (var fr)
               (OrdSet.elements (getReconstructionLabels (self fr)))))
      (markIntegers
         (map fst (numbered (var fr)
                     (OrdSet.elements (getReconstructionLabels (self fr)))))
         (parameters fr))
      (var fr
       + Z.of_nat
           (length (OrdSet.elements (getReconstructionLabels (self fr))))).
Proof. exact (fold_counters mergeMatchVars _ fr). Qed.

(** ** The program as a whole *)

Lemma afterIndicators_sameInput (s : State) : sameInput s (afterIndicators s).
Proof. apply registerIndicators_sameInput. Qed.

Lemma afterMatches_sameInput (s : State) : sameInput s (afterMatches s).
Proof.
  eapply sameInput_trans; [apply afterIndicators_sameInput|].
  apply registerMatches_sameInput.
Qed.

Lemma sameInput_gtLabels (s s' : State) :
  sameInput s s' -> getGroundTruthLabels s' = getGroundTruthLabels s.
Proof. now intros (_ & H & _). Qed.

Lemma sameInput_recLabels (s s' : State) :
  sameInput s s' -> getReconstructionLabels s' = getReconstructionLabels s.
Proof. now intros (_ & _ & H & _). Qed.

Lemma introduceIndicators_frame (s : State) :
  introduceIndicators (mkFrame s [] binaryByDefault 0) = frame1 s.
Proof. rewrite introduceIndicators_eq. reflexivity. Qed.

Lemma keepLabels_frame (s : State) : keepLabels (frame1 s) = frame2 s.
Proof.
  rewrite keepLabels_eq. unfold frame1, frame2, survivalSection. cbn [self
    constraints parameters var].
  now rewrite (sameInput_recLabels _ _ (afterIndicators_sameInput s)).
Qed.

Lemma introduceMatches_frame (s : State) :
  introduceMatches (frame2 s) = frame3 s.
Proof.
  rewrite introduceMatches_eq. unfold frame2, frame3, afterMatches, splitBegin.
  cbn [self constraints parameters var].
  now rewrite (sameInput_possibleMatches _ _ (afterIndicators_sameInput s)).
Qed.

Lemma activateMatches_frame (s : State) :
  activateMatches (frame3 s) = frame4 s.
Proof.
  rewrite activateMatches_eq. unfold frame3, frame4, activationSection.
  cbn [self constraints parameters var].
  rewrite (sameInput_possibleMatches _ _ (afterMatches_sameInput s)).
  now rewrite <- app_assoc.
Qed.

Lemma markIntegers_app (v1 v2 : list Z) (p : LinearSolverParameters) :
  markIntegers (v1 ++ v2) p = markIntegers v2 (markIntegers v1 p).
Proof. unfold markIntegers. apply fold_left_app. Qed.

Lemma introduceSplits_frame (s : State) :
  introduceTotal (splitBegin s) (introduceSplits (frame4 s)) = frame6 s.
Proof.
  rewrite introduceSplits_eq. unfold frame4, frame6, splitSection.
  cbn [self constraints parameters var].
  rewrite (sameInput_gtLabels _ _ (afterMatches_sameInput s)).
  unfold introduceTotal, addConstraint, markInteger, nextVar.
  cbn [self constraints parameters var].
  rewrite map_fst_numbered, markIntegers_app.
  unfold totalSplits, mergeBegin, totalSplits.
  f_equal. now rewrite <- !app_assoc.
Qed.

Lemma introduceMerges_frame (s : State) :
  introduceTotal (mergeBegin s) (introduceMerges (frame6 s)) = frame8 s.
Proof.
  rewrite introduceMerges_eq. unfold frame6, frame8, mergeSection.
  cbn [self constraints parameters var].
  rewrite (sameInput_recLabels _ _ (afterMatches_sameInput s)).
  unfold introduceTotal, addConstraint, markInteger, nextVar.
  cbn [self constraints parameters var].
  rewrite map_fst_numbered. unfold integerVariables.
  rewrite !markIntegers_app.
  unfold totalMerges.
  f_equal. now rewrite <- !app_assoc.
Qed.

(** [findBestCellLabels] in closed form. *)
Lemma findBestCellLabels_eq (s : State) :
  findBestCellLabels s
  = mkProgram
      (setSense Minimize
         (setObjectiveCoefficient (totalMerges s) 1
            (setObjectiveCoefficient (totalSplits s) 1
               (newLinearObjective (totalMerges s + 1)))))
      (coverageSection s ++ survivalSection s ++ activationSection s
       ++ splitSection s ++ mergeSection s)
      (markIntegers (integerVariables s) binaryByDefault)
      (totalMerges s + 1) (totalSplits s) (totalMerges s) (afterMatches s).
Proof.
  unfold findBestCellLabels. cbv zeta.
  change (setDefaultVariableType Binary newLinearSolverParameters)
    with binaryByDefault.
  rewrite introduceIndicators_frame, keepLabels_frame, introduceMatches_frame,
    activateMatches_frame.
  change (var (frame4 s)) with (splitBegin s).
  rewrite introduceSplits_frame.
  change (var (frame6 s)) with (mergeBegin s).
  rewrite introduceMerges_frame.
  rewrite introduceSplits_eq, introduceMerges_eq.
  cbn [self constraints parameters var frame4 frame6 frame8].
  rewrite (sameInput_gtLabels _ _ (afterMatches_sameInput s)).
  rewrite (sameInput_recLabels _ _ (afterMatches_sameInput s)).
  reflexivity.
Qed.

(** ** What the registries hold after the allocation loops *)

Lemma getIndicatorsByRec_assign (v g l r : Z) (s : State) :
  getIndicatorsByRec r (assignIndicatorVariable v g l s)
  = getIndicatorsByRec r s ++ (if l =? r then [v] else []).
Proof.
  unfold getIndicatorsByRec, assignIndicatorVariable; cbn.
  destruct (l =? r) eqn:Heq.
  - apply Z.eqb_eq in Heq. subst l. now rewrite at_update_eq.
  - apply Z.eqb_neq in Heq. rewrite at_update_ne by congruence.
    now rewrite app_nil_r.
Qed.

Lemma getIndicatorsGtToRec_assign (v g' l g r : Z) (s : State) :
  getIndicatorsGtToRec g r (assignIndicatorVariable v g' l s)
  = getIndicatorsGtToRec g r s
    ++ (if (g' =? g) && (l =? r) then [v] else []).
Proof.
  unfold getIndicatorsGtToRec, assignIndicatorVariable; cbn.
  destruct (g' =? g) eqn:Hg.
  - apply Z.eqb_eq in Hg. subst g'. rewrite at_update_eq.
    destruct (l =? r) eqn:Hl; cbn.
    + apply Z.eqb_eq in Hl. subst l. now rewrite at_update_eq.
    + apply Z.eqb_neq in Hl. rewrite at_update_ne by congruence.
      now rewrite app_nil_r.
  - apply Z.eqb_neq in Hg. rewrite at_update_ne by congruence.
    cbn. now rewrite app_nil_r.
Qed.

Lemma getIndicatorsByRec_register (table : list (Z * (Z * Z))) (r : Z)
  (s : State) :
  getIndicatorsByRec r (registerIndicators table s)
  = getIndicatorsByRec r s
    ++ map fst (filter (fun e => snd (snd e) =? r) table).
Proof.
  unfold registerIndicators. revert s.
  induction table as [|e table IH]; intros s; cbn [fold_left filter].
  - cbn. now rewrite app_nil_r.
  - rewrite IH, getIndicatorsByRec_assign, <- app_assoc. f_equal.
    destruct (snd (snd e) =? r); reflexivity.
Qed.

Lemma getIndicatorsGtToRec_register (table : list (Z * (Z * Z))) (g r : Z)
  (s : State) :
  getIndicatorsGtToRec g r (registerIndicators table s)
  = getIndicatorsGtToRec g r s
    ++ map fst (filter (fun e => (fst (snd e) =? g) && (snd (snd e) =? r))
                       table).
Proof.
  unfold registerIndicators. revert s.
  induction table as [|e table IH]; intros s; cbn [fold_left filter].
  - cbn. now rewrite app_nil_r.
  - rewrite IH, getIndicatorsGtToRec_assign, <- app_assoc. f_equal.
    destruct ((fst (snd e) =? g) && (snd (snd e) =? r)); reflexivity.
Qed.

Lemma registerMatches_indicators (table : list (Z * (Z * Z))) (s : State) :
  _indicatorVarsByRecLabel (registerMatches table s)
  = _indicatorVarsByRecLabel s
  /\ _indicatorVarsByGtToRecLabel (registerMatches table s)
     = _indicatorVarsByGtToRecLabel s.
Proof.
  unfold registerMatches. revert s.
  induction table as [|e table IH]; intros s; cbn [fold_left].
  - split; reflexivity.
  - destruct (IH (assignMatchVariable (fst e) (fst (snd e)) (snd (snd e)) s))
      as [H1 H2].
    rewrite H1, H2. split; reflexivity.
Qed.

Lemma getMatchVariable_assign_eq (v g r : Z) (s : State) :
  getMatchVariable g r (assignMatchVariable v g r s) = v.
Proof.
  unfold getMatchVariable, assignMatchVariable; cbn.
  now rewrite !at_update_eq.
Qed.

Lemma getMatchVariable_assign_ne (v g' r' g r : Z) (s : State) :
  (g', r') <> (g, r) ->
  getMatchVariable g r (assignMatchVariable v g' r' s)
  = getMatchVariable g r s.
Proof.
  intros Hne. unfold getMatchVariable, assignMatchVariable; cbn.
  destruct (Z.eq_dec g g') as [->|Hg].
  - rewrite at_update_eq. rewrite at_update_ne; [reflexivity|].
    intros ->. now apply Hne.
  - now rewrite at_update_ne.
Qed.

Lemma getMatchVariable_register_other (table : list (Z * (Z * Z))) (g r : Z)
  (s : State) :
  ~ In (g, r) (map snd table) ->
  getMatchVariable g r (registerMatches table s) = getMatchVariable g r s.
Proof.
  unfold registerMatches. revert s.
  induction table as [|e table IH]; intros s Hn; cbn [fold_left].
  - reflexivity.
  - rewrite IH.
    + apply getMatchVariable_assign_ne. intros Heq. apply Hn. left.
      destruct e as [v [g' r']]. exact Heq.
    + intros H. apply Hn. now right.
Qed.

(** With pairwise different pairs, each pair reads back its own variable. *)
Lemma getMatchVariable_register (table : list (Z * (Z * Z))) (v g r : Z)
  (s : State) :
  NoDup (map snd table) -> In (v, (g, r)) table ->
  getMatchVariable g r (registerMatches table s) = v.
Proof.
  revert s. induction table as [|e table IH]; intros s Hnd Hin.
  - destruct Hin.
  - inversion Hnd as [|? ? Hnotin Hnd']; subst.
    destruct Hin as [-> | Hin].
    + unfold registerMatches; cbn [fold_left fst snd].
      fold (registerMatches table (assignMatchVariable v g r s)).
      rewrite getMatchVariable_register_other by exact Hnotin.
      apply getMatchVariable_assign_eq.
    + unfold registerMatches; cbn [fold_left].
      apply IH; assumption.
Qed.

(** Positions in duplicate-free lists. *)
Lemma In_numbered_position {A} (eqb : A -> A -> bool) (b : Z) (l : list A)
  (a : A) :
  (forall x y, eqb x y = true <-> x = y) ->
  In a l ->
  In (b + Z.of_nat (position (eqb a) l), a) (numbered b l).
Proof.
  intros Heqb. revert b. induction l as [|x l IH]; intros b Hin; [destruct Hin|].
  cbn [position numbered].
  destruct (eqb a x) eqn:Hax.
  - apply Heqb in Hax. subst. left. f_equal. lia.
  - right. destruct Hin as [-> | Hin].
    + assert (H : eqb a a = true) by now apply Heqb. congruence.
    + specialize (IH (b + 1) Hin).
      replace (b + Z.of_nat (S (position (eqb a) l)))
        with (b + 1 + Z.of_nat (position (eqb a) l)) by lia.
      exact IH.
Qed.

Lemma position_lt {A} (p : A -> bool) (l : list A) :
  (exists a, In a l /\ p a = true) -> (position p l < length l)%nat.
Proof.
  induction l as [|x l IH]; intros [a [Hin Hp]]; [destruct Hin|].
  cbn. destruct (p x) eqn:Hx; [lia|].
  destruct Hin as [-> | Hin]; [congruence|].
  apply -> Nat.succ_lt_mono. apply IH. now exists a.
Qed.

Lemma position_inj {A} (eqb : A -> A -> bool) (l : list A) (a a' : A) :
  (forall x y, eqb x y = true <-> x = y) ->
  In a l -> In a' l ->
  position (eqb a) l = position (eqb a') l -> a = a'.
Proof.
  intros Heqb. induction l as [|x l IH]; intros Ha Ha' Hp; [destruct Ha|].
  cbn in Hp.
  destruct (eqb a x) eqn:E1; destruct (eqb a' x) eqn:E2; try discriminate.
  - apply Heqb in E1, E2. congruence.
  - injection Hp as Hp.
    destruct Ha as [-> | Ha].
    + assert (H : eqb a a = true) by now apply Heqb. congruence.
    + destruct Ha' as [-> | Ha'].
      * assert (H : eqb a' a' = true) by now apply Heqb. congruence.
      * now apply IH.
Qed.

Lemma pair_eqb_spec (x y : Z * Z) : pair_eqb x y = true <-> x = y.
Proof.
  unfold pair_eqb. destruct x as [a b], y as [c d]; cbn.
  rewrite andb_true_iff, !Z.eqb_eq. split.
  - intros [-> ->]. reflexivity.
  - intros H. injection H as -> ->. split; reflexivity.
Qed.

Lemma map_position_range (b : Z) (l : list Z) :
  NoDup l ->
  map (fun x => b + Z.of_nat (position (Z.eqb x) l)) l
  = range b (b + Z.of_nat (length l)).
Proof.
  intros Hnd. rewrite <- (map_fst_numbered b l).
  revert b. induction Hnd as [|x l Hx Hnd IH]; intros b; [reflexivity|].
  cbn [map position numbered fst]. rewrite Z.eqb_refl. f_equal; [cbn; lia|].
  rewrite <- IH. apply map_ext_in. intros y Hy.
  destruct (y =? x) eqn:Hyx.
  - apply Z.eqb_eq in Hyx. subst. contradiction.
  - lia.
Qed.

(** ** The layout of the variables *)

Lemma numIndicators_nonneg (s : State) : 0 <= numIndicators s.
Proof. unfold numIndicators. lia. Qed.

Lemma filter_numbered_bounds {A} (p : Z * A -> bool) (b : Z) (l : list A)
  (v : Z) :
  In v (map fst (filter p (numbered b l))) ->
  b <= v < b + Z.of_nat (length l).
Proof.
  rewrite in_map_iff. intros [[v' a] [<- Hin]].
  apply filter_In in Hin. destruct Hin as [Hin _].
  now apply In_numbered in Hin.
Qed.

Lemma filter_numbered_NoDup {A} (p : Z * A -> bool) (b : Z) (l : list A) :
  NoDup (map fst (filter p (numbered b l))).
Proof.
  revert b. induction l as [|a l IH]; intros b; cbn [numbered filter].
  - constructor.
  - destruct (p (b, a)); [|apply IH].
    cbn [map fst]. constructor; [|apply IH].
    intros Hin. apply filter_numbered_bounds in Hin. lia.
Qed.

Lemma indicatorsWithLabel_bounds (s : State) (r v : Z) :
  In v (indicatorsWithLabel s r) -> 0 <= v < numIndicators s.
Proof. intros H. now apply filter_numbered_bounds in H. Qed.

Lemma indicatorsWithLabel_NoDup (s : State) (r : Z) :
  NoDup (indicatorsWithLabel s r).
Proof. apply filter_numbered_NoDup. Qed.

Lemma indicatorsGtToRec_bounds (s : State) (g r v : Z) :
  In v (indicatorsGtToRec s g r) -> 0 <= v < numIndicators s.
Proof. intros H. now apply filter_numbered_bounds in H. Qed.

Lemma indicatorsGtToRec_NoDup (s : State) (g r : Z) :
  NoDup (indicatorsGtToRec s g r).
Proof. apply filter_numbered_NoDup. Qed.

(** On an object whose registries are empty the loops read back exactly the
    indicators of the current run. *)
Lemma getIndicatorsByRec_fresh (s : State) (r : Z) :
  _indicatorVarsByRecLabel s = OrdMap.empty ->
  getIndicatorsByRec r (afterIndicators s) = indicatorsWithLabel s r.
Proof.
  intros Hfresh. unfold afterIndicators.
  rewrite getIndicatorsByRec_register.
  unfold getIndicatorsByRec at 1. rewrite Hfresh. reflexivity.
Qed.

Lemma getIndicatorsGtToRec_fresh (s : State) (g r : Z) :
  _indicatorVarsByGtToRecLabel s = OrdMap.empty ->
  getIndicatorsGtToRec g r (afterMatches s) = indicatorsGtToRec s g r.
Proof.
  intros Hfresh. unfold afterMatches, getIndicatorsGtToRec at 1.
  destruct (registerMatches_indicators
              (numbered (numIndicators s) (possibleMatches s))
              (afterIndicators s)) as [_ H].
  rewrite H. fold (getIndicatorsGtToRec g r (afterIndicators s)).
  unfold afterIndicators. rewrite getIndicatorsGtToRec_register.
  unfold getIndicatorsGtToRec at 1. rewrite Hfresh. reflexivity.
Qed.

Lemma In_possibleMatches (s : State) (g r : Z) :
  In (g, r) (possibleMatches s)
  <-> In g (OrdSet.elements (getGroundTruthLabels s))
      /\ In r (OrdSet.elements (getPossibleMatchesByGt g s)).
Proof.
  unfold possibleMatches. rewrite in_flat_map. split.
  - intros [g' [Hg Hin]]. apply in_map_iff in Hin.
    destruct Hin as [r' [Heq Hr]]. injection Heq as -> ->. now split.
  - intros [Hg Hr]. exists g. split; [exact Hg|].
    apply in_map_iff. now exists r.
Qed.

Lemma NoDup_pairs (h : Z -> list Z) (labels : list Z) :
  NoDup labels -> (forall g, NoDup (h g)) ->
  NoDup (flat_map (fun g => map (pair g) (h g)) labels).
Proof.
  intros Hl Hh. induction Hl as [|g labels Hg Hl IH]; cbn [flat_map].
  - constructor.
  - apply NoDup_app.
    + apply Injective_map_NoDup; [|apply Hh].
      intros a b H. now injection H.
    + exact IH.
    + intros [g' r'] H1 H2. apply in_map_iff in H1.
      destruct H1 as [r'' [Heq _]]. injection Heq as <- <-.
      apply in_flat_map in H2. destruct H2 as [g'' [Hg'' Hin]].
      apply in_map_iff in Hin. destruct Hin as [r3 [Heq _]].
      injection Heq as -> _. contradiction.
Qed.

Lemma possibleMatches_NoDup (s : State) :
  matchSetsWf s -> NoDup (possibleMatches s).
Proof.
  intros [Hg Hpm]. apply NoDup_pairs.
  - now apply wf_NoDup.
  - intros g. apply wf_NoDup, Hpm.
Qed.

Lemma matchVariable_bounds (s : State) (g r : Z) :
  In (g, r) (possibleMatches s) ->
  numIndicators s <= matchVariable s g r < splitBegin s.
Proof.
  intros Hin. unfold matchVariable, splitBegin.
  assert (position (pair_eqb (g, r)) (possibleMatches s)
          < length (possibleMatches s))%nat.
  { apply position_lt. exists (g, r). split; [exact Hin|].
    now apply pair_eqb_spec. }
  lia.
Qed.

Lemma matchVariable_inj (s : State) (g r g' r' : Z) :
  In (g, r) (possibleMatches s) -> In (g', r') (possibleMatches s) ->
  matchVariable s g r = matchVariable s g' r' -> (g, r) = (g', r').
Proof.
  intros H1 H2 Heq. unfold matchVariable in Heq.
  apply (position_inj pair_eqb (possibleMatches s));
    [apply pair_eqb_spec | assumption | assumption | lia].
Qed.

Lemma getMatchVariable_afterMatches (s : State) (g r : Z) :
  NoDup (possibleMatches s) -> In (g, r) (possibleMatches s) ->
  getMatchVariable g r (afterMatches s) = matchVariable s g r.
Proof.
  intros Hnd Hin. unfold afterMatches.
  apply getMatchVariable_register.
  - now rewrite map_snd_numbered.
  - unfold matchVariable.
    apply (In_numbered_position pair_eqb); [apply pair_eqb_spec | exact Hin].
Qed.

(** ** The indicator table, cell by cell *)

Lemma In_numbered_nth {A} (b : Z) (l : list A) (v : Z) (a : A) :
  In (v, a) (numbered b l)
  <-> exists k, nth_error l k = Some a /\ v = b + Z.of_nat k.
Proof.
  revert b. induction l as [|x l IH]; intros b; cbn [numbered].
  - split; [intros [] | intros [[|k] [H _]]; discriminate H].
  - cbn [In]. rewrite IH. split.
    + intros [H | [k [Hk Hv]]].
      * injection H as <- <-. exists 0%nat. split; [reflexivity | lia].
      * exists (S k). split; [exact Hk | lia].
    + intros [[|k] [Hk Hv]].
      * left. cbn in Hk. injection Hk as <-. f_equal. lia.
      * right. exists k. split; [exact Hk | lia].
Qed.

Lemma In_numbered_flat_map {A B} (F : A -> list B) (b : Z) (cells : list A)
  (v : Z) (x : B) :
  In (v, x) (numbered b (flat_map F cells))
  <-> exists i c k,
        nth_error cells i = Some c /\ nth_error (F c) k = Some x
        /\ v = b + Z.of_nat (length (flat_map F (firstn i cells)))
               + Z.of_nat k.
Proof.
  revert b. induction cells as [|c cells IH]; intros b.
  - cbn. split; [intros [] | intros [[|i] [c [k [H _]]]]; discriminate H].
  - cbn [flat_map]. rewrite numbered_app, in_app_iff, In_numbered_nth, IH.
    split.
    + intros [[k [Hk Hv]] | [i [c' [k [Hi [Hk Hv]]]]]].
      * exists 0%nat, c, k. cbn. repeat split; [exact Hk | lia].
      * exists (S i), c', k. cbn [nth_error firstn flat_map].
        rewrite length_app. repeat split; [exact Hi | exact Hk | lia].
    + intros [[|i] [c' [k [Hi [Hk Hv]]]]].
      * left. cbn in Hi. injection Hi as <-. exists k. cbn in Hv.
        split; [exact Hk | lia].
      * right. exists i, c', k. cbn [nth_error firstn flat_map] in *.
        rewrite length_app in Hv. repeat split; [exact Hi | exact Hk | lia].
Qed.

(** Variable [v] is an indicator with labels [(g, l)] exactly when it is the
    [k]-th variable of the block of a cell with ground-truth label [g] whose
    [k]-th assignable label is [l]. *)
Lemma In_indicatorTable (s : State) (v g l : Z) :
  In (v, (g, l)) (indicatorTable s)
  <-> exists i c k,
        nth_error (cellsInOrder s) i = Some c
        /\ nth_error (cellLabels c) k = Some l
        /\ g = getGroundTruthLabel c
        /\ v = blockBegin s i + Z.of_nat k.
Proof.
  unfold indicatorTable, indicatorLabels, blockBegin, indicatorLabels.
  rewrite In_numbered_flat_map. split.
  - intros [i [c [k [Hi [Hk Hv]]]]]. exists i, c, k.
    rewrite nth_error_map in Hk.
    destruct (nth_error (cellLabels c) k) as [l'|]; [|discriminate Hk].
    cbn in Hk. injection Hk as <- <-. repeat split; [exact Hi | lia].
  - intros [i [c [k [Hi [Hk [-> Hv]]]]]]. exists i, c, k.
    rewrite nth_error_map, Hk. repeat split; [exact Hi | lia].
Qed.

Lemma In_indicatorsWithLabel (s : State) (r v : Z) :
  In v (indicatorsWithLabel s r)
  <-> exists i c k,
        nth_error (cellsInOrder s) i = Some c
        /\ nth_error (cellLabels c) k = Some r
        /\ v = blockBegin s i + Z.of_nat k.
Proof.
  unfold indicatorsWithLabel. rewrite in_map_iff. split.
  - intros [[v' [g l]] [Hv Hin]]. cbn in Hv. subst v'.
    apply filter_In in Hin. destruct Hin as [Hin Hl]. cbn in Hl.
    apply Z.eqb_eq in Hl. subst l. apply In_indicatorTable in Hin.
    destruct Hin as [i [c [k [Hi [Hk [_ Hv]]]]]]. now exists i, c, k.
  - intros [i [c [k [Hi [Hk Hv]]]]].
    exists (v, (getGroundTruthLabel c, r)). split; [reflexivity|].
    apply filter_In. split; [|cbn; apply Z.eqb_refl].
    apply In_indicatorTable. now exists i, c, k.
Qed.

Lemma In_indicatorsGtToRec (s : State) (g r v : Z) :
  In v (indicatorsGtToRec s g r)
  <-> exists i c k,
        nth_error (cellsInOrder s) i = Some c
        /\ nth_error (cellLabels c) k = Some r
        /\ getGroundTruthLabel c = g
        /\ v = blockBegin s i + Z.of_nat k.
Proof.
  unfold indicatorsGtToRec. rewrite in_map_iff. split.
  - intros [[v' [g' l]] [Hv Hin]]. cbn in Hv. subst v'.
    apply filter_In in Hin. destruct Hin as [Hin Hl]. cbn in Hl.
    apply andb_true_iff in Hl. destruct Hl as [Hg Hl].
    apply Z.eqb_eq in Hl, Hg. subst l g'. apply In_indicatorTable in Hin.
    destruct Hin as [i [c [k [Hi [Hk [Hg Hv]]]]]]. now exists i, c, k.
  - intros [i [c [k [Hi [Hk [Hg Hv]]]]]].
    exists (v, (g, r)). split; [reflexivity|].
    apply filter_In. split; [|cbn; now rewrite !Z.eqb_refl].
    apply In_indicatorTable. exists i, c, k. now repeat split.
Qed.

(** ** Relation and right-hand side, section by section *)

Lemma coverageConstraints_length (b : Z) (cells : list Cell) :
  length (coverageConstraints b cells) = length cells.
Proof.
  revert b. induction cells as [|c cells IH]; intros b; cbn;
    [reflexivity | now rewrite IH].
Qed.

Lemma coverageConstraints_nth (b : Z) (cells : list Cell) (i : nat) (c : Cell) :
  nth_error cells i = Some c ->
  nth_error (coverageConstraints b cells) i
  = Some (coverageConstraint
            (b + Z.of_nat (length (indicatorLabels (firstn i cells))))
            (b + Z.of_nat (length (indicatorLabels (firstn i cells)))
             + Z.of_nat (length (cellLabels c)))).
Proof.
  revert b i. induction cells as [|c' cells IH]; intros b [|i] Hi;
    try discriminate Hi.
  - cbn in Hi. injection Hi as ->. cbn. now rewrite Z.add_0_r.
  - cbn [nth_error coverageConstraints firstn] in *.
    rewrite (IH _ _ Hi), indicatorLabels_cons, length_app, length_map.
    do 2 f_equal; lia.
Qed.

Lemma coverageSection_kind (s : State) :
  Forall (fun c => kind c = (Equal, 1)) (coverageSection s).
Proof.
  unfold coverageSection. generalize 0 as b.
  induction (cellsInOrder s) as [|c cells IH]; intros b; cbn;
    constructor; [reflexivity | apply IH].
Qed.

Lemma survivalSection_kind (s : State) :
  Forall (fun c => kind c = (GreaterEqual, 1)) (survivalSection s).
Proof.
  unfold survivalSection. apply Forall_forall. intros c Hc.
  apply in_map_iff in Hc. destruct Hc as [r [<- _]]. reflexivity.
Qed.

Lemma activationSection_kind (s : State) :
  Forall (fun c => kind c = (GreaterEqual, 0)) (activationSection s).
Proof.
  unfold activationSection. apply Forall_forall. intros c Hc.
  apply in_flat_map in Hc. destruct Hc as [gr [_ Hc]].
  unfold activationConstraints in Hc. apply in_app_iff in Hc.
  destruct Hc as [Hc | [<- | []]]; [|reflexivity].
  apply in_map_iff in Hc. destruct Hc as [v [<- _]]. reflexivity.
Qed.

Lemma counterConstraints_kind (h : State -> Z -> list Z) (s : State)
  (table : list (Z * Z)) :
  Forall (fun c => kind c = (GreaterEqual, 0) \/ kind c = (Equal, -1))
         (flat_map (counterConstraints h s) table).
Proof.
  apply Forall_forall. intros c Hc.
  apply in_flat_map in Hc. destruct Hc as [e [_ Hc]].
  destruct Hc as [<- | [<- | []]]; [left | right]; reflexivity.
Qed.

Lemma splitSection_kind (s : State) :
  Forall (fun c => kind c = (GreaterEqual, 0) \/ kind c = (Equal, -1)
                   \/ kind c = (Equal, 0))
         (splitSection s).
Proof.
  unfold splitSection. apply Forall_app. split.
  - eapply Forall_impl; [|apply counterConstraints_kind]. cbn. tauto.
  - constructor; [|constructor]. right; right; reflexivity.
Qed.

Lemma mergeSection_kind (s : State) :
  Forall (fun c => kind c = (GreaterEqual, 0) \/ kind c = (Equal, -1)
                   \/ kind c = (Equal, 0))
         (mergeSection s).
Proof.
  unfold mergeSection. apply Forall_app. split.
  - eapply Forall_impl; [|apply counterConstraints_kind]. cbn. tauto.
  - constructor; [|constructor]. right; right; reflexivity.
Qed.

Lemma nth_error_app_cases {A} (l1 l2 : list A) (k : nat) (a : A) :
  nth_error (l1 ++ l2) k = Some a ->
  ((k < length l1)%nat /\ nth_error l1 k = Some a)
  \/ ((length l1 <= k)%nat /\ nth_error l2 (k - length l1) = Some a).
Proof.
  intros H. destruct (Nat.lt_ge_cases k (length l1)) as [Hlt | Hge].
  - left. split; [exact Hlt|]. now rewrite nth_error_app1 in H.
  - right. split; [exact Hge|]. now rewrite nth_error_app2 in H by exact Hge.
Qed.

(** ** Variable types *)

Lemma getVariableType_setVariableType (x : Z) (t : VariableType)
  (p : LinearSolverParameters) (v : Z) :
  getVariableType (setVariableType x t p) v
  = if v =? x then t else getVariableType p v.
Proof.
  unfold getVariableType, setVariableType; cbn.
  destruct (v =? x) eqn:Heq.
  - apply Z.eqb_eq in Heq. subst. unfold OrdMap.at_.
    now rewrite find_update_eq.
  - apply Z.eqb_neq in Heq. now rewrite at_update_ne.
Qed.

Lemma getVariableType_markIntegers (vs : list Z) (p : LinearSolverParameters)
  (v : Z) :
  ~ In v vs -> getVariableType (markIntegers vs p) v = getVariableType p v.
Proof.
  unfold markIntegers. revert p.
  induction vs as [|x vs IH]; intros p Hn; cbn [fold_left]; [reflexivity|].
  rewrite IH by (intros H; apply Hn; now right).
  rewrite getVariableType_setVariableType.
  destruct (v =? x) eqn:Heq; [|reflexivity].
  apply Z.eqb_eq in Heq. exfalso. apply Hn. now left.
Qed.

Lemma In_integerVariables (s : State) (v : Z) :
  In v (integerVariables s) -> splitBegin s <= v.
Proof.
  unfold integerVariables. rewrite !in_app_iff, !In_range. cbn [In].
  unfold mergeBegin, totalMerges, mergeBegin, totalSplits. lia.
Qed.

Lemma indicator_is_binary (s : State) (v : Z) :
  v < numIndicators s ->
  getVariableType (solverParameters (findBestCellLabels s)) v = Binary.
Proof.
  intros Hv. rewrite findBestCellLabels_eq. cbn [solverParameters].
  rewrite getVariableType_markIntegers; [reflexivity|].
  intros Hin. apply In_integerVariables in Hin. unfold splitBegin in Hin. lia.
Qed.

(** ** Blocks of indicators *)

Lemma firstn_S_nth {A} (l : list A) (i : nat) (a : A) :
  nth_error l i = Some a -> firstn (S i) l = firstn i l ++ [a].
Proof.
  revert i. induction l as [|x l IH]; intros [|i] H; try discriminate H.
  - cbn in H. injection H as ->. reflexivity.
  - cbn [firstn nth_error] in *. rewrite (IH _ H). reflexivity.
Qed.

Lemma blockBegin_S (s : State) (i : nat) (c : Cell) :
  nth_error (cellsInOrder s) i = Some c ->
  blockBegin s (S i) = blockBegin s i + Z.of_nat (length (cellLabels c)).
Proof.
  intros H. unfold blockBegin. rewrite (firstn_S_nth _ _ _ H).
  rewrite indicatorLabels_app, length_app. cbn.
  rewrite app_nil_r, length_map. cbn. lia.
Qed.

Lemma blockBegin_le (s : State) (i : nat) : blockBegin s i <= numIndicators s.
Proof.
  unfold blockBegin, numIndicators.
  rewrite <- (firstn_skipn i (cellsInOrder s)) at 2.
  rewrite indicatorLabels_app, length_app. lia.
Qed.

Lemma getIndicatorsByRec_afterMatches (s : State) (r : Z) :
  getIndicatorsByRec r (afterMatches s)
  = getIndicatorsByRec r s ++ indicatorsWithLabel s r.
Proof.
  unfold afterMatches, getIndicatorsByRec at 1.
  destruct (registerMatches_indicators
              (numbered (numIndicators s) (possibleMatches s))
              (afterIndicators s)) as [H _].
  rewrite H. fold (getIndicatorsByRec r (afterIndicators s)).
  unfold afterIndicators. apply getIndicatorsByRec_register.
Qed.

Lemma getIndicatorsGtToRec_afterMatches (s : State) (g r : Z) :
  getIndicatorsGtToRec g r (afterMatches s)
  = getIndicatorsGtToRec g r s ++ indicatorsGtToRec s g r.
Proof.
  unfold afterMatches, getIndicatorsGtToRec at 1.
  destruct (registerMatches_indicators
              (numbered (numIndicators s) (possibleMatches s))
              (afterIndicators s)) as [_ H].
  rewrite H. fold (getIndicatorsGtToRec g r (afterIndicators s)).
  unfold afterIndicators. apply getIndicatorsGtToRec_register.
Qed.

(** C5.  For the [i]-th cell [c] that the builder reaches, the variables
    [b .. b+n-1] with [n = 1 + |alternativeLabels c|] form the block of [c]
    (the next block starts at [b + n]): the [k]-th of them is registered as
    assigning the [k]-th label of [c] (its own label first, then its
    alternatives) to a cell of [c]'s ground-truth label, and all of them are
    binary.  The [i]-th constraint emitted states that the variables of this
    block sum to 1, and the constraints of the form [... = 1] are exactly
    these, one per cell. *)
Theorem indicators_cover_each_cell (s : State) (i : nat) (c : Cell) :
  nth_error (cellsInOrder s) i = Some c ->
  let p := findBestCellLabels s in
  let b := blockBegin s i in
  let n := 1 + Z.of_nat (OrdSet.size (getAlternativeLabels c)) in
  blockBegin s (S i) = b + n
  /\ (forall k l,
        nth_error (cellLabels c) k = Some l ->
        In (b + Z.of_nat k) (getIndicatorsByRec l (after p))
        /\ In (b + Z.of_nat k)
              (getIndicatorsGtToRec (getGroundTruthLabel c) l (after p)))
  /\ (forall v, b <= v < b + n ->
        getVariableType (solverParameters p) v = Binary)
  /\ (exists cstr,
        nth_error (linearConstraints p) i = Some cstr
        /\ states cstr (map (pair 1) (range b (b + n))) Equal 1)
  /\ (forall k cstr,
        nth_error (linearConstraints p) k = Some cstr ->
        kind cstr = (Equal, 1) -> (k < length (cellsInOrder s))%nat).
Proof.
  intros Hc p b n.
  assert (Hn : Z.of_nat (length (cellLabels c)) = n).
  { unfold n, cellLabels, OrdSet.size, OrdSet.elements. cbn [length]. lia. }
  assert (HS : blockBegin s (S i) = b + n).
  { rewrite (blockBegin_S _ _ _ Hc), Hn. reflexivity. }
  split; [exact HS|].
  assert (Hp : p = findBestCellLabels s) by reflexivity.
  rewrite findBestCellLabels_eq in Hp.
  split; [|split; [|split]].
  - intros k l Hk. rewrite Hp. cbn [after].
    rewrite getIndicatorsByRec_afterMatches, getIndicatorsGtToRec_afterMatches.
    split; apply in_or_app; right.
    + apply In_indicatorsWithLabel. exists i, c, k.
      split; [exact Hc|split; [exact Hk|reflexivity]].
    + apply In_indicatorsGtToRec. exists i, c, k.
      split; [exact Hc|split; [exact Hk|split; reflexivity]].
  - intros v Hv. apply indicator_is_binary.
    pose proof (blockBegin_le s (S i)). lia.
  - exists (coverageConstraint b (b + n)). split.
    + rewrite Hp. cbn [linearConstraints].
      rewrite nth_error_app1
        by (unfold coverageSection; rewrite coverageConstraints_length;
            apply nth_error_Some; congruence).
      unfold coverageSection.
      rewrite (coverageConstraints_nth 0 _ _ _ Hc), Hn.
      reflexivity.
    + apply coverageConstraint_states.
  - intros k cstr Hk Hkind. rewrite Hp in Hk. cbn [linearConstraints] in Hk.
    apply nth_error_app_cases in Hk.
    destruct Hk as [[Hlt _] | [_ Hin]].
    + unfold coverageSection in Hlt.
      now rewrite coverageConstraints_length in Hlt.
    + exfalso. apply nth_error_In in Hin. rewrite !in_app_iff in Hin.
      pose proof (survivalSection_kind s) as K1.
      pose proof (activationSection_kind s) as K2.
      pose proof (splitSection_kind s) as K3.
      pose proof (mergeSection_kind s) as K4.
      rewrite Forall_forall in K1, K2, K3, K4.
      destruct Hin as [H | [H | [H | H]]].
      * apply K1 in H. congruence.
      * apply K2 in H. congruence.
      * apply K3 in H. destruct H as [H | [H | H]]; congruence.
      * apply K4 in H. destruct H as [H | [H | H]]; congruence.
Qed.

Lemma survivalSection_length (s : State) :
  length (survivalSection s)
  = length (OrdSet.elements (getReconstructionLabels s)).
Proof. unfold survivalSection. apply length_map. Qed.

(** On an object whose label registry is empty on entry (as on a newly
    constructed object), the builder emits for the [j]-th reconstruction
    label [r] one constraint, right after the coverage constraints, stating
    that the indicators whose assigned label is [r] sum to at least 1.  These
    indicators are, for every cell the builder reaches and every position
    [k] at which [r] is among the cell's labels (its own label or one of its
    alternatives), the [k]-th variable of the cell's block, and no others.
    The constraints of the form [... >= 1] are exactly these, one per
    reconstruction label. *)
Theorem every_label_keeps_an_indicator (s : State) (j : nat) (r : Z) :
  _indicatorVarsByRecLabel s = OrdMap.empty ->
  nth_error (OrdSet.elements (getReconstructionLabels s)) j = Some r ->
  let p := findBestCellLabels s in
  let cells := cellsInOrder s in
  (exists cstr,
      nth_error (linearConstraints p) (length cells + j) = Some cstr
      /\ states cstr (map (pair 1) (indicatorsWithLabel s r)) GreaterEqual 1)
  /\ (forall v,
        In v (indicatorsWithLabel s r)
        <-> exists i c k,
              nth_error cells i = Some c
              /\ nth_error (cellLabels c) k = Some r
              /\ v = blockBegin s i + Z.of_nat k)
  /\ (forall k cstr,
        nth_error (linearConstraints p) k = Some cstr ->
        kind cstr = (GreaterEqual, 1) ->
        (length cells <= k
         < length cells
           + length (OrdSet.elements (getReconstructionLabels s)))%nat).
Proof.
  intros Hfresh Hj p cells.
  assert (Hp : p = findBestCellLabels s) by reflexivity.
  rewrite findBestCellLabels_eq in Hp.
  assert (Hlen : length (coverageSection s) = length cells).
  { unfold coverageSection. apply coverageConstraints_length. }
  split; [|split].
  - exists (survivalConstraint (indicatorsWithLabel s r)). split.
    + rewrite Hp. cbn [linearConstraints].
      rewrite nth_error_app2 by lia.
      replace (length cells + j - length (coverageSection s))%nat with j
        by lia.
      rewrite nth_error_app1
        by (rewrite survivalSection_length; apply nth_error_Some; congruence).
      unfold survivalSection. rewrite nth_error_map, Hj. cbn.
      now rewrite (getIndicatorsByRec_fresh s r Hfresh).
    + apply survivalConstraint_states, indicatorsWithLabel_NoDup.
  - intros v. apply In_indicatorsWithLabel.
  - intros k cstr Hk Hkind. rewrite Hp in Hk. cbn [linearConstraints] in Hk.
    pose proof (coverageSection_kind s) as K0.
    pose proof (activationSection_kind s) as K2.
    pose proof (splitSection_kind s) as K3.
    pose proof (mergeSection_kind s) as K4.
    rewrite Forall_forall in K0, K2, K3, K4.
    apply nth_error_app_cases in Hk.
    destruct Hk as [[_ Hk] | [Hge Hk]].
    + apply nth_error_In, K0 in Hk. congruence.
    + apply nth_error_app_cases in Hk.
      destruct Hk as [[Hlt _] | [_ Hin]].
      * rewrite survivalSection_length in Hlt. lia.
      * exfalso. apply nth_error_In in Hin. rewrite !in_app_iff in Hin.
        destruct Hin as [H | [H | H]].
        -- apply K2 in H. congruence.
        -- apply K3 in H. destruct H as [H | [H | H]]; congruence.
        -- apply K4 in H. destruct H as [H | [H | H]]; congruence.
Qed.

(** ** Match activation *)

Lemma filter_none {A} (f : A -> bool) (l : list A) :
  Forall (fun a => f a = false) l -> filter f l = [].
Proof.
  induction 1 as [|a l Ha _ IH]; cbn; [reflexivity | now rewrite Ha].
Qed.

Lemma filter_all {A} (f : A -> bool) (l : list A) :
  Forall (fun a => f a = true) l -> filter f l = l.
Proof.
  induction 1 as [|a l Ha _ IH]; cbn; [reflexivity | now rewrite Ha, IH].
Qed.

Lemma filter_flat_map_unique {A B} (f : B -> bool) (F : A -> list B)
  (l : list A) (a : A) :
  NoDup l -> In a l ->
  (forall x, In x l -> x <> a -> filter f (F x) = []) ->
  filter f (F a) = F a ->
  filter f (flat_map F l) = F a.
Proof.
  intros Hnd Hin Hother Hown.
  induction Hnd as [|x l Hx Hnd IH]; [destruct Hin|].
  cbn [flat_map]. rewrite filter_app.
  destruct Hin as [-> | Hin].
  - rewrite Hown. rewrite (filter_none f (flat_map F l)); [apply app_nil_r|].
    apply Forall_forall. intros b Hb. apply in_flat_map in Hb.
    destruct Hb as [y [Hy Hb]].
    assert (Hya : y <> a) by (intros ->; contradiction).
    specialize (Hother y (or_intror Hy) Hya).
    destruct (f b) eqn:Hfb; [|reflexivity].
    assert (Hin' : In b (filter f (F y))) by (apply filter_In; now split).
    rewrite Hother in Hin'. destruct Hin'.
  - rewrite Hother; [|now left|intros ->; contradiction].
    apply IH; [exact Hin|].
    intros y Hy. apply Hother. now right.
Qed.

Lemma activates_states (m : Z) (c : LinearConstraint) (terms : list (Z * Z)) :
  states c terms GreaterEqual 0 ->
  activates m c = negb (termSum terms m =? 0).
Proof.
  intros (Hr & Hv & Hc). unfold activates. now rewrite Hr, Hv, Hc.
Qed.

Lemma activates_kind (m : Z) (c : LinearConstraint) :
  kind c <> (GreaterEqual, 0) -> activates m c = false.
Proof.
  unfold kind, activates. intros Hk.
  destruct (getRelation c); cbn; try reflexivity.
  destruct (getValue c =? 0) eqn:Hv; [|reflexivity].
  apply Z.eqb_eq in Hv. rewrite Hv in Hk. now contradiction Hk.
Qed.

Lemma termSum_ones_notin (a : Z) (vs : list Z) (m : Z) :
  ~ In m vs -> termSum (map (pair a) vs) m = 0.
Proof. intros H. apply termSum_notin. now rewrite map_snd_pair. Qed.

(** The activation constraints of a pair other than [(g, r)] do not mention
    the match variable of [(g, r)]; those of [(g, r)] all do. *)
Lemma activationConstraints_other (m m' : Z) (vs : list Z) :
  m <> m' -> ~ In m vs -> ~ In m' vs -> NoDup vs ->
  filter (activates m) (activationConstraints m' vs) = [].
Proof.
  intros Hmm Hm Hm' Hnd. apply filter_none, Forall_forall. intros c Hc.
  unfold activationConstraints in Hc. apply in_app_iff in Hc.
  destruct Hc as [Hc | [<- | []]].
  - apply in_map_iff in Hc. destruct Hc as [v [<- Hv]].
    assert (Hvm' : v <> m') by (intros ->; contradiction).
    assert (Hvm : v <> m) by (intros ->; contradiction).
    rewrite (activates_states m _ _ (matchConstraint_states m' v Hvm')).
    rewrite !termSum_cons, termSum_nil; cbn [fst snd].
    destruct (m' =? m) eqn:E1; destruct (v =? m) eqn:E2; try reflexivity; lia.
  - rewrite (activates_states m _ _ (noMatchConstraint_states m' vs Hnd Hm')).
    rewrite termSum_app, termSum_ones_notin by exact Hm.
    rewrite termSum_cons, termSum_nil; cbn [fst snd].
    destruct (m' =? m) eqn:E1; [lia | reflexivity].
Qed.

Lemma activationConstraints_own (m : Z) (vs : list Z) :
  ~ In m vs -> NoDup vs ->
  filter (activates m) (activationConstraints m vs)
  = activationConstraints m vs.
Proof.
  intros Hm Hnd. apply filter_all, Forall_forall. intros c Hc.
  unfold activationConstraints in Hc. apply in_app_iff in Hc.
  destruct Hc as [Hc | [<- | []]].
  - apply in_map_iff in Hc. destruct Hc as [v [<- Hv]].
    assert (Hvm : v <> m) by (intros ->; contradiction).
    rewrite (activates_states m _ _ (matchConstraint_states m v Hvm)).
    rewrite !termSum_cons, termSum_nil; cbn [fst snd].
    rewrite Z.eqb_refl.
    destruct (v =? m) eqn:E2; [lia | reflexivity].
  - rewrite (activates_states m _ _ (noMatchConstraint_states m vs Hnd Hm)).
    rewrite termSum_app, termSum_ones_notin by exact Hm.
    rewrite termSum_cons, termSum_nil; cbn [fst snd].
    now rewrite Z.eqb_refl.
Qed.

Lemma activationConstraints_state (m : Z) (vs : list Z) :
  ~ In m vs -> NoDup vs ->
  Forall2 (fun cstr terms => states cstr terms GreaterEqual 0)
    (activationConstraints m vs)
    (map (fun v => [(1, m); (-1, v)]) vs ++ [map (pair 1) vs ++ [(-1, m)]]).
Proof.
  intros Hm Hnd. unfold activationConstraints. apply Forall2_app.
  - assert (Hall : forall v, In v vs -> v <> m)
      by (intros v Hv ->; contradiction).
    clear Hm Hnd. induction vs as [|v vs IH]; cbn; constructor.
    + apply matchConstraint_states, Hall. now left.
    + apply IH. intros x Hx. apply Hall. now right.
  - constructor; [|constructor]. now apply noMatchConstraint_states.
Qed.

Lemma positive_not_activates (m x : Z) :
  x <> m -> activates m (positive x) = false.
Proof.
  intros Hx. rewrite (activates_states m _ _ (positive_states x)).
  rewrite termSum_cons, termSum_nil; cbn [fst snd].
  destruct (x =? m) eqn:E; [lia | reflexivity].
Qed.

Lemma counters_not_activate (h : State -> Z -> list Z) (s : State) (m b : Z)
  (l : list Z) :
  m < b ->
  filter (activates m) (flat_map (counterConstraints h s) (numbered b l)) = [].
Proof.
  intros Hm. apply filter_none, Forall_forall. intros c Hc.
  apply in_flat_map in Hc. destruct Hc as [[x a] [Hx Hc]].
  apply In_numbered in Hx. destruct Hx as [Hx _].
  destruct Hc as [<- | [<- | []]].
  - apply positive_not_activates. cbn. lia.
  - apply activates_kind. discriminate.
Qed.

Lemma splitBegin_le_totalSplits (s : State) : splitBegin s <= totalSplits s.
Proof. unfold totalSplits. lia. Qed.

Lemma mergeBegin_le_totalMerges (s : State) : mergeBegin s <= totalMerges s.
Proof. unfold totalMerges. lia. Qed.

Lemma numIndicators_le_splitBegin (s : State) : numIndicators s <= splitBegin s.
Proof. unfold splitBegin. lia. Qed.

Lemma flat_map_ext_In {A B} (f g : A -> list B) (l : list A) :
  (forall a, In a l -> f a = g a) -> flat_map f l = flat_map g l.
Proof.
  induction l as [|a l IH]; intros H; cbn; [reflexivity|].
  rewrite (H a) by now left. rewrite IH; [reflexivity|].
  intros x Hx. apply H. now right.
Qed.

(** On a fresh registry the activation section is written with the match
    variables and indicators of the layout. *)
Lemma activationSection_layout (s : State) :
  _indicatorVarsByGtToRecLabel s = OrdMap.empty ->
  matchSetsWf s ->
  activationSection s
  = flat_map (fun gr =>
                activationConstraints (matchVariable s (fst gr) (snd gr))
                                      (indicatorsGtToRec s (fst gr) (snd gr)))
             (possibleMatches s).
Proof.
  intros Hfresh Hwf. unfold activationSection.
  apply flat_map_ext_In. intros [g r] Hin. cbn [fst snd].
  rewrite (getIndicatorsGtToRec_fresh s g r Hfresh).
  rewrite (getMatchVariable_afterMatches s g r
             (possibleMatches_NoDup s Hwf) Hin).
  reflexivity.
Qed.

(** On an object whose (ground truth, label) registry is empty on entry
    and whose label sets satisfy the set invariant, let [(g, r)] be a
    possible match, [m] its match variable and [V] the indicators that
    assign label [r] to a cell of ground-truth label [g].  The builder reads
    back [m] for the pair, and the constraints of the form [... >= 0] in
    which [m] occurs are, in the order of emission, [m - v >= 0] for each
    [v] in [V], followed by [sum of V - m >= 0]; there are no others. *)
Theorem match_activation_constraints (s : State) (g r : Z) :
  _indicatorVarsByGtToRecLabel s = OrdMap.empty ->
  matchSetsWf s ->
  In g (OrdSet.elements (getGroundTruthLabels s)) ->
  In r (OrdSet.elements (getPossibleMatchesByGt g s)) ->
  let p := findBestCellLabels s in
  let m := matchVariable s g r in
  let V := indicatorsGtToRec s g r in
  getMatchVariable g r (after p) = m
  /\ (forall v,
        In v V
        <-> exists i c k,
              nth_error (cellsInOrder s) i = Some c
              /\ nth_error (cellLabels c) k = Some r
              /\ getGroundTruthLabel c = g
              /\ v = blockBegin s i + Z.of_nat k)
  /\ Forall2 (fun cstr terms => states cstr terms GreaterEqual 0)
       (filter (activates m) (linearConstraints p))
       (map (fun v => [(1, m); (-1, v)]) V ++ [map (pair 1) V ++ [(-1, m)]]).
Proof.
  intros Hfresh Hwf Hg Hr p m V.
  assert (Hin : In (g, r) (possibleMatches s))
    by (apply In_possibleMatches; now split).
  pose proof (possibleMatches_NoDup s Hwf) as Hnd.
  pose proof (matchVariable_bounds s g r Hin) as Hm.
  assert (HmV : forall g' r', ~ In m (indicatorsGtToRec s g' r')).
  { intros g' r' H. apply indicatorsGtToRec_bounds in H. unfold m in H. lia. }
  assert (Hp : p = findBestCellLabels s) by reflexivity.
  rewrite findBestCellLabels_eq in Hp.
  split; [|split].
  - rewrite Hp. cbn [after]. now apply getMatchVariable_afterMatches.
  - intros v. apply In_indicatorsGtToRec.
  - rewrite Hp. cbn [linearConstraints]. rewrite !filter_app.
    rewrite (filter_none _ (coverageSection s)).
    2:{ eapply Forall_impl; [|apply coverageSection_kind].
        intros c Hk. apply activates_kind. rewrite Hk. discriminate. }
    rewrite (filter_none _ (survivalSection s)).
    2:{ eapply Forall_impl; [|apply survivalSection_kind].
        intros c Hk. apply activates_kind. rewrite Hk. discriminate. }
    unfold splitSection, mergeSection. rewrite !filter_app.
    rewrite !counters_not_activate.
    2:{ pose proof (splitBegin_le_totalSplits s). unfold mergeBegin. lia. }
    2:{ unfold m. lia. }
    cbn [filter].
    rewrite !activates_kind by discriminate.
    cbn [app]. rewrite app_nil_r.
    rewrite (activationSection_layout s Hfresh Hwf).
    rewrite (filter_flat_map_unique (activates m) _ (possibleMatches s) (g, r)
               Hnd Hin).
    + cbn [fst snd]. apply activationConstraints_state;
        [apply HmV | apply indicatorsGtToRec_NoDup].
    + intros [g' r'] Hin' Hne. cbn [fst snd].
      apply activationConstraints_other.
      * intros Heq. apply Hne. symmetry.
        now apply (matchVariable_inj s g r g' r').
      * apply HmV.
      * intros H. apply indicatorsGtToRec_bounds in H.
        pose proof (matchVariable_bounds s g' r' Hin'). lia.
      * apply indicatorsGtToRec_NoDup.
    + cbn [fst snd]. apply activationConstraints_own;
        [apply HmV | apply indicatorsGtToRec_NoDup].
Qed.

(** ** Counters, totals and objective *)

Lemma NoDup_map_inj_in {A B} (f : A -> B) (l : list A) :
  NoDup l ->
  (forall x y, In x l -> In y l -> f x = f y -> x = y) ->
  NoDup (map f l).
Proof.
  intros Hnd Hinj. induction Hnd as [|a l Ha Hnd IH]; cbn; constructor.
  - intros Hin. apply in_map_iff in Hin. destruct Hin as [y [Hy Hin]].
    assert (y = a) by (apply Hinj; [now right | now left | exact Hy]).
    subst. contradiction.
  - apply IH. intros x y Hx Hy. apply Hinj; now right.
Qed.

Lemma nth_writeAt (i j : nat) (x : Z) (l : list Z) :
  nth i (writeAt j x l) 0
  = if (Nat.eqb i j && Nat.ltb j (length l))%bool then x else nth i l 0.
Proof.
  revert i j. induction l as [|y l IH]; intros i j.
  - cbn. destruct j; rewrite andb_false_r; reflexivity.
  - destruct j as [|j]; destruct i as [|i]; cbn [writeAt nth]; try reflexivity.
    rewrite IH. reflexivity.
Qed.

Lemma objectiveCoefficient_set (a x : Z) (o : LinearObjective) (v : Z) :
  0 <= v -> 0 <= a < Z.of_nat (length (objectiveCoefficients o)) ->
  objectiveCoefficient (setObjectiveCoefficient a x o) v
  = if v =? a then x else objectiveCoefficient o v.
Proof.
  intros Hv Ha. unfold objectiveCoefficient, setObjectiveCoefficient; cbn.
  rewrite nth_writeAt.
  assert (H1 : Nat.ltb (Z.to_nat a) (length (objectiveCoefficients o)) = true)
    by (apply Nat.ltb_lt; lia).
  rewrite H1, andb_true_r.
  destruct (v =? a) eqn:E.
  - apply Z.eqb_eq in E. subst. now rewrite Nat.eqb_refl.
  - apply Z.eqb_neq in E.
    assert (H2 : Nat.eqb (Z.to_nat v) (Z.to_nat a) = false)
      by (apply Nat.eqb_neq; lia).
    now rewrite H2.
Qed.

Lemma objectiveCoefficient_new (n v : Z) :
  objectiveCoefficient (newLinearObjective n) v = 0.
Proof.
  unfold objectiveCoefficient, newLinearObjective; cbn.
  apply nth_repeat.
Qed.

Lemma length_setObjectiveCoefficient (a x : Z) (o : LinearObjective) :
  length (objectiveCoefficients (setObjectiveCoefficient a x o))
  = length (objectiveCoefficients o).
Proof.
  unfold setObjectiveCoefficient; cbn.
  generalize (Z.to_nat a) as j. generalize (objectiveCoefficients o) as l.
  induction l as [|y l IH]; intros [|j]; cbn; try reflexivity.
  now rewrite IH.
Qed.

Lemma In_splitSection_counter (s : State) (g : Z) (c : LinearConstraint) :
  In g (OrdSet.elements (getGroundTruthLabels s)) ->
  In c (counterConstraints splitMatchVars (afterMatches s)
                           (splitVariable s g, g)) ->
  In c (linearConstraints (findBestCellLabels s)).
Proof.
  intros Hg Hc. rewrite findBestCellLabels_eq. cbn [linearConstraints].
  rewrite !in_app_iff. right; right; right; left.
  unfold splitSection. apply in_app_iff. left.
  apply in_flat_map. exists (splitVariable s g, g). split; [|exact Hc].
  unfold splitVariable.
  apply (In_numbered_position Z.eqb); [|exact Hg].
  intros x y. rewrite Z.eqb_eq. reflexivity.
Qed.

Lemma In_mergeSection_counter (s : State) (r : Z) (c : LinearConstraint) :
  In r (OrdSet.elements (getReconstructionLabels s)) ->
  In c (counterConstraints mergeMatchVars (afterMatches s)
                           (mergeVariable s r, r)) ->
  In c (linearConstraints (findBestCellLabels s)).
Proof.
  intros Hr Hc. rewrite findBestCellLabels_eq. cbn [linearConstraints].
  rewrite !in_app_iff. right; right; right; right.
  unfold mergeSection. apply in_app_iff. left.
  apply in_flat_map. exists (mergeVariable s r, r). split; [|exact Hc].
  unfold mergeVariable.
  apply (In_numbered_position Z.eqb); [|exact Hr].
  intros x y. rewrite Z.eqb_eq. reflexivity.
Qed.

Lemma splitMatchVars_layout (s : State) (g : Z) :
  matchSetsWf s ->
  In g (OrdSet.elements (getGroundTruthLabels s)) ->
  splitMatchVars (afterMatches s) g
  = map (matchVariable s g) (OrdSet.elements (getPossibleMatchesByGt g s)).
Proof.
  intros Hwf Hg. unfold splitMatchVars.
  assert (Hpm : getPossibleMatchesByGt g (afterMatches s)
                = getPossibleMatchesByGt g s).
  { destruct (afterMatches_sameInput s) as (_ & _ & _ & H & _).
    unfold getPossibleMatchesByGt. now rewrite H. }
  rewrite Hpm. apply map_ext_in. intros r Hr.
  apply getMatchVariable_afterMatches.
  - now apply possibleMatches_NoDup.
  - apply In_possibleMatches. now split.
Qed.

Lemma mergeMatchVars_layout (s : State) (r : Z) :
  matchSetsWf s -> matchesWithinPairs s ->
  In r (OrdSet.elements (getReconstructionLabels s)) ->
  mergeMatchVars (afterMatches s) r
  = map (fun g => matchVariable s g r)
        (OrdSet.elements (getPossibleMathesByRec r s)).
Proof.
  intros Hwf Hsub Hr. unfold mergeMatchVars.
  assert (Hpm : getPossibleMathesByRec r (afterMatches s)
                = getPossibleMathesByRec r s).
  { destruct (afterMatches_sameInput s) as (_ & _ & _ & _ & H).
    unfold getPossibleMathesByRec. now rewrite H. }
  rewrite Hpm. apply map_ext_in. intros g Hg.
  apply getMatchVariable_afterMatches.
  - now apply possibleMatches_NoDup.
  - apply In_possibleMatches. now apply Hsub.
Qed.

(** On an object whose label sets satisfy the set invariant and whose
    reconstruction-side matches are within the ground-truth-side ones, the
    builder emits: for every ground-truth label [g] with split counter
    [s_g], the constraints [s_g >= 0] and
    [s_g - sum over r in PMgt(g) of m(g,r) = -1]; for every reconstruction
    label [r] with merge counter [u_r], the constraints [u_r >= 0] and
    [u_r - sum over g in PMrec(r) of m(g,r) = -1]; the totals
    [S - sum of the s_g = 0] and [M - sum of the u_r = 0]; and the objective
    is minimised with coefficient 1 on [S] and on [M] and 0 on every other
    variable. *)
Theorem counters_totals_and_objective (s : State) :
  matchSetsWf s -> mergeSetsWf s -> matchesWithinPairs s ->
  let p := findBestCellLabels s in
  let cs := linearConstraints p in
  (forall g,
      In g (OrdSet.elements (getGroundTruthLabels s)) ->
      exists c1 c2,
        In c1 cs /\ In c2 cs
        /\ states c1 [(1, splitVariable s g)] GreaterEqual 0
        /\ states c2
             ((1, splitVariable s g)
              :: map (fun r => (-1, matchVariable s g r))
                     (OrdSet.elements (getPossibleMatchesByGt g s)))
             Equal (-1))
  /\ (forall r,
        In r (OrdSet.elements (getReconstructionLabels s)) ->
        exists c1 c2,
          In c1 cs /\ In c2 cs
          /\ states c1 [(1, mergeVariable s r)] GreaterEqual 0
          /\ states c2
               ((1, mergeVariable s r)
                :: map (fun g => (-1, matchVariable s g r))
                       (OrdSet.elements (getPossibleMathesByRec r s)))
               Equal (-1))
  /\ (exists c,
        In c cs
        /\ states c
             ((1, splits p)
              :: map (fun g => (-1, splitVariable s g))
                     (OrdSet.elements (getGroundTruthLabels s)))
             Equal 0)
  /\ (exists c,
        In c cs
        /\ states c
             ((1, merges p)
              :: map (fun r => (-1, mergeVariable s r))
                     (OrdSet.elements (getReconstructionLabels s)))
             Equal 0)
  /\ getSense (objective p) = Minimize
  /\ (forall v,
        0 <= v < numVariables p ->
        objectiveCoefficient (objective p) v
        = if (v =? splits p) || (v =? merges p) then 1 else 0)
  /\ (forall g r,
        In (g, r) (possibleMatches s) ->
        getMatchVariable g r (after p) = matchVariable s g r).
Proof.
  intros Hwf [Hrwf Hpmrwf] Hsub p cs.
  pose proof Hwf as [Hgwf Hpmgwf].
  pose proof (possibleMatches_NoDup s Hwf) as Hnd.
  pose proof (numIndicators_nonneg s) as H0.
  pose proof (numIndicators_le_splitBegin s) as H1.
  pose proof (splitBegin_le_totalSplits s) as H2.
  pose proof (mergeBegin_le_totalMerges s) as H3.
  assert (Hp : p = findBestCellLabels s) by reflexivity.
  rewrite findBestCellLabels_eq in Hp.
  assert (Hsplits : splits p = totalSplits s) by (rewrite Hp; reflexivity).
  assert (Hmerges : merges p = totalMerges s) by (rewrite Hp; reflexivity).
  split; [|split; [|split; [|split; [|split; [|split]]]]].
  - (* split counters *)
    intros g Hg.
    exists (positive (splitVariable s g)),
           (countMatches (splitVariable s g)
                         (splitMatchVars (afterMatches s) g)).
    split; [|split; [|split]].
    + apply (In_splitSection_counter s g); [exact Hg | now left].
    + apply (In_splitSection_counter s g); [exact Hg | right; now left].
    + apply positive_states.
    + rewrite (splitMatchVars_layout s g Hwf Hg).
      rewrite <- (map_map (matchVariable s g) (pair (-1))).
      apply countMatches_states.
      * apply NoDup_map_inj_in; [apply wf_NoDup, Hpmgwf|].
        intros x y Hx Hy Heq.
        assert (E : (g, x) = (g, y)).
        { apply (matchVariable_inj s); [| |exact Heq];
            apply In_possibleMatches; now split. }
        now injection E.
      * intros Hin. apply in_map_iff in Hin. destruct Hin as [r [Heq Hr]].
        assert (Hb : numIndicators s <= matchVariable s g r < splitBegin s)
          by (apply matchVariable_bounds, In_possibleMatches; now split).
        unfold splitVariable in Heq. lia.
  - (* merge counters *)
    intros r Hr.
    exists (positive (mergeVariable s r)),
           (countMatches (mergeVariable s r)
                         (mergeMatchVars (afterMatches s) r)).
    split; [|split; [|split]].
    + apply (In_mergeSection_counter s r); [exact Hr | now left].
    + apply (In_mergeSection_counter s r); [exact Hr | right; now left].
    + apply positive_states.
    + rewrite (mergeMatchVars_layout s r Hwf Hsub Hr).
      rewrite <- (map_map (fun g => matchVariable s g r) (pair (-1))).
      apply countMatches_states.
      * apply NoDup_map_inj_in; [apply wf_NoDup, Hpmrwf|].
        intros x y Hx Hy Heq.
        assert (E : (x, r) = (y, r)).
        { apply (matchVariable_inj s); [| |exact Heq];
            apply In_possibleMatches; now apply Hsub. }
        now injection E.
      * intros Hin. apply in_map_iff in Hin. destruct Hin as [g [Heq Hg]].
        assert (Hb : numIndicators s <= matchVariable s g r < splitBegin s)
          by (apply matchVariable_bounds, In_possibleMatches; now apply Hsub).
        unfold mergeVariable, mergeBegin in Heq. lia.
  - (* total of the splits *)
    exists (sumOf (totalSplits s) (splitBegin s) (totalSplits s)). split.
    + unfold cs. rewrite Hp. cbn [linearConstraints].
      rewrite !in_app_iff. right; right; right; left.
      unfold splitSection. apply in_app_iff. right. now left.
    + rewrite Hsplits.
      rewrite <- (map_map (splitVariable s) (pair (-1))).
      unfold splitVariable, OrdSet.elements.
      rewrite (map_position_range (splitBegin s) _ (wf_NoDup _ Hgwf)).
      apply sumOf_states. unfold totalSplits, OrdSet.elements. lia.
  - (* total of the merges *)
    exists (sumOf (totalMerges s) (mergeBegin s) (totalMerges s)). split.
    + unfold cs. rewrite Hp. cbn [linearConstraints].
      rewrite !in_app_iff. right; right; right; right.
      unfold mergeSection. apply in_app_iff. right. now left.
    + rewrite Hmerges.
      rewrite <- (map_map (mergeVariable s) (pair (-1))).
      unfold mergeVariable, OrdSet.elements.
      rewrite (map_position_range (mergeBegin s) _ (wf_NoDup _ Hrwf)).
      apply sumOf_states. unfold totalMerges, OrdSet.elements. lia.
  - rewrite Hp. reflexivity.
  - intros v Hv. rewrite Hsplits, Hmerges.
    rewrite Hp in Hv |- *. cbn [objective numVariables] in Hv |- *.
    assert (Hlen : Z.of_nat (length (objectiveCoefficients
                     (newLinearObjective (totalMerges s + 1))))
                   = totalMerges s + 1).
    { unfold newLinearObjective; cbn. rewrite repeat_length.
      unfold mergeBegin in H3. lia. }
    unfold setSense, objectiveCoefficient at 1; cbn [objectiveCoefficients].
    fold (objectiveCoefficient
            (setObjectiveCoefficient (totalMerges s) 1
               (setObjectiveCoefficient (totalSplits s) 1
                  (newLinearObjective (totalMerges s + 1)))) v).
    rewrite objectiveCoefficient_set;
      [|lia|rewrite length_setObjectiveCoefficient, Hlen;
            unfold mergeBegin in H3; lia].
    rewrite objectiveCoefficient_set;
      [|lia|rewrite Hlen; unfold mergeBegin in H3; lia].
    rewrite objectiveCoefficient_new.
    destruct (v =? totalSplits s) eqn:E1; destruct (v =? totalMerges s) eqn:E2;
      cbn; reflexivity.
  - intros g r Hin. rewrite Hp. cbn [after].
    now apply getMatchVariable_afterMatches.
Qed.

(** ** The state in which a first run reaches the builder *)

Lemma getPossibleMatchesByGt_register (g r g' : Z) (s : State) :
  getPossibleMatchesByGt g' (registerPossibleMatch g r s)
  = if g' =? g then OrdSet.insert r (getPossibleMatchesByGt g s)
    else getPossibleMatchesByGt g' s.
Proof.
  unfold getPossibleMatchesByGt, registerPossibleMatch; cbn.
  destruct (g' =? g) eqn:E.
  - apply Z.eqb_eq in E. subst. apply at_update_eq.
  - apply Z.eqb_neq in E. now apply at_update_ne.
Qed.

Lemma getPossibleMathesByRec_register (g r r' : Z) (s : State) :
  getPossibleMathesByRec r' (registerPossibleMatch g r s)
  = if r' =? r then OrdSet.insert g (getPossibleMathesByRec r s)
    else getPossibleMathesByRec r' s.
Proof.
  unfold getPossibleMathesByRec, registerPossibleMatch; cbn.
  destruct (r' =? r) eqn:E.
  - apply Z.eqb_eq in E. subst. apply at_update_eq.
  - apply Z.eqb_neq in E. now apply at_update_ne.
Qed.

Lemma readyForProgram_register (g r : Z) (s : State) :
  readyForProgram s -> readyForProgram (registerPossibleMatch g r s).
Proof.
  intros (Hg & Hr & Hpg & Hpr & Hsym & Hreg & F1 & F2).
  unfold readyForProgram.
  change (getGroundTruthLabels (registerPossibleMatch g r s))
    with (OrdSet.insert g (getGroundTruthLabels s)).
  change (getReconstructionLabels (registerPossibleMatch g r s))
    with (OrdSet.insert r (getReconstructionLabels s)).
  split; [|split; [|split; [|split; [|split; [|split; [|split]]]]]].
  - apply wf_insert, Hg.
  - apply wf_insert, Hr.
  - intros g'. rewrite getPossibleMatchesByGt_register.
    destruct (g' =? g); [apply wf_insert|]; apply Hpg.
  - intros r'. rewrite getPossibleMathesByRec_register.
    destruct (r' =? r); [apply wf_insert|]; apply Hpr.
  - intros r' g'. rewrite getPossibleMathesByRec_register.
    rewrite getPossibleMatchesByGt_register.
    pose proof (Hsym r' g') as Hs.
    destruct (Z.eqb_spec r' r) as [-> | Er];
      destruct (Z.eqb_spec g' g) as [-> | Eg];
      rewrite ?In_insert; intuition congruence.
  - intros g' r'. rewrite getPossibleMatchesByGt_register, !In_insert.
    destruct (g' =? g) eqn:Eg.
    + apply Z.eqb_eq in Eg. subst g'. rewrite In_insert.
      intros [-> | Hin]; [split; now left|].
      destruct (Hreg g r' Hin). split; [now left | now right].
    + intros Hin. destruct (Hreg g' r' Hin). split; now right.
  - exact F1.
  - exact F2.
Qed.

Lemma readyForProgram_with_cells
  (f : OrdMap.t (OrdMap.t Cell) -> OrdMap.t (OrdMap.t Cell)) (s : State) :
  readyForProgram s -> readyForProgram (with_cells f s).
Proof. intros H. exact H. Qed.

Lemma readyForProgram_visitVoxel (gt rec : ImageStack) (x y z : nat)
  (s : State) :
  readyForProgram s -> readyForProgram (visitVoxel gt rec x y z s).
Proof.
  intros H. unfold visitVoxel. apply readyForProgram_register.
  repeat apply readyForProgram_with_cells. exact H.
Qed.

Lemma fold_left_preserves {A B} (P : A -> Prop) (f : A -> B -> A)
  (l : list B) (a : A) :
  (forall a b, P a -> P (f a b)) -> P a -> P (fold_left f l a).
Proof.
  intros Hf. revert a. induction l as [|b l IH]; intros a Ha; cbn;
    [exact Ha | apply IH, Hf, Ha].
Qed.

Lemma readyForProgram_extractLoop (gt rec : ImageStack) (s : State) :
  readyForProgram s -> readyForProgram (extractLoop gt rec s).
Proof.
  unfold extractLoop. apply fold_left_preserves. intros s1 z.
  apply fold_left_preserves. intros s2 x.
  apply fold_left_preserves. intros s3 y.
  apply readyForProgram_visitVoxel.
Qed.

Lemma at_empty_wf (k : Z) (m : OrdMap.t OrdSet.t) :
  Forall (fun kv => OrdSet.wf (snd kv)) m ->
  OrdSet.wf (OrdMap.at_ OrdSet.empty k m).
Proof.
  intros H. unfold OrdMap.at_.
  destruct (OrdMap.find k m) as [v|] eqn:E.
  - apply find_Some_In in E. rewrite Forall_forall in H.
    exact (H _ E).
  - constructor.
Qed.

Lemma readyForProgram_constructed (T : Z) :
  readyForProgram (TolerantEditDistance T).
Proof.
  unfold readyForProgram; cbn.
  repeat split; try constructor; try (intros; constructor); contradiction.
Qed.

Lemma readyForProgram_considerCell (recLabel : Z) (distance : Location -> Z)
  (kj : Z * Z) (s : State) :
  readyForProgram s -> readyForProgram (considerCell recLabel distance kj s).
Proof.
  intros H. unfold considerCell. destruct kj as [k j].
  destruct (negb (getReconstructionLabel (cellAt k j s) =? recLabel));
    [|exact H].
  destruct (maxDistanceOf distance (cellAt k j s) <? _maxDistanceThreshold s);
    [|exact H].
  apply readyForProgram_register, readyForProgram_with_cells, H.
Qed.

Lemma readyForProgram_enumerateCellLabels (s : State) :
  readyForProgram s -> readyForProgram (enumerateCellLabels s).
Proof.
  unfold enumerateCellLabels. apply fold_left_preserves. intros s1 r H1.
  unfold enumerateForLabel.
  generalize (distanceArray (_width s1, _height s1, _depth s1)
    (flat_map locations
       (OrdMap.values (OrdMap.at_ OrdMap.empty r (_cells s1))))) as distance.
  intros distance. generalize (cellKeys (_cells s1)) as keys. intros keys.
  apply fold_left_preserves; [|exact H1].
  intros s2 kj. apply readyForProgram_considerCell.
Qed.

Lemma afterEnumeration_ready (T : Z) (gt rec : ImageStack) :
  readyForProgram (afterEnumeration T gt rec).
Proof.
  unfold afterEnumeration. apply readyForProgram_enumerateCellLabels.
  rewrite extractCells_unfold. destruct (sameExtent gt rec); cbn [snd].
  - apply readyForProgram_extractLoop.
    unfold readyForProgram; cbn.
    repeat split; try constructor; try (intros; constructor); contradiction.
  - apply readyForProgram_constructed.
Qed.

Lemma readyForProgram_sets (s : State) :
  readyForProgram s ->
  matchSetsWf s /\ mergeSetsWf s /\ matchesWithinPairs s.
Proof.
  intros (Hg & Hr & Hpg & Hpr & Hsym & Hreg & _).
  repeat split; try assumption.
  - apply (Hreg g r). now apply Hsym.
  - now apply Hsym.
Qed.

(** ** The builder reaches every cell *)

Lemma keys_update {V} (d : V) (f : V -> V) (k : Z) (m : OrdMap.t V) :
  OrdMap.keys (OrdMap.update d f k m) = OrdSet.insert k (OrdMap.keys m).
Proof.
  induction m as [|[k' v] m IH]; cbn; [reflexivity|].
  destruct (k <? k'); [reflexivity|].
  destruct (k =? k'); cbn; [reflexivity | f_equal; exact IH].
Qed.

Lemma insert_idem (x : Z) (s : OrdSet.t) :
  OrdSet.insert x (OrdSet.insert x s) = OrdSet.insert x s.
Proof.
  induction s as [|y s IH]; cbn.
  - now rewrite Z.ltb_irrefl, Z.eqb_refl.
  - destruct (x <? y) eqn:E1; cbn.
    + now rewrite Z.ltb_irrefl, Z.eqb_refl.
    + destruct (x =? y) eqn:E2; cbn; rewrite E1, E2;
        [reflexivity | now rewrite IH].
Qed.

Lemma insert_In (x : Z) (s : OrdSet.t) :
  OrdSet.wf s -> In x s -> OrdSet.insert x s = s.
Proof.
  unfold OrdSet.wf. induction 1 as [|y s Hs IH Hy]; intros Hin;
    [destruct Hin|].
  cbn. rewrite Forall_forall in Hy.
  destruct Hin as [-> | Hin].
  - now rewrite Z.ltb_irrefl, Z.eqb_refl.
  - specialize (Hy x Hin).
    assert (E1 : (x <? y) = false) by (apply Z.ltb_ge; lia).
    assert (E2 : (x =? y) = false) by (apply Z.eqb_neq; lia).
    rewrite E1, E2, (IH Hin). reflexivity.
Qed.

Lemma cellsIndexed_visitVoxel (gt rec : ImageStack) (x y z : nat) (s : State) :
  cellsIndexed s -> cellsIndexed (visitVoxel gt rec x y z s).
Proof.
  intros [Hk Hwf].
  unfold cellsIndexed, visitVoxel, registerPossibleMatch, with_matches,
    with_cells; cbn [_cells _reconstructionLabels].
  rewrite !keys_update, !insert_idem, Hk.
  split; [reflexivity | now apply wf_insert].
Qed.

Lemma cellsIndexed_extractLoop (gt rec : ImageStack) (s : State) :
  cellsIndexed s -> cellsIndexed (extractLoop gt rec s).
Proof.
  unfold extractLoop. apply fold_left_preserves. intros s1 z.
  apply fold_left_preserves. intros s2 x.
  apply fold_left_preserves. intros s3 y.
  apply cellsIndexed_visitVoxel.
Qed.

Lemma fold_left_preserves_in {A B} (P : A -> Prop) (f : A -> B -> A)
  (l : list B) (a : A) :
  (forall a b, In b l -> P a -> P (f a b)) -> P a -> P (fold_left f l a).
Proof.
  revert a. induction l as [|b l IH]; intros a Hf Ha; cbn; [exact Ha|].
  apply IH.
  - intros a' b' Hb'. apply Hf. now right.
  - apply Hf; [now left | exact Ha].
Qed.

Lemma In_cellKeys (cells : OrdMap.t (OrdMap.t Cell)) (k j : Z) :
  In (k, j) (cellKeys cells) -> In k (OrdMap.keys cells).
Proof.
  unfold cellKeys. rewrite in_flat_map. intros [[k' m] [Hin Hj]].
  apply in_map_iff in Hj. destruct Hj as [j' [Heq _]]. cbn in Heq.
  injection Heq as -> ->.
  change k with (fst (k, m)). now apply in_map.
Qed.

(** With the label [recLabel] and the key [k] among the keys [K] of the cell
    map, one step of the enumeration keeps the keys and the label set. *)
Lemma cellsIndexed_considerCell (K : list Z) (recLabel : Z)
  (distance : Location -> Z) (k j : Z) (s : State) :
  In recLabel K -> In k K ->
  cellsIndexed s /\ OrdMap.keys (_cells s) = K ->
  cellsIndexed (considerCell recLabel distance (k, j) s)
  /\ OrdMap.keys (_cells (considerCell recLabel distance (k, j) s)) = K.
Proof.
  intros Hr Hk [[Hkeys Hwf] HK]. unfold considerCell.
  destruct (negb (getReconstructionLabel (cellAt k j s) =? recLabel));
    [|now repeat split].
  destruct (maxDistanceOf distance (cellAt k j s) <? _maxDistanceThreshold s);
    [|now repeat split].
  unfold cellsIndexed, registerPossibleMatch, with_matches, with_cells;
    cbn [_cells _reconstructionLabels].
  rewrite keys_update.
  assert (Hwf' : OrdSet.wf (OrdMap.keys (_cells s))) by now rewrite Hkeys.
  rewrite (insert_In k _ Hwf') by now rewrite HK.
  rewrite <- Hkeys in *.
  rewrite (insert_In recLabel _ Hwf') by now rewrite HK.
  now repeat split.
Qed.

Lemma cellsIndexed_enumerate_fold (K L : list Z) (s : State) :
  (forall r, In r L -> In r K) ->
  cellsIndexed s /\ OrdMap.keys (_cells s) = K ->
  cellsIndexed (fold_left (fun s r => enumerateForLabel r s) L s)
  /\ OrdMap.keys (_cells (fold_left (fun s r => enumerateForLabel r s) L s))
     = K.
Proof.
  intros HL HP.
  apply (fold_left_preserves_in
           (fun s => cellsIndexed s /\ OrdMap.keys (_cells s) = K));
    [|exact HP].
  intros s1 r Hr H1. unfold enumerateForLabel.
  generalize (distanceArray (_width s1, _height s1, _depth s1)
    (flat_map locations
       (OrdMap.values (OrdMap.at_ OrdMap.empty r (_cells s1))))) as distance.
  intros distance.
  assert (Hkeys : forall kj, In kj (cellKeys (_cells s1)) -> In (fst kj) K).
  { intros [k j] Hkj. destruct H1 as [_ <-]. cbn.
    now apply In_cellKeys in Hkj. }
  revert Hkeys. generalize (cellKeys (_cells s1)) as keys. intros keys Hkeys.
  apply (fold_left_preserves_in
           (fun s => cellsIndexed s /\ OrdMap.keys (_cells s) = K));
    [|exact H1].
  intros s2 [k j] Hkj H2.
  apply cellsIndexed_considerCell;
    [exact (HL _ Hr) | exact (Hkeys _ Hkj) | exact H2].
Qed.

Lemma cellsIndexed_enumerateCellLabels (s : State) :
  cellsIndexed s -> cellsIndexed (enumerateCellLabels s).
Proof.
  intros H. unfold enumerateCellLabels.
  apply (cellsIndexed_enumerate_fold (OrdMap.keys (_cells s))).
  - auto.
  - now split.
Qed.

Lemma flat_map_at_keys {V B} (d : V) (F : V -> list B) (m : OrdMap.t V) :
  OrdMap.wf m ->
  flat_map (fun k => F (OrdMap.at_ d k m)) (OrdMap.keys m)
  = flat_map (fun kv => F (snd kv)) m.
Proof.
  unfold OrdMap.wf, OrdMap.keys.
  induction m as [|[k v] m IH]; intros Hwf; [reflexivity|].
  cbn [map fst] in Hwf. inversion Hwf as [|? ? Hwf' Hk]; subst.
  cbn [map flat_map fst snd]. f_equal.
  - unfold OrdMap.at_; cbn. now rewrite Z.ltb_irrefl, Z.eqb_refl.
  - rewrite <- (IH Hwf'). apply flat_map_ext_In. intros k' Hk'.
    rewrite Forall_forall in Hk. specialize (Hk k' Hk').
    unfold OrdMap.at_; cbn.
    assert (E1 : (k' <? k) = false) by (apply Z.ltb_ge; lia).
    assert (E2 : (k' =? k) = false) by (apply Z.eqb_neq; lia).
    now rewrite E1, E2.
Qed.

Lemma cellsIndexed_cellsInOrder (s : State) :
  cellsIndexed s -> cellsInOrder s = allCells s.
Proof.
  intros [Hkeys Hwf]. unfold cellsInOrder, allCells, getReconstructionLabels,
    OrdSet.elements.
  rewrite <- Hkeys. apply (flat_map_at_keys OrdMap.empty OrdMap.values).
  unfold OrdMap.wf. now rewrite Hkeys.
Qed.

(** ** The theorems at a concrete object *)

Lemma indicators_cover_each_cell_witness :
  let s := relabelledSections in
  let c := mkCell 2 2 [mkLocation 0 0 1] [1] in
  nth_error (cellsInOrder s) 1 = Some c
  /\ blockBegin s 2 = 2 + (1 + 1)
  /\ exists cstr,
       nth_error (linearConstraints (findBestCellLabels s)) 1 = Some cstr
       /\ states cstr [(1, 2); (1, 3)] Equal 1.
Proof.
  intros s c.
  assert (H : nth_error (cellsInOrder s) 1 = Some c) by reflexivity.
  destruct (indicators_cover_each_cell s 1 c H) as (H1 & _ & _ & H4 & _).
  split; [exact H|]. split; [exact H1 | exact H4].
Defined.

Lemma every_label_keeps_an_indicator_witness :
  let s := relabelledSections in
  _indicatorVarsByRecLabel s = OrdMap.empty
  /\ nth_error (OrdSet.elements (getReconstructionLabels s)) 1 = Some 2
  /\ exists cstr,
       nth_error (linearConstraints (findBestCellLabels s)) 3 = Some cstr
       /\ states cstr [(1, 1); (1, 2)] GreaterEqual 1.
Proof.
  intros s.
  assert (H1 : _indicatorVarsByRecLabel s = OrdMap.empty) by reflexivity.
  assert (H2 : nth_error (OrdSet.elements (getReconstructionLabels s)) 1
               = Some 2) by reflexivity.
  destruct (every_label_keeps_an_indicator s 1 2 H1 H2) as (H & _).
  split; [exact H1|]. split; [exact H2 | exact H].
Defined.

Lemma match_activation_constraints_witness :
  let s := relabelledSections in
  _indicatorVarsByGtToRecLabel s = OrdMap.empty
  /\ In 1 (OrdSet.elements (getGroundTruthLabels s))
  /\ In 2 (OrdSet.elements (getPossibleMatchesByGt 1 s))
  /\ Forall2 (fun cstr terms => states cstr terms GreaterEqual 0)
       (filter (activates 5) (linearConstraints (findBestCellLabels s)))
       [[(1, 5); (-1, 1)]; [(1, 1); (-1, 5)]].
Proof.
  intros s.
  assert (H1 : _indicatorVarsByGtToRecLabel s = OrdMap.empty) by reflexivity.
  assert (H2 : matchSetsWf s).
  { split.
    - vm_compute. repeat constructor.
    - intros g. apply at_empty_wf. vm_compute. repeat constructor. }
  assert (H3 : In 1 (OrdSet.elements (getGroundTruthLabels s)))
    by (vm_compute; left; reflexivity).
  assert (H4 : In 2 (OrdSet.elements (getPossibleMatchesByGt 1 s)))
    by (vm_compute; right; left; reflexivity).
  destruct (match_activation_constraints s 1 2 H1 H2 H3 H4) as (_ & _ & H).
  split; [exact H1|]. split; [exact H3|]. split; [exact H4 | exact H].
Defined.

Lemma counters_totals_and_objective_witness :
  let s := relabelledSections in
  let p := findBestCellLabels s in
  (matchSetsWf s /\ mergeSetsWf s /\ matchesWithinPairs s)
  /\ getSense (objective p) = Minimize
  /\ exists c,
       In c (linearConstraints p)
       /\ states c [(1, 10); (-1, 8); (-1, 9)] Equal 0.
Proof.
  intros s p.
  assert (H1 : matchSetsWf s).
  { split.
    - vm_compute. repeat constructor.
    - intros g. apply at_empty_wf. vm_compute. repeat constructor. }
  assert (H2 : mergeSetsWf s).
  { split.
    - vm_compute. repeat constructor.
    - intros r. apply at_empty_wf. vm_compute. repeat constructor. }
  assert (H3 : matchesWithinPairs s).
  { intros r g Hr Hg. vm_compute in Hr.
    destruct Hr as [<- | [<- | []]]; vm_compute in Hg;
      destruct Hg as [<- | [<- | []]]; vm_compute; auto. }
  destruct (counters_totals_and_objective s H1 H2 H3)
    as (_ & _ & HS & _ & Hsense & _).
  split; [exact (conj H1 (conj H2 H3))|]. split; [exact Hsense | exact HS].
Defined.

(** * Further properties of the three passes *)

(** ** Possible matches *)

Lemma registerPossibleMatch_sets (g r g' r' : Z) (s : State) :
  let s' := registerPossibleMatch g r s in
  (In r' (getPossibleMatchesByGt g' s')
   <-> (g' = g /\ r' = r) \/ In r' (getPossibleMatchesByGt g' s))
  /\ (In g' (getPossibleMathesByRec r' s')
      <-> (g' = g /\ r' = r) \/ In g' (getPossibleMathesByRec r' s))
  /\ (In g' (getGroundTruthLabels s')
      <-> g' = g \/ In g' (getGroundTruthLabels s))
  /\ (In r' (getReconstructionLabels s')
      <-> r' = r \/ In r' (getReconstructionLabels s)).
Proof.
  cbv zeta.
  rewrite getPossibleMatchesByGt_register, getPossibleMathesByRec_register.
  change (getGroundTruthLabels (registerPossibleMatch g r s))
    with (OrdSet.insert g (getGroundTruthLabels s)).
  change (getReconstructionLabels (registerPossibleMatch g r s))
    with (OrdSet.insert r (getReconstructionLabels s)).
  rewrite !In_insert.
  destruct (Z.eqb_spec g' g) as [-> | Hg];
    destruct (Z.eqb_spec r' r) as [-> | Hr];
    rewrite ?In_insert; intuition congruence.
Qed.

(** Registering a pair makes it a possible match in both directions and
    registers both labels; every other pair and label is where it was. *)
Theorem registerPossibleMatch_lookup (g r g' r' : Z) (s : State) :
  let s' := registerPossibleMatch g r s in
  (In r' (getPossibleMatchesByGt g' s')
   <-> (g' = g /\ r' = r) \/ In r' (getPossibleMatchesByGt g' s))
  /\ (In g' (getPossibleMathesByRec r' s')
      <-> (g' = g /\ r' = r) \/ In g' (getPossibleMathesByRec r' s))
  /\ (In g' (getGroundTruthLabels s')
      <-> g' = g \/ In g' (getGroundTruthLabels s))
  /\ (In r' (getReconstructionLabels s')
      <-> r' = r \/ In r' (getReconstructionLabels s)).
Proof. exact (registerPossibleMatch_sets g r g' r' s). Qed.

(** ** Match variables *)

(** A match variable reads back as assigned and leaves every other pair
    alone; a pair that was never assigned on a new object reads as 0. *)
Theorem matchVariable_round_trip (v g r g' r' T : Z) (s : State) :
  getMatchVariable g r (assignMatchVariable v g r s) = v
  /\ ((g', r') <> (g, r) ->
      getMatchVariable g' r' (assignMatchVariable v g r s)
      = getMatchVariable g' r' s)
  /\ getMatchVariable g r (TolerantEditDistance T) = 0.
Proof.
  split; [apply getMatchVariable_assign_eq|]. split; [|reflexivity].
  intros Hne. apply getMatchVariable_assign_ne. congruence.
Qed.

Lemma matchVariable_round_trip_witness :
  (2, 3) <> (1, 3)
  /\ getMatchVariable 2 3
       (assignMatchVariable 7 1 3 (assignMatchVariable 5 2 3
                                     (TolerantEditDistance 100)))
     = 5.
Proof.
  assert (H : (2, 3) <> (1, 3)) by discriminate.
  split; [exact H|].
  destruct (matchVariable_round_trip 7 1 3 2 3 100
              (assignMatchVariable 5 2 3 (TolerantEditDistance 100)))
    as (_ & H2 & _).
  rewrite (H2 H). reflexivity.
Defined.

(** ** What the builder does to the object *)

(** [findBestCellLabels] does not change the cells, the label sets or the
    possible matches.  It does not clear the indicator registries either:
    after it, the list of a label (of a pair) is the list found on entry
    followed by the indicators allocated in this call. *)
Theorem findBestCellLabels_effect_on_object (s : State) (g r : Z) :
  let s' := after (findBestCellLabels s) in
  _cells s' = _cells s
  /\ _groundTruthLabels s' = _groundTruthLabels s
  /\ _reconstructionLabels s' = _reconstructionLabels s
  /\ _possibleGroundTruthMatches s' = _possibleGroundTruthMatches s
  /\ _possibleReconstructionMatches s' = _possibleReconstructionMatches s
  /\ getIndicatorsByRec r s' = getIndicatorsByRec r s ++ indicatorsWithLabel s r
  /\ getIndicatorsGtToRec g r s'
     = getIndicatorsGtToRec g r s ++ indicatorsGtToRec s g r.
Proof.
  cbv zeta. rewrite findBestCellLabels_eq. cbn [after].
  destruct (afterMatches_sameInput s) as (H1 & H2 & H3 & H4 & H5).
  repeat split; try assumption.
  - apply getIndicatorsByRec_afterMatches.
  - apply getIndicatorsGtToRec_afterMatches.
Qed.

(** ** Size of the program *)

Lemma length_indicatorLabels (cells : list Cell) :
  length (indicatorLabels cells)
  = list_sum (map (fun c => S (OrdSet.size (getAlternativeLabels c))) cells).
Proof.
  induction cells as [|c cells IH]; [reflexivity|].
  rewrite indicatorLabels_cons, length_app, length_map, IH. reflexivity.
Qed.

Lemma getVariableType_markIntegers_in (vs : list Z)
  (p : LinearSolverParameters) (v : Z) :
  In v vs -> getVariableType (markIntegers vs p) v = Integer.
Proof.
  unfold markIntegers. revert p.
  induction vs as [|x vs IH]; intros p Hin; [destruct Hin|].
  cbn [fold_left].
  destruct (in_dec Z.eq_dec v vs) as [Hvs | Hvs].
  - now apply IH.
  - destruct Hin as [-> | Hin]; [|contradiction].
    fold (markIntegers vs (setVariableType v Integer p)).
    rewrite getVariableType_markIntegers by exact Hvs.
    rewrite getVariableType_setVariableType. now rewrite Z.eqb_refl.
Qed.

(** The builder allocates one variable per cell and assignable label, one per
    possible match, one counter per ground-truth label, the total of the
    splits, one counter per reconstruction label and the total of the
    merges, in this order from 0.  Indicators and match variables are
    binary, counters and totals integer. *)
Theorem findBestCellLabels_variables (s : State) :
  let p := findBestCellLabels s in
  let indicators :=
    list_sum (map (fun c => S (OrdSet.size (getAlternativeLabels c)))
                  (cellsInOrder s)) in
  let matches := length (possibleMatches s) in
  let gts := OrdSet.size (getGroundTruthLabels s) in
  let recs := OrdSet.size (getReconstructionLabels s) in
  splits p = Z.of_nat (indicators + matches + gts)
  /\ merges p = Z.of_nat (indicators + matches + gts + 1 + recs)
  /\ numVariables p = Z.of_nat (indicators + matches + gts + 1 + recs + 1)
  /\ length (objectiveCoefficients (objective p))
     = (indicators + matches + gts + 1 + recs + 1)%nat
  /\ (forall v,
        0 <= v < numVariables p ->
        getVariableType (solverParameters p) v
        = if v <? Z.of_nat (indicators + matches) then Binary else Integer).
Proof.
  cbv zeta. rewrite findBestCellLabels_eq.
  cbn [splits merges numVariables objective solverParameters].
  assert (HS : totalSplits s
               = Z.of_nat
                   (list_sum
                      (map (fun c => S (OrdSet.size (getAlternativeLabels c)))
                           (cellsInOrder s))
                    + length (possibleMatches s)
                    + OrdSet.size (getGroundTruthLabels s))).
  { unfold totalSplits, splitBegin, numIndicators.
    rewrite length_indicatorLabels. unfold OrdSet.elements, OrdSet.size.
    lia. }
  assert (HM : totalMerges s
               = totalSplits s + 1
                 + Z.of_nat (OrdSet.size (getReconstructionLabels s))).
  { reflexivity. }
  assert (HB : splitBegin s
               = Z.of_nat
                   (list_sum
                      (map (fun c => S (OrdSet.size (getAlternativeLabels c)))
                           (cellsInOrder s))
                    + length (possibleMatches s))).
  { unfold splitBegin, numIndicators. rewrite length_indicatorLabels. lia. }
  split; [exact HS|]. split; [lia|]. split; [lia|]. split.
  - unfold setSense; cbn [objectiveCoefficients].
    rewrite !length_setObjectiveCoefficient.
    unfold newLinearObjective; cbn [objectiveCoefficients].
    rewrite repeat_length. lia.
  - intros v Hv. rewrite <- HB.
    destruct (Z.ltb_spec v (splitBegin s)) as [Hlt | Hge].
    + rewrite getVariableType_markIntegers; [reflexivity|].
      intros Hin. apply In_integerVariables in Hin. lia.
    + apply getVariableType_markIntegers_in.
      unfold integerVariables. rewrite !in_app_iff, !In_range. cbn [In].
      unfold mergeBegin in *. lia.
Qed.

Lemma activationConstraints_length (m : Z) (vs : list Z) :
  length (activationConstraints m vs) = S (length vs).
Proof.
  unfold activationConstraints. rewrite length_app, length_map. cbn. lia.
Qed.

Lemma length_flat_map_const {A B} (F : A -> list B) (n : nat) (l : list A) :
  (forall a, length (F a) = n) -> length (flat_map F l) = (n * length l)%nat.
Proof.
  intros H. induction l as [|a l IH]; cbn; [lia|].
  rewrite length_app, H, IH. lia.
Qed.

(** The builder emits, in this order: one constraint per cell; one per
    reconstruction label; for every possible match one constraint per
    registered indicator of the pair and one more; two per ground-truth
    label and one for their total; two per reconstruction label and one for
    their total. *)
Theorem findBestCellLabels_constraint_count (s : State) :
  let p := findBestCellLabels s in
  length (linearConstraints p)
  = (length (cellsInOrder s)
     + OrdSet.size (getReconstructionLabels s)
     + list_sum
         (map (fun gr =>
                 S (length (getIndicatorsGtToRec (fst gr) (snd gr) (after p))))
              (possibleMatches s))
     + (2 * OrdSet.size (getGroundTruthLabels s) + 1)
     + (2 * OrdSet.size (getReconstructionLabels s) + 1))%nat.
Proof.
  cbv zeta. rewrite findBestCellLabels_eq. cbn [linearConstraints after].
  rewrite !length_app.
  unfold coverageSection. rewrite coverageConstraints_length.
  rewrite survivalSection_length.
  unfold splitSection, mergeSection. rewrite !length_app.
  rewrite !(length_flat_map_const _ 2) by reflexivity.
  rewrite !numbered_length. cbn [length].
  unfold OrdSet.size, OrdSet.elements.
  assert (HA : length (activationSection s)
               = list_sum
                   (map (fun gr =>
                           S (length (getIndicatorsGtToRec (fst gr) (snd gr)
                                        (afterMatches s))))
                        (possibleMatches s))).
  { unfold activationSection.
    induction (possibleMatches s) as [|gr l IH]; [reflexivity|].
    cbn [flat_map map list_sum].
    rewrite length_app, activationConstraints_length, IH. reflexivity. }
  rewrite HA. lia.
Qed.

(** ** Cell extraction, voxel by voxel *)

Lemma fold_left_flat_map {A B C} (f : A -> C -> A) (g : B -> list C)
  (l : list B) (a : A) :
  fold_left f (flat_map g l) a
  = fold_left (fun a x => fold_left f (g x) a) l a.
Proof.
  revert a. induction l as [|x l IH]; intros a; cbn; [reflexivity|].
  now rewrite fold_left_app, IH.
Qed.

Lemma fold_left_map {A B C} (f : A -> C -> A) (h : B -> C) (l : list B)
  (a : A) :
  fold_left f (map h l) a = fold_left (fun a x => f a (h x)) l a.
Proof.
  revert a. induction l as [|x l IH]; intros a; cbn; [reflexivity | apply IH].
Qed.

(** The three loops visit the voxels of [visitedVoxels] one after the
    other. *)
Lemma extractLoop_visits (gt rec : ImageStack) (s : State) :
  extractLoop gt rec s
  = fold_left
      (fun s v => visitVoxel gt rec (loc_x v) (loc_y v) (loc_z v) s)
      (visitedVoxels gt) s.
Proof.
  unfold extractLoop, visitedVoxels.
  rewrite fold_left_flat_map. apply fold_left_ext_frame. intros s1 z.
  rewrite fold_left_flat_map. apply fold_left_ext_frame. intros s2 x.
  rewrite fold_left_map. reflexivity.
Qed.

Lemma In_visitedVoxels (gt : ImageStack) (v : Location) :
  In v (visitedVoxels gt)
  <-> (loc_x v < width gt /\ loc_y v < width gt /\ loc_z v < size gt)%nat.
Proof.
  unfold visitedVoxels. rewrite in_flat_map. split.
  - intros [z [Hz Hin]]. apply in_flat_map in Hin.
    destruct Hin as [x [Hx Hin]]. apply in_map_iff in Hin.
    destruct Hin as [y [<- Hy]]. apply in_seq in Hx, Hy, Hz. cbn. lia.
  - intros (Hx & Hy & Hz). exists (loc_z v). split; [apply in_seq; lia|].
    apply in_flat_map. exists (loc_x v). split; [apply in_seq; lia|].
    apply in_map_iff. exists (loc_y v). split; [now destruct v|].
    apply in_seq; lia.
Qed.

Lemma NoDup_flat_map_disjoint {A B} (F : A -> list B) (l : list A) :
  NoDup l ->
  (forall a, In a l -> NoDup (F a)) ->
  (forall a a' b, In a l -> In a' l -> In b (F a) -> In b (F a') -> a = a') ->
  NoDup (flat_map F l).
Proof.
  intros Hnd. induction Hnd as [|a l Ha Hnd IH]; intros HF Hdis; cbn.
  - constructor.
  - apply NoDup_app.
    + apply HF. now left.
    + apply IH.
      * intros x Hx. apply HF. now right.
      * intros x x' b Hx Hx'. apply Hdis; now right.
    + intros b Hb Hb'. apply in_flat_map in Hb'.
      destruct Hb' as [a' [Ha' Hb']].
      assert (a = a') by (apply (Hdis a a' b); auto; [now left | now right]).
      subst. contradiction.
Qed.

Lemma visitedVoxels_NoDup (gt : ImageStack) : NoDup (visitedVoxels gt).
Proof.
  unfold visitedVoxels. apply NoDup_flat_map_disjoint.
  - apply seq_NoDup.
  - intros z _. apply NoDup_flat_map_disjoint.
    + apply seq_NoDup.
    + intros x _. apply Injective_map_NoDup; [|apply seq_NoDup].
      intros y y' H. now injection H.
    + intros x x' b _ _ Hb Hb'. apply in_map_iff in Hb, Hb'.
      destruct Hb as [y [<- _]]. destruct Hb' as [y' [H _]].
      now injection H.
  - intros z z' b _ _ Hb Hb'. apply in_flat_map in Hb, Hb'.
    destruct Hb as [x [_ Hb]]. destruct Hb' as [x' [_ Hb']].
    apply in_map_iff in Hb, Hb'.
    destruct Hb as [y [<- _]]. destruct Hb' as [y' [H _]].
    now injection H.
Qed.

(** Possible matches and labels after visiting a list of voxels. *)
Lemma visits_matches (gt rec : ImageStack) (L : list Location) (s : State)
  (g r : Z) :
  let s' := fold_left
              (fun s v => visitVoxel gt rec (loc_x v) (loc_y v) (loc_z v) s)
              L s in
  let seen g r :=
    exists v, In v L /\ voxel gt (loc_x v) (loc_y v) (loc_z v) = g
              /\ voxel rec (loc_x v) (loc_y v) (loc_z v) = r in
  (In r (getPossibleMatchesByGt g s')
   <-> In r (getPossibleMatchesByGt g s) \/ seen g r)
  /\ (In g (getPossibleMathesByRec r s')
      <-> In g (getPossibleMathesByRec r s) \/ seen g r)
  /\ (In g (getGroundTruthLabels s')
      <-> In g (getGroundTruthLabels s) \/ exists r', seen g r')
  /\ (In r (getReconstructionLabels s')
      <-> In r (getReconstructionLabels s) \/ exists g', seen g' r).
Proof.
  cbv zeta. revert s. induction L as [|v L IH]; intros s.
  - cbn. firstorder.
  - cbn [fold_left].
    destruct (IH (visitVoxel gt rec (loc_x v) (loc_y v) (loc_z v) s))
      as (I1 & I2 & I3 & I4).
    set (gv := voxel gt (loc_x v) (loc_y v) (loc_z v)) in *.
    set (rv := voxel rec (loc_x v) (loc_y v) (loc_z v)) in *.
    assert (R : forall g' r',
               (In r' (getPossibleMatchesByGt g'
                         (visitVoxel gt rec (loc_x v) (loc_y v) (loc_z v) s))
                <-> (g' = gv /\ r' = rv) \/ In r' (getPossibleMatchesByGt g' s))
               /\ (In g' (getPossibleMathesByRec r'
                            (visitVoxel gt rec (loc_x v) (loc_y v) (loc_z v) s))
                   <-> (g' = gv /\ r' = rv)
                       \/ In g' (getPossibleMathesByRec r' s))
               /\ (In g' (getGroundTruthLabels
                            (visitVoxel gt rec (loc_x v) (loc_y v) (loc_z v) s))
                   <-> g' = gv \/ In g' (getGroundTruthLabels s))
               /\ (In r' (getReconstructionLabels
                            (visitVoxel gt rec (loc_x v) (loc_y v) (loc_z v) s))
                   <-> r' = rv \/ In r' (getReconstructionLabels s))).
    { intros g' r'. unfold visitVoxel. fold gv rv.
      match goal with
      | |- context [registerPossibleMatch _ _ ?st] =>
          exact (registerPossibleMatch_sets gv rv g' r' st)
      end. }
    destruct (R g r) as (R1 & R2 & R3 & R4).
    rewrite I1, I2, I3, I4, R1, R2, R3, R4. clear.
    repeat split.
    + intros [[[-> ->] | H] | [x [Hx Hl]]]; auto.
      * right. exists v. split; [now left | auto].
      * right. exists x. split; [now right | auto].
    + intros [H | [x [[<- | Hx] [H1 H2]]]]; auto.
      right. now exists x.
    + intros [[[-> ->] | H] | [x [Hx Hl]]]; auto.
      * right. exists v. split; [now left | auto].
      * right. exists x. split; [now right | auto].
    + intros [H | [x [[<- | Hx] [H1 H2]]]]; auto.
      right. now exists x.
    + intros [[-> | H] | [r' [x [Hx Hl]]]]; auto.
      * right. exists rv, v. split; [now left | auto].
      * right. exists r', x. split; [now right | auto].
    + intros [H | [r' [x [[<- | Hx] [H1 H2]]]]]; auto.
      right. exists r'. now exists x.
    + intros [[-> | H] | [g' [x [Hx Hl]]]]; auto.
      * right. exists gv, v. split; [now left | auto].
      * right. exists g', x. split; [now right | auto].
    + intros [H | [g' [x [[<- | Hx] [H1 H2]]]]]; auto.
      right. exists g'. now exists x.
Qed.

Lemma extractCells_success (gt rec : ImageStack) (s0 : State) :
  fst (extractCells gt rec s0) = inr tt ->
  snd (extractCells gt rec s0)
  = fold_left
      (fun s v => visitVoxel gt rec (loc_x v) (loc_y v) (loc_z v) s)
      (visitedVoxels gt)
      (with_extent (width gt) (height gt) (size gt)
         (clearPossibleMatches (with_cells (fun _ => OrdMap.empty) s0))).
Proof.
  rewrite extractCells_unfold. destruct (sameExtent gt rec); [|discriminate].
  intros _. cbn [snd]. apply extractLoop_visits.
Qed.

(** After a successful extraction on any object, the ground-truth-side
    matches and both label sets hold exactly what the visited voxels show,
    whatever they held before; the reconstruction-side matches hold what
    they held before and, in addition, what the visited voxels show. *)
Theorem extractCells_possible_matches (gt rec : ImageStack) (s0 : State)
  (g r : Z) :
  fst (extractCells gt rec s0) = inr tt ->
  let s := snd (extractCells gt rec s0) in
  (In r (getPossibleMatchesByGt g s) <-> observed gt rec g r)
  /\ (In g (getPossibleMathesByRec r s)
      <-> In g (getPossibleMathesByRec r s0) \/ observed gt rec g r)
  /\ (In g (getGroundTruthLabels s) <-> exists r', observed gt rec g r')
  /\ (In r (getReconstructionLabels s) <-> exists g', observed gt rec g' r).
Proof.
  intros Hok. cbv zeta. rewrite (extractCells_success gt rec s0 Hok).
  destruct (visits_matches gt rec (visitedVoxels gt)
              (with_extent (width gt) (height gt) (size gt)
                 (clearPossibleMatches (with_cells (fun _ => OrdMap.empty) s0)))
              g r) as (H1 & H2 & H3 & H4).
  cbv zeta in H1, H2, H3, H4. unfold observed.
  rewrite H1, H2, H3, H4. cbn.
  repeat split; try tauto; intros [[] | H]; exact H.
Qed.

Lemma extractCells_possible_matches_witness :
  fst (extractCells twoSections twoSections (TolerantEditDistance 100)) = inr tt
  /\ (In 2 (getPossibleMatchesByGt 2
              (snd (extractCells twoSections twoSections
                      (TolerantEditDistance 100))))
      <-> observed twoSections twoSections 2 2).
Proof.
  assert (H : fst (extractCells twoSections twoSections
                     (TolerantEditDistance 100)) = inr tt) by reflexivity.
  split; [exact H|].
  exact (proj1 (extractCells_possible_matches twoSections twoSections
                  (TolerantEditDistance 100) 2 2 H)).
Defined.

(** ** The cells after extraction *)

Lemma update_update {V} (d : V) (f g : V -> V) (k : Z) (m : OrdMap.t V) :
  OrdMap.update d f k (OrdMap.update d g k m)
  = OrdMap.update d (fun x => f (g x)) k m.
Proof.
  induction m as [|[k' v] m IH]; cbn.
  - now rewrite Z.ltb_irrefl, Z.eqb_refl.
  - destruct (k <? k') eqn:E1; cbn.
    + now rewrite Z.ltb_irrefl, Z.eqb_refl.
    + destruct (k =? k') eqn:E2; cbn; rewrite E1, E2;
        [reflexivity | now rewrite IH].
Qed.

Lemma update_ext {V} (d : V) (f g : V -> V) (k : Z) (m : OrdMap.t V) :
  (forall x, f x = g x) -> OrdMap.update d f k m = OrdMap.update d g k m.
Proof.
  intros H. induction m as [|[k' v] m IH]; cbn; rewrite ?H, ?IH; reflexivity.
Qed.

(** The three writes of a visit amount to one write to the cell. *)
Lemma visitVoxel_cells (gt rec : ImageStack) (x y z : nat) (s : State) :
  _cells (visitVoxel gt rec x y z s)
  = OrdMap.update OrdMap.empty
      (OrdMap.update defaultCell
         (fun c =>
            setGroundTruthLabel (voxel gt x y z)
              (setReconstructionLabel (voxel rec x y z)
                 (add (mkLocation x y z) c)))
         (voxel gt x y z))
      (voxel rec x y z) (_cells s).
Proof.
  unfold visitVoxel, registerPossibleMatch, with_matches, with_cells.
  cbn [_cells]. rewrite !update_update. apply update_ext.
  intros m. now rewrite !update_update.
Qed.

(** An entry of an updated map is the updated entry or an entry of the map
    before. *)
Lemma In_update_inv {V} (d : V) (f : V -> V) (k : Z) (m : OrdMap.t V)
  (k' : Z) (v' : V) :
  In (k', v') (OrdMap.update d f k m) ->
  (k' = k /\ v' = f (OrdMap.at_ d k m)) \/ In (k', v') m.
Proof.
  unfold OrdMap.at_. induction m as [|[k0 v0] m IH]; cbn.
  - intros [H | []]. injection H as <- <-. now left.
  - destruct (k <? k0) eqn:E1.
    + cbn. intros [H | H]; [|now right].
      injection H as <- <-. now left.
    + destruct (k =? k0) eqn:E2; cbn.
      * intros [H | H]; [|right; now right].
        injection H as <- <-. apply Z.eqb_eq in E2. left. now split.
      * intros [H | H]; [right; now left|].
        destruct (IH H) as [H' | H']; [now left | right; now right].
Qed.

Lemma at_In_or_default {V} (d : V) (k : Z) (m : OrdMap.t V) :
  OrdMap.at_ d k m = d \/ In (k, OrdMap.at_ d k m) m.
Proof.
  unfold OrdMap.at_. destruct (OrdMap.find k m) as [v|] eqn:E.
  - right. now apply find_Some_In.
  - now left.
Qed.

(** A write to the cell under [(k, j)] keeps a property of all cells when the
    written cell has it under [(k, j)]. *)
Lemma everyCell_write (P : Z -> Z -> Cell -> Prop) (f : Cell -> Cell)
  (k j : Z) (s : State) :
  everyCell P s ->
  P k j (f (cellAt k j s)) ->
  everyCell P
    (with_cells
       (OrdMap.update OrdMap.empty (OrdMap.update defaultCell f j) k) s).
Proof.
  intros Hall Hnew k' m' j' c' Hm Hc. cbn [_cells with_cells] in Hm.
  apply In_update_inv in Hm. destruct Hm as [[-> ->] | Hm].
  - apply In_update_inv in Hc. destruct Hc as [[-> ->] | Hc].
    + exact Hnew.
    + destruct (at_In_or_default OrdMap.empty k (_cells s)) as [E | Hin].
      * rewrite E in Hc. destruct Hc.
      * exact (Hall _ _ _ _ Hin Hc).
  - exact (Hall _ _ _ _ Hm Hc).
Qed.

Lemma cellAt_everyCell (P : Z -> Z -> Cell -> Prop) (k j : Z) (s : State) :
  everyCell P s -> cellAt k j s = defaultCell \/ P k j (cellAt k j s).
Proof.
  intros Hall. unfold cellAt.
  destruct (at_In_or_default OrdMap.empty k (_cells s)) as [E | Hin].
  - left. rewrite E. reflexivity.
  - destruct (at_In_or_default defaultCell j
                (OrdMap.at_ OrdMap.empty k (_cells s))) as [E | Hin'].
    + now left.
    + right. exact (Hall _ _ _ _ Hin Hin').
Qed.

Lemma everyCell_cells (P : Z -> Z -> Cell -> Prop) (s s' : State) :
  _cells s' = _cells s -> everyCell P s -> everyCell P s'.
Proof. unfold everyCell. intros ->. auto. Qed.

Lemma extracted_visit (gt rec : ImageStack) (v : Location) (s : State) :
  In v (visitedVoxels gt) ->
  everyCell (extracted gt rec) s ->
  everyCell (extracted gt rec)
            (visitVoxel gt rec (loc_x v) (loc_y v) (loc_z v) s).
Proof.
  intros Hv Hall.
  set (gv := voxel gt (loc_x v) (loc_y v) (loc_z v)).
  set (rv := voxel rec (loc_x v) (loc_y v) (loc_z v)).
  eapply everyCell_cells.
  - rewrite visitVoxel_cells. fold gv rv.
    exact (eq_refl
             (_cells (with_cells
                (OrdMap.update OrdMap.empty
                   (OrdMap.update defaultCell
                      (fun c => setGroundTruthLabel gv
                                  (setReconstructionLabel rv
                                     (add (mkLocation (loc_x v) (loc_y v)
                                                      (loc_z v)) c)))
                      gv) rv) s))).
  - apply everyCell_write; [exact Hall|].
    assert (Hl : mkLocation (loc_x v) (loc_y v) (loc_z v) = v)
      by now destruct v.
    rewrite Hl.
    destruct (cellAt_everyCell _ rv gv s Hall) as [E | (_ & _ & Ha & _ & Hloc)].
    + rewrite E. split; [reflexivity|]. split; [reflexivity|].
      split; [reflexivity|]. split; [cbn; discriminate|].
      cbn. intros l [<- | []].
      split; [exact Hv | split; reflexivity].
    + split; [reflexivity|]. split; [reflexivity|]. split; [exact Ha|].
      split.
      * cbn. destruct (locations (cellAt rv gv s)); discriminate.
      * cbn. intros l Hin. apply in_app_iff in Hin.
        destruct Hin as [Hin | [<- | []]]; [now apply Hloc|].
        split; [exact Hv | split; reflexivity].
Qed.

Lemma extracted_visits (gt rec : ImageStack) (L : list Location) (s : State) :
  (forall v, In v L -> In v (visitedVoxels gt)) ->
  everyCell (extracted gt rec) s ->
  everyCell (extracted gt rec)
    (fold_left
       (fun s v => visitVoxel gt rec (loc_x v) (loc_y v) (loc_z v) s) L s).
Proof.
  intros HL. apply fold_left_preserves_in.
  intros s1 v Hv. apply extracted_visit, HL, Hv.
Qed.

(** The locations of all cells, before and after a write that adds [e] to
    the written value. *)
Lemma flat_map_values_update {V B} (F : V -> list B) (d : V) (f : V -> V)
  (k : Z) (m : OrdMap.t V) (e : list B) :
  F d = [] ->
  (forall v, Permutation (F (f v)) (e ++ F v)) ->
  Permutation (flat_map F (OrdMap.values (OrdMap.update d f k m)))
              (e ++ flat_map F (OrdMap.values m)).
Proof.
  intros Hd Hf. unfold OrdMap.values.
  induction m as [|[k' v] m IH]; cbn.
  - rewrite !app_nil_r. rewrite (Hf d), Hd, app_nil_r. reflexivity.
  - destruct (k <? k'); cbn.
    + rewrite (Hf d), Hd, app_nil_r. reflexivity.
    + destruct (k =? k'); cbn.
      * rewrite (Hf v). now rewrite app_assoc.
      * rewrite IH. rewrite !app_assoc.
        apply Permutation_app_tail, Permutation_app_comm.
Qed.

Lemma allLocations_eq (s : State) :
  flat_map locations (allCells s)
  = flat_map (fun m => flat_map locations (OrdMap.values m))
             (OrdMap.values (_cells s)).
Proof.
  unfold allCells, OrdMap.values.
  induction (_cells s) as [|[k m] cells IH]; cbn; [reflexivity|].
  now rewrite flat_map_app, IH.
Qed.

Lemma visit_locations (gt rec : ImageStack) (v : Location) (s : State) :
  Permutation
    (flat_map locations
       (allCells (visitVoxel gt rec (loc_x v) (loc_y v) (loc_z v) s)))
    (v :: flat_map locations (allCells s)).
Proof.
  rewrite !allLocations_eq, visitVoxel_cells.
  assert (Hl : mkLocation (loc_x v) (loc_y v) (loc_z v) = v)
    by now destruct v.
  rewrite Hl.
  apply (flat_map_values_update
           (fun m => flat_map locations (OrdMap.values m)) OrdMap.empty _ _ _
           [v]); [reflexivity|].
  intros m.
  apply (flat_map_values_update locations defaultCell _ _ _ [v]);
    [reflexivity|].
  intros c. cbn. apply Permutation_app_comm.
Qed.

Lemma visits_locations (gt rec : ImageStack) (L : list Location) (s : State) :
  Permutation
    (flat_map locations
       (allCells
          (fold_left
             (fun s v => visitVoxel gt rec (loc_x v) (loc_y v) (loc_z v) s)
             L s)))
    (L ++ flat_map locations (allCells s)).
Proof.
  revert s. induction L as [|v L IH]; intros s; cbn [fold_left app].
  - reflexivity.
  - rewrite IH, visit_locations. symmetry. apply Permutation_middle.
Qed.

Lemma extractCells_partition (gt rec : ImageStack) (s0 : State) :
  fst (extractCells gt rec s0) = inr tt ->
  let s := snd (extractCells gt rec s0) in
  everyCell (extracted gt rec) s
  /\ Permutation (flat_map locations (allCells s)) (visitedVoxels gt)
  /\ NoDup (flat_map locations (allCells s))
  /\ (_width s = width gt /\ _height s = height gt /\ _depth s = size gt).
Proof.
  intros Hok. cbv zeta. rewrite (extractCells_success gt rec s0 Hok).
  set (s1 := with_extent (width gt) (height gt) (size gt)
               (clearPossibleMatches (with_cells (fun _ => OrdMap.empty) s0))).
  assert (HP : Permutation
                 (flat_map locations
                    (allCells
                       (fold_left
                          (fun s v =>
                             visitVoxel gt rec (loc_x v) (loc_y v) (loc_z v) s)
                          (visitedVoxels gt) s1)))
                 (visitedVoxels gt)).
  { rewrite visits_locations. cbn. now rewrite app_nil_r. }
  split; [|split; [exact HP|split]].
  - apply extracted_visits; [auto|]. intros k m j c [].
  - apply (Permutation_NoDup (Permutation_sym HP)), visitedVoxels_NoDup.
  - apply (fold_left_preserves
             (fun s => _width s = width gt /\ _height s = height gt
                       /\ _depth s = size gt)).
    + intros s v H. exact H.
    + repeat split.
Qed.

(** After a successful extraction on any object the cells partition the
    visited voxels by label pair: a cell stored under [(k, j)] carries these
    two labels and no alternative, is not empty, and holds only visited
    voxels whose reconstruction label is [k] and ground-truth label [j];
    all cells together hold every visited voxel exactly once. *)
Theorem extractCells_cells (gt rec : ImageStack) (s0 : State) :
  fst (extractCells gt rec s0) = inr tt ->
  let s := snd (extractCells gt rec s0) in
  everyCell (extracted gt rec) s
  /\ Permutation (flat_map locations (allCells s)) (visitedVoxels gt)
  /\ NoDup (flat_map locations (allCells s))
  /\ (_width s = width gt /\ _height s = height gt /\ _depth s = size gt).
Proof. exact (extractCells_partition gt rec s0). Qed.

Lemma extractCells_cells_witness :
  fst (extractCells twoSections twoSections (TolerantEditDistance 100)) = inr tt
  /\ NoDup (flat_map locations
              (allCells (snd (extractCells twoSections twoSections
                                (TolerantEditDistance 100))))).
Proof.
  assert (H : fst (extractCells twoSections twoSections
                     (TolerantEditDistance 100)) = inr tt) by reflexivity.
  split; [exact H|].
  destruct (extractCells_cells twoSections twoSections
              (TolerantEditDistance 100) H) as (_ & _ & Hn & _).
  exact Hn.
Defined.

(** ** Tolerance enumeration, cell by cell *)

Lemma cellAt_write (f : Cell -> Cell) (k j k' j' : Z) (s : State) :
  cellAt k' j'
    (with_cells
       (OrdMap.update OrdMap.empty (OrdMap.update defaultCell f j) k) s)
  = if (k' =? k) && (j' =? j) then f (cellAt k j s) else cellAt k' j' s.
Proof.
  unfold cellAt; cbn [_cells with_cells].
  destruct (Z.eqb_spec k' k) as [-> | Hk]; cbn.
  - rewrite at_update_eq.
    destruct (Z.eqb_spec j' j) as [-> | Hj].
    + apply at_update_eq.
    + now apply at_update_ne.
  - now rewrite at_update_ne.
Qed.

Lemma flat_map_values_update_eq {V B} (F : V -> list B) (d : V) (f : V -> V)
  (k : Z) (m : OrdMap.t V) :
  F d = [] -> (forall v, F (f v) = F v) ->
  flat_map F (OrdMap.values (OrdMap.update d f k m))
  = flat_map F (OrdMap.values m).
Proof.
  intros Hd Hf. unfold OrdMap.values.
  induction m as [|[k' v] m IH]; cbn.
  - now rewrite Hf, Hd.
  - destruct (k <? k'); cbn; [now rewrite Hf, Hd|].
    destruct (k =? k'); cbn; [now rewrite Hf | now rewrite IH].
Qed.

Lemma sources_write (f : Cell -> Cell) (k j r : Z) (s : State) :
  (forall c, locations (f c) = locations c) ->
  sources r
    (with_cells
       (OrdMap.update OrdMap.empty (OrdMap.update defaultCell f j) k) s)
  = sources r s.
Proof.
  intros Hf. unfold sources; cbn [_cells with_cells].
  destruct (Z.eq_dec r k) as [-> | Hr].
  - rewrite at_update_eq. now apply flat_map_values_update_eq.
  - now rewrite at_update_ne.
Qed.

Lemma In_cellKeys_iff (cells : OrdMap.t (OrdMap.t Cell)) (k j : Z) :
  In (k, j) (cellKeys cells)
  <-> exists m, In (k, m) cells /\ In j (OrdMap.keys m).
Proof.
  unfold cellKeys. rewrite in_flat_map. split.
  - intros [[k' m] [Hin Hj]]. apply in_map_iff in Hj.
    destruct Hj as [j' [Heq Hj]]. cbn in Heq. injection Heq as -> ->.
    now exists m.
  - intros [m [Hin Hj]]. exists (k, m). split; [exact Hin|].
    apply in_map_iff. now exists j.
Qed.

(** An entry of a map is still there after an update, or it is the entry
    that was updated. *)
Lemma In_update_mono {V} (d : V) (f : V -> V) (k : Z) (m : OrdMap.t V)
  (k0 : Z) (v0 : V) :
  In (k0, v0) m ->
  In (k0, v0) (OrdMap.update d f k m)
  \/ (k0 = k /\ In (k0, f v0) (OrdMap.update d f k m)).
Proof.
  induction m as [|[k' v] m IH]; cbn; [tauto|].
  intros [H | H].
  - injection H as -> ->.
    destruct (k <? k0) eqn:E1; cbn; [left; right; now left|].
    destruct (k =? k0) eqn:E2; cbn.
    + apply Z.eqb_eq in E2. subst. right. split; [reflexivity | now left].
    + left. now left.
  - destruct (k <? k') eqn:E1; cbn; [left; right; now right|].
    destruct (k =? k') eqn:E2; cbn; [left; now right|].
    destruct (IH H) as [H' | [-> H']]; [left; now right|].
    right. split; [reflexivity | now right].
Qed.

(** Writing to a cell that has a key keeps the set of cell keys. *)
Lemma cellKeys_write (f : Cell -> Cell) (k j : Z)
  (cells : OrdMap.t (OrdMap.t Cell)) (kj : Z * Z) :
  In (k, j) (cellKeys cells) ->
  In kj (cellKeys
           (OrdMap.update OrdMap.empty (OrdMap.update defaultCell f j) k cells))
  <-> In kj (cellKeys cells).
Proof.
  intros Hkj. destruct kj as [k' j']. rewrite !In_cellKeys_iff. split.
  - intros [m' [Hm' Hj']]. apply In_update_inv in Hm'.
    destruct Hm' as [[-> ->] | Hm']; [|now exists m'].
    rewrite keys_update in Hj'. apply In_insert in Hj'.
    destruct Hj' as [-> | Hj'].
    + now apply In_cellKeys_iff.
    + destruct (at_In_or_default OrdMap.empty k cells) as [E | Hin].
      * rewrite E in Hj'. destruct Hj'.
      * now exists (OrdMap.at_ OrdMap.empty k cells).
  - intros [m [Hm Hj']].
    destruct (In_update_mono OrdMap.empty (OrdMap.update defaultCell f j) k
                cells k' m Hm) as [H | [-> H]].
    + now exists m.
    + exists (OrdMap.update defaultCell f j m). split; [exact H|].
      rewrite keys_update. apply In_insert. now right.
Qed.

Lemma sameVoxels_refl (s : State) : sameVoxels s s.
Proof. unfold sameVoxels. repeat split; auto. Qed.

Lemma sameVoxels_trans (s0 s1 s2 : State) :
  sameVoxels s0 s1 -> sameVoxels s1 s2 -> sameVoxels s0 s2.
Proof.
  intros (A1 & A2 & A3 & A4 & A5 & A6 & A7) (B1 & B2 & B3 & B4 & B5 & B6 & B7).
  unfold sameVoxels. repeat split; try congruence.
  - intros H. apply A6, B6, H.
  - intros H. apply B6, A6, H.
  - destruct (A7 k j) as (X & _), (B7 k j) as (Y & _). congruence.
  - destruct (A7 k j) as (_ & X & _), (B7 k j) as (_ & Y & _). congruence.
  - destruct (A7 k j) as (_ & _ & X), (B7 k j) as (_ & _ & Y). congruence.
Qed.

Lemma sameVoxels_addAlternative (r k j : Z) (s : State) :
  In (k, j) (cellKeys (_cells s)) ->
  sameVoxels s
    (with_cells
       (OrdMap.update OrdMap.empty
          (OrdMap.update defaultCell (addAlternativeLabel r) j) k) s).
Proof.
  intros Hkj. unfold sameVoxels.
  split; [reflexivity|]. split; [reflexivity|]. split; [reflexivity|].
  split; [reflexivity|]. split; [|split].
  - intros r'. now apply sources_write.
  - intros kj. cbn [_cells with_cells]. now apply cellKeys_write.
  - intros k' j'. rewrite cellAt_write.
    destruct ((k' =? k) && (j' =? j)) eqn:E; [|auto].
    apply andb_true_iff in E. destruct E as [E1 E2].
    apply Z.eqb_eq in E1, E2. subst. auto.
Qed.

Lemma sameVoxels_register (g r : Z) (s : State) :
  sameVoxels s (registerPossibleMatch g r s).
Proof. unfold sameVoxels. repeat split; auto. Qed.

Lemma sameVoxels_storedDistance (s0 s : State) (r : Z) :
  sameVoxels s0 s -> storedDistance r s = storedDistance r s0.
Proof.
  intros (A1 & A2 & A3 & _ & A5 & _). unfold storedDistance.
  fold (sources r s) (sources r s0). now rewrite A1, A2, A3, A5.
Qed.

Lemma sameVoxels_admits (s0 s : State) (k j r : Z) :
  sameVoxels s0 s -> admits s k j r = admits s0 k j r.
Proof.
  intros H. pose proof (sameVoxels_storedDistance s0 s r H) as Hd.
  destruct H as (_ & _ & _ & A4 & _ & _ & A7).
  destruct (A7 k j) as (X & _ & Z0).
  unfold admits, maxDistanceOf. now rewrite Hd, A4, X, Z0.
Qed.

Lemma matchesGrow_none (s : State) (extra : Z -> Z -> Prop) :
  (forall g r, ~ extra g r) -> matchesGrow s s extra.
Proof. intros H g r. firstorder. Qed.

Lemma matchesGrow_ext (s s' : State) (e e' : Z -> Z -> Prop) :
  (forall g r, e g r <-> e' g r) -> matchesGrow s s' e -> matchesGrow s s' e'.
Proof.
  intros Hee H g r. destruct (H g r) as (H1 & H2 & H3 & H4).
  rewrite H1, H2, H3, H4. rewrite (Hee g r).
  repeat split; try tauto.
  - intros [X | [r' X]]; [now left | right; exists r'; now apply Hee].
  - intros [X | [r' X]]; [now left | right; exists r'; now apply Hee].
  - intros [X | [g' X]]; [now left | right; exists g'; now apply Hee].
  - intros [X | [g' X]]; [now left | right; exists g'; now apply Hee].
Qed.

Lemma matchesGrow_trans (s0 s1 s2 : State) (e1 e2 : Z -> Z -> Prop) :
  matchesGrow s0 s1 e1 -> matchesGrow s1 s2 e2 ->
  matchesGrow s0 s2 (fun g r => e1 g r \/ e2 g r).
Proof.
  intros A B g r. destruct (A g r) as (A1 & A2 & A3 & A4).
  destruct (B g r) as (B1 & B2 & B3 & B4).
  rewrite B1, B2, B3, B4, A1, A2, A3, A4. clear.
  repeat split; try tauto.
  - intros [[X | [r' X]] | [r' X]]; [now left | |]; right; exists r'; tauto.
  - intros [X | [r' [X | X]]];
      [left; now left | left; right; now exists r' | right; now exists r'].
  - intros [[X | [g' X]] | [g' X]]; [now left | |]; right; exists g'; tauto.
  - intros [X | [g' [X | X]]];
      [left; now left | left; right; now exists g' | right; now exists g'].
Qed.

Lemma matchesGrow_register (g r : Z) (s : State) :
  matchesGrow s (registerPossibleMatch g r s) (fun g' r' => g' = g /\ r' = r).
Proof.
  intros g' r'.
  destruct (registerPossibleMatch_sets g r g' r' s) as (H1 & H2 & H3 & H4).
  cbv zeta in H1, H2, H3, H4. rewrite H1, H2, H3, H4. clear.
  repeat split; try tauto.
  - intros [-> | X]; [right; now exists r | now left].
  - intros [X | [x [-> _]]]; [now right | now left].
  - intros [-> | X]; [right; now exists g | now left].
  - intros [X | [x [_ ->]]]; [now right | now left].
Qed.

Lemma maxDistanceOf_locations (d : Location -> Z) (c c' : Cell) :
  locations c = locations c' -> maxDistanceOf d c = maxDistanceOf d c'.
Proof. unfold maxDistanceOf. now intros ->. Qed.

(** One step of the enumeration for label [r], read against the state [s0]
    in which the enumeration started. *)
Lemma considerCell_spec (s0 s : State) (r k j : Z) :
  sameVoxels s0 s -> In (k, j) (cellKeys (_cells s0)) ->
  let s' := considerCell r (storedDistance r s0) (k, j) s in
  sameVoxels s0 s'
  /\ (forall k' j',
        getAlternativeLabels (cellAt k' j' s')
        = if admits s0 k j r && ((k' =? k) && (j' =? j))
          then OrdSet.insert r (getAlternativeLabels (cellAt k j s))
          else getAlternativeLabels (cellAt k' j' s))
  /\ matchesGrow s s'
       (fun g' r' =>
          admits s0 k j r = true
          /\ g' = getGroundTruthLabel (cellAt k j s0) /\ r' = r).
Proof.
  intros Hsame Hkj. cbv zeta.
  pose proof Hsame as (_ & _ & _ & A4 & _ & A6 & A7).
  destruct (A7 k j) as (Hrec & Hgt & Hloc).
  assert (Hadm : admits s0 k j r
                 = negb (getReconstructionLabel (cellAt k j s) =? r)
                   && (maxDistanceOf (storedDistance r s0) (cellAt k j s)
                       <? _maxDistanceThreshold s)).
  { unfold admits.
    now rewrite Hrec, A4, (maxDistanceOf_locations _ _ _ Hloc). }
  unfold considerCell. rewrite Hadm.
  destruct (negb (getReconstructionLabel (cellAt k j s) =? r)); cbn [andb].
  2:{ split; [exact Hsame|]. split; [reflexivity|].
      apply matchesGrow_none. intros g' r' [H _]. discriminate H. }
  destruct (maxDistanceOf (storedDistance r s0) (cellAt k j s)
            <? _maxDistanceThreshold s).
  2:{ split; [exact Hsame|]. split; [reflexivity|].
      apply matchesGrow_none. intros g' r' [H _]. discriminate H. }
  set (sw := with_cells
               (OrdMap.update OrdMap.empty
                  (OrdMap.update defaultCell (addAlternativeLabel r) j) k) s).
  assert (Hkj' : In (k, j) (cellKeys (_cells s))) by now apply A6.
  assert (Hw : sameVoxels s sw) by now apply sameVoxels_addAlternative.
  assert (Hc : cellAt k j sw = addAlternativeLabel r (cellAt k j s)).
  { unfold sw. rewrite cellAt_write. now rewrite !Z.eqb_refl. }
  split; [|split].
  - eapply sameVoxels_trans; [exact Hsame|].
    eapply sameVoxels_trans; [exact Hw|]. apply sameVoxels_register.
  - intros k' j'. cbn [andb].
    change (cellAt k' j' (registerPossibleMatch
                            (getGroundTruthLabel (cellAt k j sw)) r sw))
      with (cellAt k' j' sw).
    unfold sw. rewrite cellAt_write.
    destruct ((k' =? k) && (j' =? j)); reflexivity.
  - rewrite Hc.
    change (getGroundTruthLabel (addAlternativeLabel r (cellAt k j s)))
      with (getGroundTruthLabel (cellAt k j s)).
    rewrite Hgt.
    eapply matchesGrow_ext;
      [|exact (matchesGrow_register (getGroundTruthLabel (cellAt k j s0)) r sw)].
    intros g' r'. tauto.
Qed.

Lemma admitted_cons (s : State) (k j : Z) (keys : list (Z * Z)) (g r : Z) :
  admitted s ((k, j) :: keys) g r
  <-> (admits s k j r = true /\ g = getGroundTruthLabel (cellAt k j s))
      \/ admitted s keys g r.
Proof.
  unfold admitted. split.
  - intros [k' [j' [[H | H] [Ha Hg]]]].
    + injection H as -> ->. left. now split.
    + right. now exists k', j'.
  - intros [[Ha ->] | [k' [j' [H [Ha Hg]]]]].
    + exists k, j. split; [now left | now split].
    + exists k', j'. split; [now right | now split].
Qed.

Lemma admitted_keys (s : State) (keys keys' : list (Z * Z)) (g r : Z) :
  (forall kj, In kj keys <-> In kj keys') ->
  admitted s keys g r <-> admitted s keys' g r.
Proof.
  intros H. unfold admitted.
  split; intros [k [j [Hin Hrest]]]; exists k, j; split; try exact Hrest;
    now apply H.
Qed.

(** The loop over the cells for one label [r]. *)
Lemma considerCells_spec (s0 : State) (r : Z) (keys : list (Z * Z))
  (s : State) :
  sameVoxels s0 s ->
  (forall kj, In kj keys -> In kj (cellKeys (_cells s0))) ->
  let s' := fold_left (fun s kj => considerCell r (storedDistance r s0) kj s)
                      keys s in
  sameVoxels s0 s'
  /\ (forall k j a,
        In a (getAlternativeLabels (cellAt k j s'))
        <-> In a (getAlternativeLabels (cellAt k j s))
            \/ (a = r /\ In (k, j) keys /\ admits s0 k j r = true))
  /\ matchesGrow s s' (fun g' r' => r' = r /\ admitted s0 keys g' r).
Proof.
  cbv zeta. revert s.
  induction keys as [|[k j] keys IH]; intros s Hsame Hkeys.
  - cbn [fold_left]. split; [exact Hsame|]. split.
    + intros k j a. cbn. tauto.
    + apply matchesGrow_none. intros g' r' [_ [k [j [[] _]]]].
  - cbn [fold_left].
    destruct (considerCell_spec s0 s r k j Hsame (Hkeys _ (or_introl eq_refl)))
      as (S1 & A1 & M1).
    cbv zeta in S1, A1, M1.
    destruct (IH (considerCell r (storedDistance r s0) (k, j) s) S1
                 (fun kj H => Hkeys kj (or_intror H)))
      as (S2 & A2 & M2).
    split; [exact S2|]. split.
    + intros k' j' a. rewrite A2, A1. cbn [In].
      destruct (admits s0 k j r) eqn:Ea; cbn [andb].
      * destruct (Z.eqb_spec k' k) as [-> | Hk];
          destruct (Z.eqb_spec j' j) as [-> | Hj]; cbn [andb];
          rewrite ?In_insert; intuition congruence.
      * split; [tauto|].
        intros [H | (-> & [H | H] & Ha)]; auto.
        injection H as -> ->. congruence.
    + eapply matchesGrow_ext; [|exact (matchesGrow_trans _ _ _ _ _ M1 M2)].
      intros g' r'. cbv beta. rewrite admitted_cons. intuition congruence.
Qed.

Lemma enumerateForLabel_spec (s0 : State) (r : Z) (s : State) :
  sameVoxels s0 s ->
  let s' := enumerateForLabel r s in
  sameVoxels s0 s'
  /\ (forall k j a,
        In a (getAlternativeLabels (cellAt k j s'))
        <-> In a (getAlternativeLabels (cellAt k j s))
            \/ (a = r /\ In (k, j) (cellKeys (_cells s0))
                /\ admits s0 k j r = true))
  /\ matchesGrow s s'
       (fun g' r' => r' = r /\ admitted s0 (cellKeys (_cells s0)) g' r).
Proof.
  intros Hsame. cbv zeta.
  pose proof Hsame as (_ & _ & _ & _ & _ & A6 & _).
  change (enumerateForLabel r s)
    with (fold_left (fun s1 kj => considerCell r (storedDistance r s) kj s1)
                    (cellKeys (_cells s)) s).
  rewrite (sameVoxels_storedDistance s0 s r Hsame).
  destruct (considerCells_spec s0 r (cellKeys (_cells s)) s Hsame
              (fun kj H => proj1 (A6 kj) H)) as (S1 & A1 & M1).
  cbv zeta in S1, A1, M1.
  split; [exact S1|]. split.
  - intros k j a. rewrite A1, (A6 (k, j)). reflexivity.
  - eapply matchesGrow_ext; [|exact M1].
    intros g' r'. cbv beta.
    rewrite (admitted_keys s0 _ _ g' r A6). reflexivity.
Qed.

(** The loop over the labels. *)
Lemma enumerateLabels_spec (s0 : State) (labels : list Z) (s : State) :
  sameVoxels s0 s ->
  let s' := fold_left (fun s r => enumerateForLabel r s) labels s in
  sameVoxels s0 s'
  /\ (forall k j a,
        In a (getAlternativeLabels (cellAt k j s'))
        <-> In a (getAlternativeLabels (cellAt k j s))
            \/ (In a labels /\ In (k, j) (cellKeys (_cells s0))
                /\ admits s0 k j a = true))
  /\ matchesGrow s s'
       (fun g' r' => In r' labels
                     /\ admitted s0 (cellKeys (_cells s0)) g' r').
Proof.
  cbv zeta. revert s. induction labels as [|r labels IH]; intros s Hsame.
  - cbn [fold_left]. split; [exact Hsame|]. split.
    + intros k j a. cbn. tauto.
    + apply matchesGrow_none. intros g' r' [[] _].
  - cbn [fold_left].
    destruct (enumerateForLabel_spec s0 r s Hsame) as (S1 & A1 & M1).
    cbv zeta in S1, A1, M1.
    destruct (IH (enumerateForLabel r s) S1) as (S2 & A2 & M2).
    split; [exact S2|]. split.
    + intros k j a. rewrite A2, A1. cbn [In]. intuition congruence.
    + eapply matchesGrow_ext; [|exact (matchesGrow_trans _ _ _ _ _ M1 M2)].
      intros g' r'. cbn [In]. cbv beta. intuition congruence.
Qed.

Lemma admits_true (s : State) (k j r : Z) :
  admits s k j r = true
  <-> getReconstructionLabel (cellAt k j s) <> r
      /\ maxDistanceOf (storedDistance r s) (cellAt k j s)
         < _maxDistanceThreshold s.
Proof.
  unfold admits. rewrite andb_true_iff, negb_true_iff, Z.eqb_neq, Z.ltb_lt.
  reflexivity.
Qed.

(** ** The distance array inside the exact range *)

(** An integer of at most 24 bits is a [float]. *)
Lemma toFloat_small (n : Z) : 0 <= n <= 2 ^ 24 -> toFloat n = n.
Proof.
  intros Hn. destruct (Z.eq_dec n (2 ^ 24)) as [-> | Hne]; [reflexivity|].
  unfold toFloat. rewrite (Z.abs_eq n) by lia.
  assert (Hl : Z.log2 n < 24).
  { destruct (Z.eq_dec n 0) as [-> | H0]; [cbn; lia|].
    apply Z.log2_lt_pow2; lia. }
  destruct (Z.leb_spec (Z.log2 n - 23) 0) as [_ | H]; [reflexivity | lia].
Qed.

Lemma inShape_true (w h d : nat) (l : Location) :
  inShape (w, h, d) l = true
  <-> (loc_x l < w /\ loc_y l < h /\ loc_z l < d)%nat.
Proof.
  unfold inShape. rewrite !andb_true_iff, !Nat.ltb_lt. tauto.
Qed.

(** Inside the shape, an offset stays in the buffer and addresses the voxel
    itself. *)
Lemma offset_inShape (shape : nat * nat * nat) (l : Location) :
  inShape shape l = true -> (offset shape l < bufferSize shape)%nat.
Proof.
  destruct shape as [[w h] d]. rewrite inShape_true.
  unfold offset, bufferSize. intros (Hx & Hy & Hz).
  assert (H1 : (w * (S (loc_y l)) <= w * h)%nat)
    by (apply Nat.mul_le_mono_l; lia).
  assert (H2 : (w * h * (S (loc_z l)) <= w * h * d)%nat)
    by (apply Nat.mul_le_mono_l; lia).
  lia.
Qed.

Lemma element_offset (shape : nat * nat * nat) (l : Location) :
  inShape shape l = true -> element shape (offset shape l) = l.
Proof.
  destruct shape as [[w h] d]. rewrite inShape_true.
  destruct l as [x y z]. unfold offset, element.
  cbn [loc_x loc_y loc_z]. intros (Hx & Hy & Hz).
  assert (E1 : ((x + w * y + w * h * z) mod w = x)%nat).
  { symmetry. apply (Nat.mod_unique _ _ (y + h * z)%nat); [exact Hx | nia]. }
  assert (E2 : ((x + w * y + w * h * z) / w = y + h * z)%nat).
  { symmetry. apply (Nat.div_unique _ _ _ x); [exact Hx | nia]. }
  assert (E3 : ((y + h * z) mod h = y)%nat).
  { symmetry. apply (Nat.mod_unique _ _ z); [exact Hy | nia]. }
  assert (E4 : ((x + w * y + w * h * z) / (w * h) = z)%nat).
  { assert (H1 : (w * (S y) <= w * h)%nat)
      by (apply Nat.mul_le_mono_l; lia).
    symmetry. apply (Nat.div_unique _ _ _ (x + w * y)%nat); lia. }
  now rewrite E1, E2, E3, E4.
Qed.

Lemma sq_nonneg (a : Z) : 0 <= sq a.
Proof. unfold sq. nia. Qed.

Lemma distSquared_nonneg (p : Z * Z * Z) (a b : Location) :
  0 <= distSquared p a b.
Proof.
  destruct p as [[px py] pz]. unfold distSquared.
  pose proof (sq_nonneg (px * (Z.of_nat (loc_x a) - Z.of_nat (loc_x b)))).
  pose proof (sq_nonneg (py * (Z.of_nat (loc_y a) - Z.of_nat (loc_y b)))).
  pose proof (sq_nonneg (pz * (Z.of_nat (loc_z a) - Z.of_nat (loc_z b)))).
  lia.
Qed.

(** The squared distance never exceeds the starting bound of the
    transform. *)
Lemma separableMultiDistSquared_range (shape : nat * nat * nat)
  (mask : list Location) (v : Location) :
  0 <= separableMultiDistSquared shape pitch mask v <= diagonalSquared shape.
Proof.
  destruct shape as [[w h] d].
  unfold separableMultiDistSquared, diagonalSquared, pitch.
  rewrite !Z.mul_1_l.
  pose proof (sq_nonneg (Z.of_nat w)). pose proof (sq_nonneg (Z.of_nat h)).
  pose proof (sq_nonneg (10 * Z.of_nat d)).
  induction mask as [|m mask IH]; cbn [map fold_right]; [lia|].
  pose proof (distSquared_nonneg (1, 1, 10) v m). lia.
Qed.

(** With all written voxels and the voxel read inside the shape, and the
    squared diagonal within 24 bits, the array holds the squared distance
    itself. *)
Lemma distanceArray_exact (shape : nat * nat * nat)
  (written : list Location) (l : Location) :
  (forall v, In v written -> inShape shape v = true) ->
  inShape shape l = true ->
  diagonalSquared shape <= 2 ^ 24 ->
  distanceArray shape written l
  = separableMultiDistSquared shape pitch written l.
Proof.
  intros Hw Hl Hd. unfold distanceArray.
  assert (Hmask : map (element shape)
                    (filter (fun o => (o <? bufferSize shape)%nat)
                            (map (offset shape) written))
                  = written).
  { induction written as [|v vs IH]; [reflexivity|].
    cbn [map filter].
    assert (Hv : inShape shape v = true) by (apply Hw; now left).
    pose proof (offset_inShape shape v Hv) as Ho.
    apply Nat.ltb_lt in Ho. rewrite Ho. cbn [map].
    rewrite (element_offset shape v Hv), IH; [reflexivity|].
    intros v' Hv'. apply Hw. now right. }
  rewrite Hmask.
  pose proof (offset_inShape shape l Hl) as Ho. apply Nat.ltb_lt in Ho.
  rewrite Ho, (element_offset shape l Hl).
  apply toFloat_small.
  pose proof (separableMultiDistSquared_range shape written l). lia.
Qed.

Lemma maxDistanceOf_ext (f g : Location -> Z) (c : Cell) :
  (forall l, In l (locations c) -> f l = g l) ->
  maxDistanceOf f c = maxDistanceOf g c.
Proof.
  unfold maxDistanceOf. generalize 0 as m.
  induction (locations c) as [|l ls IH]; intros m H; [reflexivity|].
  cbn [fold_left]. rewrite (H l) by now left.
  apply IH. intros l' Hl'. apply H. now right.
Qed.

Lemma cellsInShape_cell (s : State) (k j : Z) (m : OrdMap.t Cell) (c : Cell)
  (l : Location) :
  cellsInShape s -> In (k, m) (_cells s) -> In (j, c) m ->
  In l (locations c) ->
  inShape (_width s, _height s, _depth s) l = true.
Proof.
  unfold cellsInShape, allCells. rewrite forallb_forall.
  intros H Hm Hc Hl.
  assert (Hall : In c (flat_map (fun km => OrdMap.values (snd km))
                                (_cells s))).
  { apply in_flat_map. exists (k, m). split; [exact Hm|].
    cbn [snd]. unfold OrdMap.values. change c with (snd (j, c)).
    now apply in_map. }
  pose proof (H c Hall) as Hc'. rewrite forallb_forall in Hc'.
  exact (Hc' l Hl).
Qed.

Lemma cellsInShape_sources (s : State) (r : Z) (l : Location) :
  cellsInShape s -> In l (sources r s) ->
  inShape (_width s, _height s, _depth s) l = true.
Proof.
  intros H Hl. unfold sources in Hl. apply in_flat_map in Hl.
  destruct Hl as [c [Hc Hl]].
  destruct (at_In_or_default OrdMap.empty r (_cells s)) as [E | Hm].
  - rewrite E in Hc. destruct Hc.
  - unfold OrdMap.values in Hc. apply in_map_iff in Hc.
    destruct Hc as [[j c'] [Ej Hc]]. cbn [snd] in Ej. subst c'.
    exact (cellsInShape_cell s r j _ c l H Hm Hc Hl).
Qed.

Lemma cellsInShape_cellAt (s : State) (k j : Z) (l : Location) :
  cellsInShape s -> In l (locations (cellAt k j s)) ->
  inShape (_width s, _height s, _depth s) l = true.
Proof.
  intros H Hl. unfold cellAt in Hl.
  destruct (at_In_or_default OrdMap.empty k (_cells s)) as [E | Hm].
  - rewrite E in Hl. destruct Hl.
  - destruct (at_In_or_default defaultCell j
                (OrdMap.at_ OrdMap.empty k (_cells s))) as [E | Hc].
    + rewrite E in Hl. destruct Hl.
    + exact (cellsInShape_cell s k j _ _ l H Hm Hc Hl).
Qed.

(** Inside the exact range the test of the enumeration compares the squared
    distance itself with the threshold. *)
Lemma maxDistanceOf_exact (s : State) (k j r : Z) :
  cellsInShape s ->
  diagonalSquared (_width s, _height s, _depth s) <= 2 ^ 24 ->
  maxDistanceOf (storedDistance r s) (cellAt k j s)
  = maxDistanceOf (distanceMap r s) (cellAt k j s).
Proof.
  intros Hs Hd. apply maxDistanceOf_ext. intros l Hl.
  unfold storedDistance, distanceMap. fold (sources r s).
  apply distanceArray_exact; [|exact (cellsInShape_cellAt s k j l Hs Hl)|exact Hd].
  intros v Hv. exact (cellsInShape_sources s r v Hs Hv).
Qed.

Lemma admits_exact (s : State) (k j r : Z) :
  cellsInShape s ->
  exactFloats (_width s, _height s, _depth s) (_maxDistanceThreshold s) ->
  admits s k j r = true
  <-> getReconstructionLabel (cellAt k j s) <> r
      /\ maxDistanceOf (distanceMap r s) (cellAt k j s)
         < _maxDistanceThreshold s.
Proof.
  intros Hs [Hd _]. rewrite admits_true, (maxDistanceOf_exact s k j r Hs Hd).
  reflexivity.
Qed.

(** On an object whose cells lie inside the stored extent, whose squared
    distances fit the 24 bits of a [float] and whose threshold is a [float]:
    [enumerateCellLabels] changes nothing in a cell but its alternative
    labels.  Label [a] is among the alternatives of the cell under [(k, j)]
    afterwards exactly when it was before, or when [a] is a key of the cell
    map, the cell exists, its reconstruction label is not [a], and the
    largest squared distance to label [a] over the voxels of the cell is
    strictly below [_maxDistanceThreshold] (the threshold itself, compared
    with a squared distance). *)
Theorem enumerateCellLabels_alternatives (s : State) (k j a : Z) :
  cellsInShape s ->
  exactFloats (_width s, _height s, _depth s) (_maxDistanceThreshold s) ->
  let s' := enumerateCellLabels s in
  (In a (getAlternativeLabels (cellAt k j s'))
   <-> In a (getAlternativeLabels (cellAt k j s))
       \/ (In a (OrdMap.keys (_cells s))
           /\ In (k, j) (cellKeys (_cells s))
           /\ getReconstructionLabel (cellAt k j s) <> a
           /\ maxDistanceOf (distanceMap a s) (cellAt k j s)
              < _maxDistanceThreshold s))
  /\ getReconstructionLabel (cellAt k j s')
     = getReconstructionLabel (cellAt k j s)
  /\ getGroundTruthLabel (cellAt k j s') = getGroundTruthLabel (cellAt k j s)
  /\ locations (cellAt k j s') = locations (cellAt k j s).
Proof.
  intros Hs He. cbv zeta.
  destruct (enumerateLabels_spec s (OrdMap.keys (_cells s)) s
              (sameVoxels_refl s)) as (S1 & A1 & _).
  cbv zeta in S1, A1. fold (enumerateCellLabels s) in S1, A1.
  split.
  - rewrite A1, (admits_exact s k j a Hs He). tauto.
  - destruct S1 as (_ & _ & _ & _ & _ & _ & A7). exact (A7 k j).
Qed.

(** On an object whose cells lie inside the stored extent, whose squared
    distances fit the 24 bits of a [float] and whose threshold is a [float]:
    [enumerateCellLabels] registers the pair [(g, r)] exactly for the labels
    [r] that are keys of the cell map and admitted by some cell of
    ground-truth label [g]; possible matches and labels are never removed,
    and the extent and the threshold stay as they are. *)
Theorem enumerateCellLabels_matches (s : State) (g r : Z) :
  cellsInShape s ->
  exactFloats (_width s, _height s, _depth s) (_maxDistanceThreshold s) ->
  let s' := enumerateCellLabels s in
  let added g r :=
    In r (OrdMap.keys (_cells s))
    /\ exists k j,
         In (k, j) (cellKeys (_cells s))
         /\ (getReconstructionLabel (cellAt k j s) <> r
             /\ maxDistanceOf (distanceMap r s) (cellAt k j s)
                < _maxDistanceThreshold s)
         /\ getGroundTruthLabel (cellAt k j s) = g in
  (In r (getPossibleMatchesByGt g s')
   <-> In r (getPossibleMatchesByGt g s) \/ added g r)
  /\ (In g (getPossibleMathesByRec r s')
      <-> In g (getPossibleMathesByRec r s) \/ added g r)
  /\ (In g (getGroundTruthLabels s')
      <-> In g (getGroundTruthLabels s) \/ exists r', added g r')
  /\ (In r (getReconstructionLabels s')
      <-> In r (getReconstructionLabels s) \/ exists g', added g' r)
  /\ (_width s' = _width s /\ _height s' = _height s /\ _depth s' = _depth s
      /\ _maxDistanceThreshold s' = _maxDistanceThreshold s).
Proof.
  intros Hs He. cbv zeta.
  destruct (enumerateLabels_spec s (OrdMap.keys (_cells s)) s
              (sameVoxels_refl s)) as (S1 & _ & M1).
  cbv zeta in S1, M1. fold (enumerateCellLabels s) in S1, M1.
  assert (M2 : matchesGrow s (enumerateCellLabels s)
                 (fun g r =>
                    In r (OrdMap.keys (_cells s))
                    /\ exists k j,
                         In (k, j) (cellKeys (_cells s))
                         /\ (getReconstructionLabel (cellAt k j s) <> r
                             /\ maxDistanceOf (distanceMap r s) (cellAt k j s)
                                < _maxDistanceThreshold s)
                         /\ getGroundTruthLabel (cellAt k j s) = g)).
  { eapply matchesGrow_ext; [|exact M1]. intros g' r'. cbv beta.
    unfold admitted. split.
    - intros [Hk [k [j [Hin [Ha Hg]]]]]. split; [exact Hk|].
      exists k, j. rewrite <- (admits_exact s k j r' Hs He). now repeat split.
    - intros [Hk [k [j [Hin [Ha Hg]]]]]. split; [exact Hk|].
      exists k, j. rewrite (admits_exact s k j r' Hs He). now repeat split. }
  destruct (M2 g r) as (H1 & H2 & H3 & H4).
  split; [exact H1|]. split; [exact H2|]. split; [exact H3|].
  split; [exact H4|].
  destruct S1 as (B1 & B2 & B3 & B4 & _). now repeat split.
Qed.

Lemma enumerateCellLabels_alternatives_witness :
  cellsInShape extractedSections
  /\ exactFloats (_width extractedSections, _height extractedSections,
                  _depth extractedSections)
                 (_maxDistanceThreshold extractedSections)
  /\ In 2 (getAlternativeLabels
             (cellAt 1 1 (enumerateCellLabels extractedSections))).
Proof.
  assert (Hs : cellsInShape extractedSections) by reflexivity.
  assert (He : exactFloats (_width extractedSections,
                            _height extractedSections,
                            _depth extractedSections)
                           (_maxDistanceThreshold extractedSections)).
  { split; [vm_compute; discriminate | reflexivity]. }
  split; [exact Hs|split; [exact He|]].
  apply (proj1 (enumerateCellLabels_alternatives extractedSections 1 1 2
                  Hs He)).
  right. vm_compute. intuition discriminate.
Defined.

Lemma enumerateCellLabels_matches_witness :
  cellsInShape extractedSections
  /\ exactFloats (_width extractedSections, _height extractedSections,
                  _depth extractedSections)
                 (_maxDistanceThreshold extractedSections)
  /\ In 2 (getPossibleMatchesByGt 1 (enumerateCellLabels extractedSections)).
Proof.
  assert (Hs : cellsInShape extractedSections) by reflexivity.
  assert (He : exactFloats (_width extractedSections,
                            _height extractedSections,
                            _depth extractedSections)
                           (_maxDistanceThreshold extractedSections)).
  { split; [vm_compute; discriminate | reflexivity]. }
  split; [exact Hs|split; [exact He|]].
  apply (proj1 (enumerateCellLabels_matches extractedSections 1 2 Hs He)).
  right. split; [vm_compute; tauto|]. exists 1, 1.
  vm_compute. intuition discriminate.
Defined.

(** ** The cells after the first two passes *)

Lemma at_In_wf {V} (d : V) (k : Z) (v : V) (m : OrdMap.t V) :
  OrdMap.wf m -> In (k, v) m -> OrdMap.at_ d k m = v.
Proof.
  unfold OrdMap.wf, OrdMap.keys, OrdMap.at_.
  induction m as [|[k0 v0] m IH]; intros Hwf Hin; [destruct Hin|].
  cbn [map fst] in Hwf. inversion Hwf as [|? ? Hwf' Hlt]; subst.
  cbn [OrdMap.find]. destruct Hin as [H | H].
  - injection H as -> ->. now rewrite Z.ltb_irrefl, Z.eqb_refl.
  - assert (Hk : k0 < k).
    { rewrite Forall_forall in Hlt. apply Hlt.
      change k with (fst (k, v)). now apply in_map. }
    assert (E1 : (k <? k0) = false) by (apply Z.ltb_ge; lia).
    assert (E2 : (k =? k0) = false) by (apply Z.eqb_neq; lia).
    rewrite E1, E2. now apply IH.
Qed.

Lemma wf_update {V} (d : V) (f : V -> V) (k : Z) (m : OrdMap.t V) :
  OrdMap.wf m -> OrdMap.wf (OrdMap.update d f k m).
Proof.
  unfold OrdMap.wf. rewrite keys_update. apply wf_insert.
Qed.

Lemma cellsWf_write (f : Cell -> Cell) (k j : Z) (s s' : State) :
  _cells s'
  = OrdMap.update OrdMap.empty (OrdMap.update defaultCell f j) k (_cells s) ->
  cellsWf s -> cellsWf s'.
Proof.
  intros E [Hout Hin]. unfold cellsWf. rewrite E. split.
  - now apply wf_update.
  - intros k' m' Hm'. apply In_update_inv in Hm'.
    destruct Hm' as [[-> ->] | Hm']; [|exact (Hin _ _ Hm')].
    apply wf_update.
    destruct (at_In_or_default OrdMap.empty k (_cells s)) as [E' | H].
    + rewrite E'. constructor.
    + exact (Hin _ _ H).
Qed.

Lemma cellsWf_considerCell (r : Z) (distance : Location -> Z) (kj : Z * Z)
  (s : State) :
  cellsWf s -> cellsWf (considerCell r distance kj s).
Proof.
  intros H. unfold considerCell. destruct kj as [k j].
  destruct (negb (getReconstructionLabel (cellAt k j s) =? r)); [|exact H].
  destruct (maxDistanceOf distance (cellAt k j s) <? _maxDistanceThreshold s);
    [|exact H].
  now apply (cellsWf_write (addAlternativeLabel r) k j s).
Qed.

Lemma cellsWf_enumerateCellLabels (s : State) :
  cellsWf s -> cellsWf (enumerateCellLabels s).
Proof.
  unfold enumerateCellLabels. apply fold_left_preserves. intros s1 r.
  unfold enumerateForLabel. apply fold_left_preserves. intros s2 kj.
  apply cellsWf_considerCell.
Qed.

Lemma cellsWf_extracted (gt rec : ImageStack) (s0 : State) :
  fst (extractCells gt rec s0) = inr tt ->
  cellsWf (snd (extractCells gt rec s0)).
Proof.
  intros Hok. rewrite (extractCells_success gt rec s0 Hok).
  apply fold_left_preserves.
  - intros s v. apply cellsWf_write with (1 := visitVoxel_cells gt rec _ _ _ s).
  - split; [constructor | intros k m []].
Qed.

Lemma cellsIndexed_extracted (gt rec : ImageStack) (s0 : State) :
  fst (extractCells gt rec s0) = inr tt ->
  cellsIndexed (snd (extractCells gt rec s0)).
Proof.
  rewrite extractCells_unfold. destruct (sameExtent gt rec); [|discriminate].
  intros _. cbn [snd]. apply cellsIndexed_extractLoop.
  split; [reflexivity | constructor].
Qed.

Lemma extractCells_everyCell (gt rec : ImageStack) (s0 : State) :
  fst (extractCells gt rec s0) = inr tt ->
  everyCell (extracted gt rec) (snd (extractCells gt rec s0)).
Proof.
  intros Hok. rewrite (extractCells_success gt rec s0 Hok).
  apply extracted_visits; [auto|]. intros k m j c [].
Qed.

Lemma stored_cellAt (s : State) (k j : Z) (m : OrdMap.t Cell) (c : Cell) :
  cellsWf s -> In (k, m) (_cells s) -> In (j, c) m -> cellAt k j s = c.
Proof.
  intros [Hout Hin] Hm Hc. unfold cellAt.
  rewrite (at_In_wf OrdMap.empty k m (_cells s) Hout Hm).
  exact (at_In_wf defaultCell j c m (Hin _ _ Hm) Hc).
Qed.

Lemma cellKeys_stored (s : State) (k j : Z) :
  cellsWf s -> In (k, j) (cellKeys (_cells s)) ->
  exists m, In (k, m) (_cells s) /\ In (j, cellAt k j s) m.
Proof.
  intros Hwf Hkj. apply In_cellKeys_iff in Hkj. destruct Hkj as [m [Hm Hj]].
  exists m. split; [exact Hm|].
  unfold OrdMap.keys in Hj. apply in_map_iff in Hj.
  destruct Hj as [[j' c] [Hj Hc]]. cbn in Hj. subst j'.
  now rewrite (stored_cellAt s k j m c Hwf Hm Hc).
Qed.

Lemma extractCells_extent (gt rec : ImageStack) (s0 : State) :
  fst (extractCells gt rec s0) = inr tt ->
  let s := snd (extractCells gt rec s0) in
  _width s = width gt /\ _height s = height gt /\ _depth s = size gt
  /\ _maxDistanceThreshold s = _maxDistanceThreshold s0.
Proof.
  intros Hok. cbv zeta. rewrite (extractCells_success gt rec s0 Hok).
  apply (fold_left_preserves
           (fun s => _width s = width gt /\ _height s = height gt
                     /\ _depth s = size gt
                     /\ _maxDistanceThreshold s = _maxDistanceThreshold s0)).
  - intros s v H. exact H.
  - repeat split.
Qed.

(** When the sections are at least as high as wide, extraction visits voxels
    of the volume only. *)
Lemma extractCells_cellsInShape (gt rec : ImageStack) (s0 : State) :
  fst (extractCells gt rec s0) = inr tt ->
  (width gt <= height gt)%nat ->
  cellsInShape (snd (extractCells gt rec s0)).
Proof.
  intros Hok Hwh.
  pose proof (extractCells_everyCell gt rec s0 Hok) as Hext.
  destruct (extractCells_extent gt rec s0 Hok) as (E1 & E2 & E3 & _).
  unfold cellsInShape. rewrite E1, E2, E3. apply forallb_forall.
  intros c Hc. unfold allCells in Hc. apply in_flat_map in Hc.
  destruct Hc as [[k m] [Hm Hc]]. cbn [snd] in Hc.
  unfold OrdMap.values in Hc. apply in_map_iff in Hc.
  destruct Hc as [[j c'] [Ec Hc]]. cbn [snd] in Ec. subst c'.
  destruct (Hext k m j c Hm Hc) as (_ & _ & _ & _ & Hl).
  apply forallb_forall. intros l Hin.
  destruct (Hl l Hin) as [Hv _]. apply In_visitedVoxels in Hv.
  apply inShape_true. lia.
Qed.

(** After a successful extraction (on any object) from sections at least as
    high as wide, in a volume whose squared distances fit the 24 bits of a
    [float] and with a [float] threshold, and after the enumeration: every
    cell stored under [(k, j)] still has the labels [k] and [j] and the
    voxels it had after extraction; its own label [k] is not among its
    alternatives; its alternatives are exactly the other reconstruction
    labels whose squared distance stays strictly below the threshold on all
    its voxels; and every alternative is registered as a possible match of
    the cell's ground-truth label, in both maps. *)
Theorem first_passes_cells (gt rec : ImageStack) (s0 : State) :
  fst (extractCells gt rec s0) = inr tt ->
  (width gt <= height gt)%nat ->
  exactFloats (width gt, height gt, size gt) (_maxDistanceThreshold s0) ->
  let s := snd (extractCells gt rec s0) in
  let s' := enumerateCellLabels s in
  everyCell
    (fun k j c' =>
       getReconstructionLabel c' = k /\ getGroundTruthLabel c' = j
       /\ locations c' = locations (cellAt k j s)
       /\ ~ In k (getAlternativeLabels c')
       /\ (forall a,
             In a (getAlternativeLabels c')
             <-> In a (getReconstructionLabels s) /\ a <> k
                 /\ maxDistanceOf (distanceMap a s) (cellAt k j s)
                    < _maxDistanceThreshold s)
       /\ (forall a,
             In a (getAlternativeLabels c') ->
             In a (getPossibleMatchesByGt j s')
             /\ In j (getPossibleMathesByRec a s')))
    s'.
Proof.
  intros Hok Hwh Hex s s' k m j c' Hm Hc'.
  pose proof (extractCells_cellsInShape gt rec s0 Hok Hwh) as Hs. fold s in Hs.
  assert (He : exactFloats (_width s, _height s, _depth s)
                           (_maxDistanceThreshold s)).
  { destruct (extractCells_extent gt rec s0 Hok) as (X1 & X2 & X3 & X4).
    fold s in X1, X2, X3, X4. now rewrite X1, X2, X3, X4. }
  pose proof (cellsWf_extracted gt rec s0 Hok) as Hwf. fold s in Hwf.
  pose proof (cellsWf_enumerateCellLabels s Hwf) as Hwf'. fold s' in Hwf'.
  destruct (cellsIndexed_extracted gt rec s0 Hok) as [Hkeys _]. fold s in Hkeys.
  pose proof (extractCells_everyCell gt rec s0 Hok) as Hext. fold s in Hext.
  destruct (enumerateLabels_spec s (OrdMap.keys (_cells s)) s
              (sameVoxels_refl s)) as (S1 & A1 & M1).
  cbv zeta in S1, A1, M1. fold (enumerateCellLabels s) in S1, A1, M1.
  fold s' in S1, A1, M1.
  pose proof S1 as (_ & _ & _ & _ & _ & A6 & A7).
  assert (Hc : cellAt k j s' = c') by exact (stored_cellAt s' k j m c' Hwf' Hm Hc').
  assert (Hkj : In (k, j) (cellKeys (_cells s))).
  { apply A6, In_cellKeys_iff. exists m. split; [exact Hm|].
    change j with (fst (j, c')). now apply in_map. }
  destruct (cellKeys_stored s k j Hwf Hkj) as [m0 [Hm0 Hc0]].
  destruct (Hext k m0 j (cellAt k j s) Hm0 Hc0) as (E1 & E2 & E3 & _).
  destruct (A7 k j) as (R1 & R2 & R3). rewrite Hc in R1, R2, R3.
  assert (Halt : forall a,
             In a (getAlternativeLabels c')
             <-> In a (getReconstructionLabels s) /\ a <> k
                 /\ maxDistanceOf (distanceMap a s) (cellAt k j s)
                    < _maxDistanceThreshold s).
  { intros a. rewrite <- Hc, A1, E3, (admits_exact s k j a Hs He), E1, Hkeys.
    unfold getReconstructionLabels. cbn [In OrdSet.empty].
    intuition congruence. }
  split; [congruence|]. split; [congruence|]. split; [exact R3|].
  split; [|split; [exact Halt|]].
  - intros Hin. apply Halt in Hin. tauto.
  - intros a Ha. apply Halt in Ha. destruct Ha as (Hr & Hne & Hd).
    assert (Hadd : In a (OrdMap.keys (_cells s))
                   /\ admitted s (cellKeys (_cells s)) j a).
    { split; [now rewrite Hkeys|]. exists k, j.
      split; [exact Hkj|]. split; [|exact E2].
      apply (admits_exact s k j a Hs He). split; [congruence | exact Hd]. }
    destruct (M1 j a) as (H1 & H2 & _).
    split; [apply H1 | apply H2]; now right.
Qed.

(** ** The program mentions allocated variables only *)

Lemma coefficient_fold_support (a : Z) (vs : list Z) (c0 : LinearConstraint)
  (v : Z) :
  coefficient (fold_left (fun c x => setCoefficient x a c) vs c0) v <> 0 ->
  In v vs \/ coefficient c0 v <> 0.
Proof.
  revert c0. induction vs as [|x vs IH]; intros c0 H; cbn [fold_left] in H.
  - now right.
  - destruct (IH _ H) as [Hin | Hc]; [left; now right|].
    rewrite coefficient_setCoefficient in Hc.
    destruct (Z.eqb_spec v x) as [E | Hne];
      [left; left; now rewrite E | now right].
Qed.

Lemma coverageConstraint_support (b e v : Z) :
  coefficient (coverageConstraint b e) v <> 0 -> b <= v < e.
Proof.
  unfold coverageConstraint.
  rewrite coefficient_setValue, coefficient_setRelation. intros H.
  apply coefficient_fold_support in H. destruct H as [H | H].
  - now apply In_range.
  - now rewrite coefficient_new in H.
Qed.

Lemma survivalConstraint_support (vs : list Z) (v : Z) :
  coefficient (survivalConstraint vs) v <> 0 -> In v vs.
Proof.
  unfold survivalConstraint.
  rewrite coefficient_setValue, coefficient_setRelation. intros H.
  apply coefficient_fold_support in H. destruct H as [H | H]; [exact H|].
  now rewrite coefficient_new in H.
Qed.

Lemma activationConstraints_support (m : Z) (vs : list Z) (c : LinearConstraint)
  (v : Z) :
  In c (activationConstraints m vs) -> coefficient c v <> 0 ->
  v = m \/ In v vs.
Proof.
  unfold activationConstraints. rewrite in_app_iff. intros [Hc | [<- | []]] H.
  - apply in_map_iff in Hc. destruct Hc as [x [<- Hx]].
    unfold matchConstraint in H.
    rewrite coefficient_setValue, coefficient_setRelation,
      !coefficient_setCoefficient, coefficient_new in H.
    destruct (Z.eqb_spec v x) as [E | Hvx]; [right; now rewrite E|].
    destruct (Z.eqb_spec v m) as [E | Hvm]; [left; exact E | contradiction].
  - unfold noMatchConstraint in H.
    rewrite coefficient_setValue, coefficient_setRelation,
      coefficient_setCoefficient in H.
    destruct (Z.eqb_spec v m) as [E | Hvm]; [left; exact E|].
    apply coefficient_fold_support in H. destruct H as [H | H]; [now right|].
    now rewrite coefficient_new in H.
Qed.

Lemma countMatches_support (x : Z) (ms : list Z) (v : Z) :
  coefficient (countMatches x ms) v <> 0 -> v = x \/ In v ms.
Proof.
  unfold countMatches.
  rewrite coefficient_setValue, coefficient_setRelation. intros H.
  apply coefficient_fold_support in H. destruct H as [H | H]; [now right|].
  rewrite coefficient_setCoefficient, coefficient_new in H.
  destruct (Z.eqb_spec v x) as [E | Hvx]; [left; exact E | contradiction].
Qed.

Lemma positive_support (x v : Z) :
  coefficient (positive x) v <> 0 -> v = x.
Proof.
  unfold positive.
  rewrite coefficient_setValue, coefficient_setRelation,
    coefficient_setCoefficient, coefficient_new.
  destruct (Z.eqb_spec v x) as [E | Hvx]; [intros _; exact E | contradiction].
Qed.

Lemma sumOf_support (total b e v : Z) :
  coefficient (sumOf total b e) v <> 0 -> v = total \/ b <= v < e.
Proof.
  unfold sumOf.
  rewrite coefficient_setValue, coefficient_setRelation. intros H.
  apply coefficient_fold_support in H. destruct H as [H | H].
  - right. now apply In_range.
  - rewrite coefficient_setCoefficient, coefficient_new in H.
    destruct (Z.eqb_spec v total) as [E | Hvx];
      [left; exact E | contradiction].
Qed.

Lemma In_coverageConstraints (b : Z) (cells : list Cell) (c : LinearConstraint) :
  In c (coverageConstraints b cells) ->
  exists b' e',
    c = coverageConstraint b' e' /\ b <= b'
    /\ e' <= b + Z.of_nat (length (indicatorLabels cells)).
Proof.
  revert b. induction cells as [|x cells IH]; intros b;
    cbn [coverageConstraints In]; [tauto|].
  rewrite indicatorLabels_cons, length_app, length_map.
  intros [<- | H].
  - eexists _, _. split; [reflexivity|]. lia.
  - destruct (IH _ H) as [b' [e' [-> [H1 H2]]]].
    exists b', e'. split; [reflexivity|]. lia.
Qed.

Lemma readyForProgram_parts (s : State) :
  readyForProgram s ->
  matchSetsWf s /\ mergeSetsWf s /\ matchesWithinPairs s
  /\ _indicatorVarsByRecLabel s = OrdMap.empty
  /\ _indicatorVarsByGtToRecLabel s = OrdMap.empty.
Proof.
  intros H. destruct (readyForProgram_sets s H) as (H1 & H2 & H3).
  destruct H as (_ & _ & _ & _ & _ & _ & F1 & F2).
  exact (conj H1 (conj H2 (conj H3 (conj F1 F2)))).
Qed.

(** On an object that is ready for the builder (as in a first run), every
    variable that occurs in a constraint with a coefficient other than 0 is
    one of the allocated variables [0 .. numVariables - 1]. *)
Theorem findBestCellLabels_mentions_allocated (s : State)
  (c : LinearConstraint) (v : Z) :
  readyForProgram s ->
  let p := findBestCellLabels s in
  In c (linearConstraints p) -> coefficient c v <> 0 ->
  0 <= v < numVariables p.
Proof.
  intros Hready p Hc Hv.
  destruct (readyForProgram_parts s Hready) as (Hwf & Hmwf & Hsub & F1 & F2).
  pose proof (possibleMatches_NoDup s Hwf) as Hnd.
  pose proof (numIndicators_nonneg s) as H0.
  pose proof (numIndicators_le_splitBegin s) as H1.
  pose proof (splitBegin_le_totalSplits s) as H2.
  pose proof (mergeBegin_le_totalMerges s) as H3.
  unfold mergeBegin in H3.
  unfold p in *. rewrite findBestCellLabels_eq in Hc |- *.
  cbn [linearConstraints numVariables] in Hc |- *.
  rewrite !in_app_iff in Hc.
  destruct Hc as [Hc | [Hc | [Hc | [Hc | Hc]]]].
  - (* coverage *)
    apply In_coverageConstraints in Hc.
    destruct Hc as [b' [e' [-> [Hb He]]]].
    apply coverageConstraint_support in Hv.
    unfold numIndicators in *. lia.
  - (* survival *)
    unfold survivalSection in Hc. apply in_map_iff in Hc.
    destruct Hc as [r [<- _]].
    rewrite (getIndicatorsByRec_fresh s r F1) in Hv.
    apply survivalConstraint_support, indicatorsWithLabel_bounds in Hv. lia.
  - (* activation *)
    rewrite (activationSection_layout s F2 Hwf) in Hc.
    apply in_flat_map in Hc. destruct Hc as [[g r] [Hgr Hc]]. cbn [fst snd] in Hc.
    destruct (activationConstraints_support _ _ _ _ Hc Hv) as [-> | Hin].
    + pose proof (matchVariable_bounds s g r Hgr). lia.
    + apply indicatorsGtToRec_bounds in Hin. lia.
  - (* splits *)
    unfold splitSection in Hc. apply in_app_iff in Hc.
    destruct Hc as [Hc | [<- | []]].
    + apply in_flat_map in Hc. destruct Hc as [[x g] [Hx Hc]].
      apply In_numbered in Hx. destruct Hx as [Hx Hg].
      fold (totalSplits s) in Hx.
      destruct Hc as [<- | [<- | []]].
      * apply positive_support in Hv. cbn in Hv. lia.
      * apply countMatches_support in Hv. cbn [fst snd] in Hv.
        destruct Hv as [-> | Hin]; [lia|].
        rewrite (splitMatchVars_layout s g Hwf Hg) in Hin.
        apply in_map_iff in Hin. destruct Hin as [r [<- Hr]].
        assert (Hb : numIndicators s <= matchVariable s g r < splitBegin s)
          by (apply matchVariable_bounds, In_possibleMatches; now split).
        lia.
    + apply sumOf_support in Hv. lia.
  - (* merges *)
    unfold mergeSection in Hc. apply in_app_iff in Hc.
    destruct Hc as [Hc | [<- | []]].
    + apply in_flat_map in Hc. destruct Hc as [[x r] [Hx Hc]].
      apply In_numbered in Hx. destruct Hx as [Hx Hr].
      fold (totalMerges s) in Hx. unfold mergeBegin in Hx.
      destruct Hc as [<- | [<- | []]].
      * apply positive_support in Hv. cbn in Hv. lia.
      * apply countMatches_support in Hv. cbn [fst snd] in Hv.
        destruct Hv as [-> | Hin]; [lia|].
        rewrite (mergeMatchVars_layout s r Hwf Hsub Hr) in Hin.
        apply in_map_iff in Hin. destruct Hin as [g [<- Hg]].
        assert (Hb : numIndicators s <= matchVariable s g r < splitBegin s)
          by (apply matchVariable_bounds, In_possibleMatches;
              now apply Hsub).
        lia.
    + apply sumOf_support in Hv. unfold mergeBegin in Hv. lia.
Qed.

Lemma fold_left_related {A B} (R : A -> A -> Prop) (f : A -> B -> A)
  (l : list B) (a a' : A) :
  (forall x y b, R x y -> R (f x b) (f y b)) ->
  R a a' -> R (fold_left f l a) (fold_left f l a').
Proof.
  intros Hf. revert a a'. induction l as [|b l IH]; intros a a' H; cbn;
    [exact H | apply IH, Hf, H].
Qed.

(** ** A first run, and runs on a used object *)

(** Whatever the two stacks are, after [extractCells] and
    [enumerateCellLabels] on a newly constructed object the label sets and
    the sets of possible matches are strictly ascending, the two maps of
    possible matches mirror each other and mention registered labels only,
    and no indicator is registered. *)
Theorem first_run_readyForProgram (T : Z) (gt rec : ImageStack) :
  readyForProgram (afterEnumeration T gt rec).
Proof. exact (afterEnumeration_ready T gt rec). Qed.

(** After a successful extraction (on any object) and the enumeration, the
    cells that the first loop of the builder reaches, going through the
    reconstruction labels and the cells stored under each, are all the cells
    of the object, in the order of the cell map. *)
Theorem builder_reaches_every_cell (s0 : State) (gt rec : ImageStack) :
  fst (extractCells gt rec s0) = inr tt ->
  let s := enumerateCellLabels (snd (extractCells gt rec s0)) in
  cellsInOrder s = allCells s.
Proof.
  intros Hok. cbv zeta. apply cellsIndexed_cellsInOrder.
  apply cellsIndexed_enumerateCellLabels.
  now apply cellsIndexed_extracted.
Qed.

Lemma builder_reaches_every_cell_witness :
  fst (extractCells twoSections twoSections (TolerantEditDistance 101)) = inr tt
  /\ cellsInOrder relabelledSections = allCells relabelledSections.
Proof.
  assert (H : fst (extractCells twoSections twoSections
                     (TolerantEditDistance 101)) = inr tt) by reflexivity.
  split; [exact H|].
  exact (builder_reaches_every_cell (TolerantEditDistance 101)
           twoSections twoSections H).
Defined.

Lemma findBestCellLabels_mentions_allocated_witness :
  readyForProgram relabelledSections
  /\ In (mkLinearConstraint [(4, -1); (5, -1); (8, 1)] Equal (-1))
        (linearConstraints (findBestCellLabels relabelledSections))
  /\ coefficient (mkLinearConstraint [(4, -1); (5, -1); (8, 1)] Equal (-1)) 8
     <> 0
  /\ 0 <= 8 < numVariables (findBestCellLabels relabelledSections).
Proof.
  assert (H : readyForProgram relabelledSections)
    by exact (afterEnumeration_ready 101 twoSections twoSections).
  assert (Hin : In (mkLinearConstraint [(4, -1); (5, -1); (8, 1)] Equal (-1))
                   (linearConstraints (findBestCellLabels relabelledSections))).
  { vm_compute. tauto. }
  assert (Hc : coefficient
                 (mkLinearConstraint [(4, -1); (5, -1); (8, 1)] Equal (-1)) 8
               <> 0).
  { vm_compute. discriminate. }
  split; [exact H|split; [exact Hin|split; [exact Hc|]]].
  exact (findBestCellLabels_mentions_allocated relabelledSections _ 8 H Hin Hc).
Defined.

Lemma first_passes_cells_witness :
  fst (extractCells twoSections twoSections (TolerantEditDistance 101)) = inr tt
  /\ (width twoSections <= height twoSections)%nat
  /\ exactFloats (width twoSections, height twoSections, size twoSections)
                 (_maxDistanceThreshold (TolerantEditDistance 101))
  /\ everyCell (fun k j c => ~ In k (getAlternativeLabels c))
       (enumerateCellLabels
          (snd (extractCells twoSections twoSections
                  (TolerantEditDistance 101)))).
Proof.
  assert (H : fst (extractCells twoSections twoSections
                     (TolerantEditDistance 101)) = inr tt) by reflexivity.
  assert (Hwh : (width twoSections <= height twoSections)%nat)
    by (cbn; lia).
  assert (Hex : exactFloats
                  (width twoSections, height twoSections, size twoSections)
                  (_maxDistanceThreshold (TolerantEditDistance 101))).
  { split; [vm_compute; discriminate | reflexivity]. }
  split; [exact H|split; [exact Hwh|split; [exact Hex|]]].
  pose proof (first_passes_cells twoSections twoSections
                (TolerantEditDistance 101) H Hwh Hex) as W.
  cbv zeta in W.
  intros k m j c Hm Hc.
  exact (proj1 (proj2 (proj2 (proj2 (W k m j c Hm Hc))))).
Defined.

(** The cells, the label sets, the ground-truth-side matches and the extent
    that a successful extraction leaves do not depend on the object it was
    run on. *)
Theorem extractCells_forgets_history (gt rec : ImageStack) (s0 t0 : State) :
  fst (extractCells gt rec s0) = inr tt ->
  let s := snd (extractCells gt rec s0) in
  let t := snd (extractCells gt rec t0) in
  _cells s = _cells t
  /\ _groundTruthLabels s = _groundTruthLabels t
  /\ _reconstructionLabels s = _reconstructionLabels t
  /\ _possibleGroundTruthMatches s = _possibleGroundTruthMatches t
  /\ (_width s, _height s, _depth s) = (_width t, _height t, _depth t).
Proof.
  intros Hok. cbv zeta.
  assert (Hok' : fst (extractCells gt rec t0) = inr tt).
  { rewrite extractCells_unfold in Hok |- *.
    destruct (sameExtent gt rec); [reflexivity | discriminate]. }
  rewrite (extractCells_success gt rec s0 Hok),
    (extractCells_success gt rec t0 Hok').
  apply (fold_left_related
           (fun s t =>
              _cells s = _cells t
              /\ _groundTruthLabels s = _groundTruthLabels t
              /\ _reconstructionLabels s = _reconstructionLabels t
              /\ _possibleGroundTruthMatches s = _possibleGroundTruthMatches t
              /\ (_width s, _height s, _depth s)
                 = (_width t, _height t, _depth t))).
  - intros s t v (H1 & H2 & H3 & H4 & H5).
    rewrite !visitVoxel_cells, H1.
    unfold visitVoxel, registerPossibleMatch, with_matches, with_cells.
    cbn [_groundTruthLabels _reconstructionLabels _possibleGroundTruthMatches
         _width _height _depth].
    now rewrite H2, H3, H4, H5.
  - repeat split.
Qed.

Lemma extractCells_forgets_history_witness :
  fst (extractCells twoSections twoSections relabelledSections) = inr tt
  /\ _cells (snd (extractCells twoSections twoSections relabelledSections))
     = _cells (snd (extractCells twoSections twoSections
                      (TolerantEditDistance 100))).
Proof.
  assert (H : fst (extractCells twoSections twoSections relabelledSections)
              = inr tt) by reflexivity.
  split; [exact H|].
  exact (proj1 (extractCells_forgets_history twoSections twoSections
                  relabelledSections (TolerantEditDistance 100) H)).
Defined.

(** [updateOutputs] runs the three passes in order; when the extents of the
    two stacks differ it throws [SizeMismatchError] before the enumeration
    and the builder run, and leaves the object untouched. *)
Theorem updateOutputs_outcome (gt rec : ImageStack) (s0 : State) :
  (size gt = size rec /\ width gt = width rec /\ height gt = height rec ->
   let p := findBestCellLabels
              (enumerateCellLabels (snd (extractCells gt rec s0))) in
   updateOutputs gt rec s0 = (inr p, after p))
  /\ (size gt <> size rec \/ width gt <> width rec \/ height gt <> height rec ->
      updateOutputs gt rec s0 = (inl SizeMismatchError, s0)).
Proof.
  unfold updateOutputs, bind.
  rewrite <- sameExtent_true, <- sameExtent_false, extractCells_unfold.
  split; intros H; rewrite H; reflexivity.
Qed.

Lemma updateOutputs_outcome_witness :
  (size (uniformStack 1 2 2 7) <> size (uniformStack 1 2 3 7)
   \/ width (uniformStack 1 2 2 7) <> width (uniformStack 1 2 3 7)
   \/ height (uniformStack 1 2 2 7) <> height (uniformStack 1 2 3 7))
  /\ updateOutputs (uniformStack 1 2 2 7) (uniformStack 1 2 3 7)
                   relabelledSections
     = (inl SizeMismatchError, relabelledSections).
Proof.
  assert (H : size (uniformStack 1 2 2 7) <> size (uniformStack 1 2 3 7)
              \/ width (uniformStack 1 2 2 7) <> width (uniformStack 1 2 3 7)
              \/ height (uniformStack 1 2 2 7) <> height (uniformStack 1 2 3 7))
    by (right; right; cbn; lia).
  split; [exact H|].
  exact (proj2 (updateOutputs_outcome (uniformStack 1 2 2 7)
                  (uniformStack 1 2 3 7) relabelledSections) H).
Defined.

(** ** Extraction: the size check and the cells it leads to *)

(** C4.  [extractCells] throws [SizeMismatchError] exactly when the two
    stacks differ in depth, width or height.  When all three agree it throws
    nothing, and the cell collection is produced: the cell stored under a
    label pair carries these labels, no alternative, and the visited voxels
    with these labels; the cells hold every visited voxel exactly once; and
    the stored extent is that of the ground truth. *)
Theorem extractCells_size_mismatch_iff (gt rec : ImageStack) (s : State) :
  (fst (extractCells gt rec s) = inl SizeMismatchError <->
   size gt <> size rec \/ width gt <> width rec \/ height gt <> height rec)
  /\
  (fst (extractCells gt rec s) = inr tt <->
   size gt = size rec /\ width gt = width rec /\ height gt = height rec)
  /\
  (size gt = size rec /\ width gt = width rec /\ height gt = height rec ->
   let s' := snd (extractCells gt rec s) in
   everyCell (extracted gt rec) s'
   /\ Permutation (flat_map locations (allCells s')) (visitedVoxels gt)
   /\ NoDup (flat_map locations (allCells s'))
   /\ (_width s' = width gt /\ _height s' = height gt /\ _depth s' = size gt)).
Proof.
  assert (Hthrow : fst (extractCells gt rec s) = inl SizeMismatchError <->
            size gt <> size rec \/ width gt <> width rec
            \/ height gt <> height rec).
  { rewrite extractCells_unfold, <- sameExtent_false.
    destruct (sameExtent gt rec); cbn [fst]; split; intros H;
      try reflexivity; discriminate H. }
  assert (Hok : fst (extractCells gt rec s) = inr tt <->
            size gt = size rec /\ width gt = width rec
            /\ height gt = height rec).
  { rewrite extractCells_unfold, <- sameExtent_true.
    destruct (sameExtent gt rec); cbn [fst]; split; intros H;
      try reflexivity; discriminate H. }
  split; [exact Hthrow|split; [exact Hok|]].
  intros Hsame. apply Hok in Hsame.
  exact (extractCells_partition gt rec s Hsame).
Qed.

Lemma extractCells_size_mismatch_iff_witness :
  (size twoColumns = size twoColumns /\ width twoColumns = width twoColumns
   /\ height twoColumns = height twoColumns)
  /\ Permutation
       (flat_map locations
          (allCells (snd (extractCells twoColumns twoColumns
                            (TolerantEditDistance 100)))))
       (visitedVoxels twoColumns).
Proof.
  assert (H : size twoColumns = size twoColumns
              /\ width twoColumns = width twoColumns
              /\ height twoColumns = height twoColumns)
    by (repeat split).
  split; [exact H|].
  exact (proj1 (proj2 (proj2 (proj2 (extractCells_size_mismatch_iff
                                       twoColumns twoColumns
                                       (TolerantEditDistance 100))) H))).
Defined.

(** ** A second run on the same object *)

(** C6.  An object runs [updateOutputs] on the two-column section and then
    on a single voxel of label 1.  In the second run the only cell has the
    single indicator [x0], and label 1 is the only reconstruction label.
    The one constraint of the form [... >= 1] is [x0 + x3 >= 1]: variable 3
    was an indicator of label 1 in the first run and is still in
    [_indicatorVarsByRecLabel], which no pass clears; in the second program
    it is the total of the splits. *)
Theorem second_run_survival_row_has_stale_indicator :
  let one := uniformStack 1 1 1 1 in
  let s := secondRun one one in
  let p := findBestCellLabels s in
  updateOutputs one one usedObject = (inr p, after p)
  /\ OrdSet.elements (getReconstructionLabels s) = [1]
  /\ numIndicators s = 1
  /\ indicatorsWithLabel s 1 = [0]
  /\ getIndicatorsByRec 1 usedObject = [0; 3]
  /\ getIndicatorsByRec 1 s = [0; 3]
  /\ splits p = 3
  /\ filter atLeastOne (linearConstraints p)
     = [mkLinearConstraint [(0, 1); (3, 1)] GreaterEqual 1].
Proof. vm_compute. repeat split. Qed.

(** C8.  An object runs [updateOutputs] on the two-column section and then
    on a single voxel of ground-truth label 2 and reconstruction label 1.
    In the second run [(2, 1)] is the only possible match, with match
    variable [x1], and [x0] is the only indicator that assigns label 1 to a
    cell of ground-truth label 2.  The constraints [... >= 0] in which [x1]
    occurs are [x1 - x3 >= 0], [x1 - x0 >= 0] and [x0 + x3 - x1 >= 0]:
    variable 3 was the indicator of the pair in the first run and is still
    in [_indicatorVarsByGtToRecLabel], which no pass clears; in the second
    program it is the total of the splits. *)
Theorem second_run_activation_rows_have_stale_indicator :
  let gt := uniformStack 1 1 1 2 in
  let rec := uniformStack 1 1 1 1 in
  let s := secondRun gt rec in
  let p := findBestCellLabels s in
  updateOutputs gt rec usedObject = (inr p, after p)
  /\ possibleMatches s = [(2, 1)]
  /\ getMatchVariable 2 1 (after p) = 1
  /\ indicatorsGtToRec s 2 1 = [0]
  /\ getIndicatorsGtToRec 2 1 usedObject = [3]
  /\ getIndicatorsGtToRec 2 1 s = [3]
  /\ splits p = 3
  /\ filter (activates 1) (linearConstraints p)
     = [mkLinearConstraint [(1, 1); (3, -1)] GreaterEqual 0;
        mkLinearConstraint [(0, -1); (1, 1)] GreaterEqual 0;
        mkLinearConstraint [(0, 1); (1, -1); (3, 1)] GreaterEqual 0].
Proof. vm_compute. repeat split. Qed.

(** C7.  An object runs [updateOutputs] on the two-column section and then
    on a single voxel of label 1.  In the second run [(1, 1)] is the only
    possible match, with match variable [x1], the merge counter of label 1
    is [x4], and the program has the six variables [x0 .. x5].  The
    constraint [... = -1] of the merge counter is [x4 - x1 - x6 = -1]:
    ground-truth label 2 is still in [_possibleReconstructionMatches] of
    label 1 and the pair [(2, 1)] still has the match variable 6 of the first
    run in [_matchVars]; neither is cleared by any pass. *)
Theorem second_run_merge_row_has_stale_match_variable :
  let one := uniformStack 1 1 1 1 in
  let s := secondRun one one in
  let p := findBestCellLabels s in
  updateOutputs one one usedObject = (inr p, after p)
  /\ possibleMatches s = [(1, 1)]
  /\ getMatchVariable 1 1 (after p) = 1
  /\ OrdSet.elements (getPossibleMathesByRec 1 s) = [1; 2]
  /\ getMatchVariable 2 1 s = 6
  /\ mergeVariable s 1 = 4
  /\ numVariables p = 6
  /\ filter (countsFor 4) (linearConstraints p)
     = [mkLinearConstraint [(1, -1); (4, 1); (6, -1)] Equal (-1)].
Proof. vm_compute. repeat split. Qed.
